(** * Contact deduplication engine (vcard_merger_v5.py): a shallow embedding

    The development embeds the entity-resolution core of the contact merger:
    name canonicalisation, nickname resolution, Soundex, e-mail and phone
    normalisation, the pairwise confidence score, the bucketing and
    clustering pass, and the merge step.

    Modelling conventions.
    - A Python [str] is a [list ascii].  Character classes are the ASCII ones:
      letters [A-Za-z], digits [0-9], the whitespace of [str.split] and of
      the regular-expression class [\s] (codes 9-13, 28-31 and 32), word
      characters [A-Za-z0-9_].  Code points above 127 belong to no class and
      are left unchanged by [lower] and [upper]; the embedding therefore
      speaks about ASCII text.
    - A Python [dict] that is iterated is an association list in insertion
      order; a [set] whose iteration order matters is a duplicate-free list
      together with an arbitrary enumeration order taken as a parameter.
    - [difflib.SequenceMatcher] is library code.  The engine is developed
      over an arbitrary similarity function; a model of the library is given
      in [Module Difflib] and used for the concrete examples.
    - The lazily filled cache fields of [VCardContact] memoise pure functions
      of the raw fields; the accessors are embedded as these functions.
    - Similarities and averages are exact rationals where the source has
      floats: [sim > 0.8] is a comparison with 8/10, [int(sim * 30)] and
      [int(avg_confidence)] are floors.  The operands are quotients of small
      integers, for which the rounded and the exact results agree.
    - In the traversal of phase 4 the set [processed] is read only between
      traversals; the embedding extends it once a traversal has ended. *)

From Stdlib Require Import Ascii String List ZArith QArith Qround Lia Bool.
From stdpp Require Import base list strings relations.
Import ListNotations.

Set Default Proof Using "Type".

(** ** Python strings *)

Abbreviation str := (list ascii).

(** String literals for [str]. *)
Definition literal : Type := list ascii.

Inductive str_lit : Set := lit_nil | lit_cons (c : ascii) (s : str_lit).

Fixpoint lit_of_bytes (bs : list Byte.byte) : str_lit :=
  match bs with
  | [] => lit_nil
  | b :: bs => lit_cons (ascii_of_byte b) (lit_of_bytes bs)
  end.

Fixpoint bytes_of_lit (s : str_lit) : list Byte.byte :=
  match s with
  | lit_nil => []
  | lit_cons c s => byte_of_ascii c :: bytes_of_lit s
  end.

Declare Scope str_scope.
Delimit Scope str_scope with str.
#[warnings="-via-type-remapping,-via-type-mismatch"]
String Notation literal lit_of_bytes bytes_of_lit
  (via str_lit mapping [[nil] => lit_nil, [cons] => lit_cons]) : str_scope.
Open Scope str_scope.

Module Py.

Definition code (c : ascii) : nat := nat_of_ascii c.

Definition between (lo hi : nat) (c : ascii) : bool :=
  (lo <=? code c)%nat && (code c <=? hi)%nat.

Definition is_upper (c : ascii) : bool := between 65 90 c.
Definition is_lower (c : ascii) : bool := between 97 122 c.
Definition is_alpha (c : ascii) : bool := is_upper c || is_lower c.
Definition is_digit (c : ascii) : bool := between 48 57 c.
(** [str.isspace] and [\s] on ASCII: TAB LF VT FF CR, FS GS RS US, SPACE. *)
Definition is_space (c : ascii) : bool :=
  between 9 13 c || between 28 32 c.
(** [\w] on ASCII. *)
Definition is_word (c : ascii) : bool :=
  is_alpha c || is_digit c || bool_decide (c = "_"%char).

Definition lower_char (c : ascii) : ascii :=
  if is_upper c then ascii_of_nat (code c + 32) else c.
Definition upper_char (c : ascii) : ascii :=
  if is_lower c then ascii_of_nat (code c - 32) else c.

Definition lower (s : str) : str := map lower_char s.
Definition upper (s : str) : str := map upper_char s.

(** [s.lstrip()], [s.rstrip()], [s.strip()]. *)
Fixpoint lstrip (s : str) : str :=
  match s with
  | c :: s' => if is_space c then lstrip s' else s
  | [] => []
  end.
Definition rstrip (s : str) : str := reverse (lstrip (reverse s)).
Definition strip (s : str) : str := rstrip (lstrip s).

(** [s.split()]: the maximal runs of non-whitespace characters. *)
Fixpoint split (s : str) : list str :=
  match s with
  | [] => []
  | c :: s' =>
      if is_space c then split s'
      else match s' with
           | [] => [[c]]
           | c' :: _ =>
               if is_space c' then [c] :: split s'
               else match split s' with
                    | w :: ws => (c :: w) :: ws
                    | [] => [[c]]
                    end
           end
  end.

(** [sep.join(ws)]. *)
Fixpoint join (sep : str) (ws : list str) : str :=
  match ws with
  | [] => []
  | [w] => w
  | w :: ws' => w ++ sep ++ join sep ws'
  end.

(** [s.partition(sep)] for a one-character separator: the text before the
    first [sep] and, when there is one, the text after it. *)
Fixpoint cut (sep : ascii) (s : str) : str * option str :=
  match s with
  | [] => ([], None)
  | c :: s' =>
      if bool_decide (c = sep) then ([], Some s')
      else let '(a, b) := cut sep s' in (c :: a, b)
  end.

(** [s.split(sep)]: every piece. *)
Fixpoint split_on (sep : ascii) (s : str) : list str :=
  match s with
  | [] => [[]]
  | c :: s' =>
      if bool_decide (c = sep) then [] :: split_on sep s'
      else match split_on sep s' with
           | w :: ws => (c :: w) :: ws
           | [] => [[c]]
           end
  end.

(** [s.split(sep, 1)]. *)
Definition split1 (sep : ascii) (s : str) : list str :=
  match cut sep s with
  | (a, Some b) => [a; b]
  | (a, None) => [a]
  end.

(** [s.rsplit(sep, 1)]: cut at the last separator. *)
Definition rsplit1 (sep : ascii) (s : str) : list str :=
  match cut sep (reverse s) with
  | (b, Some a) => [reverse a; reverse b]
  | (b, None) => [reverse b]
  end.

(** [s.replace(c, '')]. *)
Definition remove_char (c : ascii) (s : str) : str :=
  filter (λ x, x ≠ c) s.

(** [c in s]. *)
Definition contains (c : ascii) (s : str) : bool := bool_decide (c ∈ s).

(** [s[-n:]] for [n > 0]. *)
Definition last_n (n : nat) (s : str) : str := drop (length s - n) s.

(** [s.startswith(p)]. *)
Fixpoint startswith (p s : str) : bool :=
  match p, s with
  | [], _ => true
  | a :: p', b :: s' => bool_decide (a = b) && startswith p' s'
  | _ :: _, [] => false
  end.

(** Truthiness of a string. *)
Definition truthy (s : str) : bool :=
  match s with [] => false | _ => true end.

End Py.

(** ** Regular expressions

    The fragment of Python's [re] used by the source: literals, classes,
    sequence, ordered alternation, greedy option, greedy repetition of a
    character class, the anchors [^] and [$] (without [MULTILINE]) and the
    word boundary [\b].  The matcher is the backtracking one: alternatives
    are tried in order, repetitions longest first, and the first success is
    the match. *)

Module Re.

Inductive regex : Type :=
| Chr (c : ascii)
| Cls (p : ascii → bool)
| Seq (r1 r2 : regex)
| Alt (r1 r2 : regex)
| Opt (r : regex)
| Star (p : ascii → bool)
| Bol
| Eol
| WordB.

(** [p+] for a class [p]. *)
Definition Plus (p : ascii → bool) : regex := Seq (Cls p) (Star p).

(** A literal word. *)
Fixpoint Lit (w : str) : regex :=
  match w with
  | [] => Opt (Cls (λ _, false))
  | [c] => Chr c
  | c :: w' => Seq (Chr c) (Lit w')
  end.

(** An ordered alternation of literal words, [(w1|w2|...)]. *)
Fixpoint Words (ws : list str) : regex :=
  match ws with
  | [] => Cls (λ _, false)
  | [w] => Lit w
  | w :: ws' => Alt (Lit w) (Words ws')
  end.

Definition chr_eq (ignorecase : bool) (c x : ascii) : bool :=
  if ignorecase then bool_decide (Py.lower_char c = Py.lower_char x)
  else bool_decide (c = x).

Definition word_at (o : option ascii) : bool :=
  match o with Some c => Py.is_word c | None => false end.

Section Match.
Context {A : Type}.
Variable ignorecase : bool.

Fixpoint star (p : ascii → bool) (prev : option ascii) (s : str)
    (k : option ascii → str → option A) : option A :=
  match s with
  | c :: s' =>
      if p c then
        match star p (Some c) s' k with
        | Some a => Some a
        | None => k prev s
        end
      else k prev s
  | [] => k prev s
  end.

(** [rmatch r prev s k]: match [r] at the head of [s], the character
    before the position being [prev] ([None] at the start of the
    subject), and pass the position reached to [k]; backtrack into [r]
    when [k] fails. *)
Fixpoint rmatch (r : regex) (prev : option ascii) (s : str)
    (k : option ascii → str → option A) : option A :=
  match r with
  | Chr c =>
      match s with
      | x :: s' => if chr_eq ignorecase c x then k (Some x) s' else None
      | [] => None
      end
  | Cls p =>
      match s with
      | x :: s' => if p x then k (Some x) s' else None
      | [] => None
      end
  | Seq r1 r2 => rmatch r1 prev s (λ prev' s', rmatch r2 prev' s' k)
  | Alt r1 r2 =>
      match rmatch r1 prev s k with
      | Some a => Some a
      | None => rmatch r2 prev s k
      end
  | Opt r1 =>
      match rmatch r1 prev s k with
      | Some a => Some a
      | None => k prev s
      end
  | Star p => star p prev s k
  | Bol => match prev with None => k prev s | Some _ => None end
  | Eol =>
      match s with
      | [] => k prev s
      | [c] => if bool_decide (c = "010"%char) then k prev s else None
      | _ => None
      end
  | WordB =>
      if xorb (word_at prev) (word_at (head s)) then k prev s else None
  end.
End Match.

(** The match of [r] starting exactly at the head of [s]: the text left
    after it. *)
Definition match_here (ignorecase : bool) (r : regex)
    (prev : option ascii) (s : str) : option str :=
  rmatch ignorecase r prev s (λ _ rest, Some rest).

(** [re.sub(r, repl, s)] with a constant replacement: scan left to right,
    replace each match and resume after it.  [skip] counts the characters
    of the current match still to be dropped.  None of the patterns of the
    source can match the empty string, so an empty match is treated like
    no match. *)
Fixpoint sub_from (ignorecase : bool) (r : regex) (repl : str)
    (prev : option ascii) (skip : nat) (s : str) : str :=
  match skip with
  | S n =>
      match s with
      | c :: s' => sub_from ignorecase r repl (Some c) n s'
      | [] => []
      end
  | O =>
      match s with
      | [] => []
      | c :: s' =>
          match match_here ignorecase r prev s with
          | Some rest =>
              match length s - length rest with
              | S n => repl ++ sub_from ignorecase r repl (Some c) n s'
              | O => c :: sub_from ignorecase r repl (Some c) 0 s'
              end
          | None => c :: sub_from ignorecase r repl (Some c) 0 s'
          end
      end
  end.

Definition sub (ignorecase : bool) (r : regex) (repl : str) (s : str) : str :=
  sub_from ignorecase r repl None 0 s.

End Re.

(** ** Python dictionaries

    Association lists in insertion order: [set] overwrites the value of a
    key that is present and keeps its position, and appends a new key. *)

Module Dict.

Section Dict.
Context {K V : Type} `{EqDecision K}.

Definition dict : Type := list (K * V).

Fixpoint get (d : dict) (k : K) : option V :=
  match d with
  | [] => None
  | (k', v) :: d' => if decide (k' = k) then Some v else get d' k
  end.

Fixpoint set (k : K) (v : V) (d : dict) : dict :=
  match d with
  | [] => [(k, v)]
  | (k', v') :: d' =>
      if decide (k' = k) then (k, v) :: d' else (k', v') :: set k v d'
  end.

(** [d.get(k, dflt)]. *)
Definition get_default (d : dict) (k : K) (dflt : V) : V :=
  match get d k with Some v => v | None => dflt end.

Definition values (d : dict) : list V := map snd d.
Definition keys (d : dict) : list K := map fst d.
End Dict.

Arguments dict : clear implicits.

End Dict.

(** ** Nickname mapping *)

Definition NICKNAME_MAP : list (str * str) :=
  [
    ("bob", "robert"); ("rob", "robert"); ("bobby", "robert"); ("robbie", "robert");
    ("bert", "robert"); ("bill", "william"); ("will", "william"); ("billy", "william");
    ("willy", "william"); ("liam", "william"); ("mike", "michael"); ("mick", "michael");
    ("mickey", "michael"); ("mikey", "michael"); ("jim", "james"); ("jimmy", "james");
    ("jamie", "james"); ("joe", "joseph"); ("joey", "joseph"); ("tom", "thomas");
    ("tommy", "thomas"); ("thom", "thomas"); ("dick", "richard"); ("rick", "richard");
    ("ricky", "richard"); ("rich", "richard"); ("dan", "daniel"); ("danny", "daniel");
    ("dave", "david"); ("davy", "david"); ("steve", "steven"); ("stevie", "steven");
    ("chris", "christopher"); ("kit", "christopher"); ("matt", "matthew"); ("matty", "matthew");
    ("tony", "anthony"); ("ant", "anthony"); ("andy", "andrew"); ("drew", "andrew");
    ("nick", "nicholas"); ("nicky", "nicholas"); ("ed", "edward"); ("eddie", "edward");
    ("ted", "edward"); ("teddy", "edward"); ("al", "albert"); ("albie", "albert");
    ("alex", "alexander"); ("xander", "alexander"); ("ben", "benjamin"); ("benny", "benjamin");
    ("benji", "benjamin"); ("chuck", "charles"); ("charlie", "charles"); ("chas", "charles");
    ("frank", "francis"); ("frankie", "francis"); ("fran", "francis"); ("fred", "frederick");
    ("freddy", "frederick"); ("freddie", "frederick"); ("greg", "gregory"); ("hank", "henry");
    ("harry", "henry"); ("hal", "henry"); ("jack", "john"); ("johnny", "john");
    ("jon", "john"); ("jake", "jacob"); ("jeff", "jeffrey"); ("geoff", "geoffrey");
    ("jerry", "gerald"); ("gerry", "gerald"); ("josh", "joshua"); ("larry", "lawrence");
    ("lars", "lawrence"); ("leo", "leonard"); ("lenny", "leonard"); ("louie", "louis");
    ("lou", "louis"); ("mark", "marcus"); ("marty", "martin"); ("max", "maxwell");
    ("maxie", "maxwell"); ("nate", "nathan"); ("nathaniel", "nathan"); ("pat", "patrick");
    ("paddy", "patrick"); ("pete", "peter"); ("petey", "peter"); ("phil", "philip");
    ("pip", "philip"); ("ray", "raymond"); ("ron", "ronald"); ("ronnie", "ronald");
    ("sam", "samuel"); ("sammy", "samuel"); ("stan", "stanley"); ("tim", "timothy");
    ("timmy", "timothy"); ("vic", "victor"); ("wally", "walter"); ("walt", "walter");
    ("zach", "zachary"); ("zack", "zachary"); ("beth", "elizabeth"); ("liz", "elizabeth");
    ("lizzy", "elizabeth"); ("betty", "elizabeth"); ("libby", "elizabeth"); ("eliza", "elizabeth");
    ("lisa", "elizabeth"); ("ellie", "elizabeth"); ("kate", "katherine"); ("kathy", "katherine");
    ("katie", "katherine"); ("cathy", "catherine"); ("kat", "katherine"); ("kitty", "katherine");
    ("jenny", "jennifer"); ("jen", "jennifer"); ("jenn", "jennifer"); ("sue", "susan");
    ("susie", "susan"); ("suzy", "susan"); ("maggie", "margaret"); ("meg", "margaret");
    ("peggy", "margaret"); ("marge", "margaret"); ("margie", "margaret"); ("madge", "margaret");
    ("greta", "margaret"); ("pam", "pamela"); ("patty", "patricia"); ("trish", "patricia");
    ("tricia", "patricia"); ("barb", "barbara"); ("barbie", "barbara"); ("babs", "barbara");
    ("deb", "deborah"); ("debbie", "deborah"); ("debby", "deborah"); ("becky", "rebecca");
    ("becca", "rebecca"); ("vicky", "victoria"); ("vicki", "victoria"); ("tori", "victoria");
    ("chrissy", "christine"); ("tina", "christine"); ("lexie", "alexandra"); ("sandy", "sandra");
    ("mandy", "amanda"); ("angie", "angela"); ("angel", "angela"); ("annie", "anne");
    ("ann", "anne"); ("anna", "anne"); ("nancy", "anne"); ("bea", "beatrice");
    ("trixie", "beatrice"); ("carol", "caroline"); ("carrie", "caroline"); ("cindy", "cynthia");
    ("connie", "constance"); ("di", "diana"); ("diane", "diana"); ("donna", "madonna");
    ("dot", "dorothy"); ("dottie", "dorothy"); ("ella", "eleanor"); ("nell", "eleanor");
    ("nelly", "eleanor"); ("frannie", "frances"); ("francie", "frances"); ("gail", "abigail");
    ("abby", "abigail"); ("ginny", "virginia"); ("ginger", "virginia"); ("grace", "gracie");
    ("jan", "janet"); ("janice", "janet"); ("jo", "josephine"); ("josie", "josephine");
    ("judy", "judith"); ("judi", "judith"); ("jules", "julia"); ("julie", "julia");
    ("kay", "katherine"); ("kim", "kimberly"); ("kimmy", "kimberly"); ("laurie", "laura");
    ("lori", "laura"); ("linda", "belinda"); ("lindy", "belinda"); ("lucy", "lucille");
    ("lynn", "linda"); ("maddie", "madeline"); ("maddy", "madeline"); ("mary", "marie");
    ("maria", "mary"); ("molly", "mary"); ("polly", "mary"); ("mel", "melanie");
    ("melinda", "melanie"); ("mia", "maria"); ("millie", "millicent"); ("mildred", "millicent");
    ("minnie", "wilhelmina"); ("missy", "melissa"); ("nan", "nancy"); ("nat", "natalie");
    ("nicki", "nicole"); ("nikki", "nicole"); ("penny", "penelope"); ("paula", "pauline");
    ("rose", "rosemary"); ("rosie", "rosemary"); ("sally", "sarah"); ("sadie", "sarah");
    ("samantha", "sam"); ("shelly", "michelle"); ("shell", "michelle"); ("stacy", "anastasia");
    ("terri", "theresa"); ("terry", "theresa"); ("tess", "theresa"); ("tiff", "tiffany");
    ("val", "valerie"); ("wendy", "gwendolyn"); ("gwen", "gwendolyn")
  ].

(** The loop that fills [CANONICAL_NAMES]: each entry maps the nickname to
    the canonical name and the canonical name to itself, later assignments
    overwriting earlier ones. *)
Definition CANONICAL_NAMES : Dict.dict str str :=
  fold_left
    (λ d '(nickname, canonical),
       Dict.set canonical canonical (Dict.set nickname canonical d))
    NICKNAME_MAP [].

Definition resolve_nickname (name : str) : str :=
  if negb (Py.truthy name) then ""
  else Dict.get_default CANONICAL_NAMES (Py.lower name) (Py.lower name).

(** ** Soundex *)

Definition soundex_mapping (c : ascii) : option ascii :=
  if bool_decide (c ∈ "BFPV") then Some "1"%char
  else if bool_decide (c ∈ "CGJKQSXZ") then Some "2"%char
  else if bool_decide (c ∈ "DT") then Some "3"%char
  else if bool_decide (c ∈ "L") then Some "4"%char
  else if bool_decide (c ∈ "MN") then Some "5"%char
  else if bool_decide (c ∈ "R") then Some "6"%char
  else if bool_decide (c ∈ "AEIOUHWY") then Some "0"%char
  else None.

(** One iteration of the loop over [name[1:]]; the state is
    [(coded, prev_code)]. *)
Definition soundex_step (st : str * ascii) (char : ascii) : str * ascii :=
  let '(coded, prev_code) := st in
  match soundex_mapping char with
  | Some code =>
      if bool_decide (code ≠ "0"%char) && bool_decide (code ≠ prev_code)
      then (coded ++ [code], code)
      else if bool_decide (code = "0"%char) then (coded, "0"%char)
      else (coded, prev_code)
  | None => (coded, prev_code)
  end.

Definition soundex (name : str) : str :=
  if negb (Py.truthy name) then ""
  else
    let name := filter (λ c, Is_true (Py.is_alpha c)) (Py.upper name) in
    match name with
    | [] => ""
    | first_letter :: rest =>
        let prev_code :=
          match soundex_mapping first_letter with
          | Some d => d
          | None => "0"%char
          end in
        let '(coded, _) :=
          fold_left soundex_step rest ([first_letter], prev_code) in
        take 4 (coded ++ "000")
    end.

(** ** Name parsing *)

Definition titles : list str :=
  ["dr"; "mr"; "mrs"; "ms"; "miss"; "prof"; "rev"; "hon"; "sir"; "dame"].

Definition suffix_words : list str :=
  ["jr"; "sr"; "ii"; "iii"; "iv"; "v"; "phd"; "md"; "esq"; "cpa"; "dds"; "dvm"].

Import Re.

(** [\.?\s+], the end of the two title patterns. *)
Definition title_tail : regex := Seq (Opt (Chr ".")) (Plus Py.is_space).

(** [\.?\s*$], the end of the suffix pattern. *)
Definition suffix_tail : regex :=
  Seq (Opt (Chr ".")) (Seq (Star Py.is_space) Eol).

(** [^(dr|mr|...)\.?\s+] *)
Definition titles_start : regex :=
  Seq Bol (Seq (Words titles) title_tail).

(** [,\s*(dr|mr|...)\.?\s+] *)
Definition titles_after_comma : regex :=
  Seq (Chr ",") (Seq (Star Py.is_space) (Seq (Words titles) title_tail)).

(** [\b(jr|sr|...)\.?\s*$] *)
Definition suffix_at_boundary : regex :=
  Seq WordB (Seq (Words suffix_words) suffix_tail).

(** [,?\s*\b(jr|sr|...)\.?\s*$] *)
Definition suffixes : regex :=
  Seq (Opt (Chr ",")) (Seq (Star Py.is_space) suffix_at_boundary).

(** [[^\w\s-]] *)
Definition name_punctuation : regex :=
  Cls (λ c, negb (Py.is_word c || Py.is_space c || bool_decide (c = "-"%char))).

Definition canonical_form (first_name last_name : str) : str :=
  if Py.truthy first_name && Py.truthy last_name
  then first_name ++ " " ++ last_name
  else if Py.truthy first_name then first_name
  else if Py.truthy last_name then last_name
  else "".

Definition parse_name_parts (full_name : str) : str * str * str :=
  if negb (Py.truthy full_name) then ("", "", "")
  else
    let name := Re.sub true titles_start "" full_name in
    let name := Re.sub true titles_after_comma ", " name in
    let name := Re.sub true suffixes "" name in
    let name := Py.join " " (Py.split name) in
    if negb (Py.truthy name) then ("", "", "")
    else
      let first_last : option (str * str) :=
        if Py.contains "," name then
          let parts := Py.split1 "," name in
          let last_name := Py.strip (nth 0 parts "") in
          let first_parts :=
            if (1 <? length parts)%nat
            then Py.split (Py.strip (nth 1 parts ""))
            else [] in
          Some (nth 0 first_parts "", last_name)
        else
          let parts := Py.split name in
          match length parts with
          | 0 => None
          | 1 => Some (nth 0 parts "", "")
          | _ => Some (nth 0 parts "", List.last parts "")
          end in
      match first_last with
      | None => ("", "", "")
      | Some (first_name, last_name) =>
          let first_name := Py.strip (Py.lower first_name) in
          let last_name := Py.strip (Py.lower last_name) in
          let first_name := Re.sub false name_punctuation "" first_name in
          let last_name := Re.sub false name_punctuation "" last_name in
          (first_name, last_name, canonical_form first_name last_name)
      end.

Definition get_canonical_first_name (first_name : str) : str :=
  if negb (Py.truthy first_name) then "" else resolve_nickname first_name.

(** The loop of [normalize_display_name]: [prev_word] is [None] before the
    first word. *)
Fixpoint drop_repeats (prev_word : option str) (words : list str) : list str :=
  match words with
  | [] => []
  | word :: words' =>
      match prev_word with
      | Some p =>
          if bool_decide (Py.lower word ≠ Py.lower p)
          then word :: drop_repeats (Some word) words'
          else drop_repeats prev_word words'
      | None => word :: drop_repeats (Some word) words'
      end
  end.

Definition normalize_display_name (name : str) : str :=
  if negb (Py.truthy name) then name
  else
    let words := Py.split name in
    if (length words <=? 1)%nat then name
    else Py.join " " (drop_repeats None words).

(** ** E-mail and phone normalisation *)

Definition normalize_email (email : str) : str :=
  if negb (Py.truthy email) || negb (Py.contains "@" email)
  then (if Py.truthy email then Py.lower email else "")
  else
    match Py.rsplit1 "@" (Py.lower email) with
    | [local; domain] =>
        let domain :=
          if bool_decide (domain = "googlemail.com") then "gmail.com"
          else domain in
        let local :=
          if Py.contains "+" local then nth 0 (Py.split_on "+" local) ""
          else local in
        let local :=
          if bool_decide (domain = "gmail.com") then Py.remove_char "." local
          else local in
        local ++ "@" ++ domain
    | _ => Py.lower email
    end.

(** [\D] *)
Definition non_digit : regex := Cls (λ c, negb (Py.is_digit c)).

Definition normalize_phone (phone : str) : str :=
  if negb (Py.truthy phone) then ""
  else
    let digits := Re.sub false non_digit "" phone in
    if negb (Py.truthy digits) then ""
    else
      let digits :=
        if (length digits =? 11)%nat && Py.startswith "1" digits
        then drop 1 digits else digits in
      if (10 <=? length digits)%nat then Py.last_n 10 digits
      else if (7 <=? length digits)%nat then Py.last_n 7 digits
      else digits.

Definition phones_match (phone1 phone2 : str) : bool * nat * str :=
  let norm1 := normalize_phone phone1 in
  let norm2 := normalize_phone phone2 in
  if negb (Py.truthy norm1) || negb (Py.truthy norm2) then (false, 0, "")
  else if (10 <=? length norm1)%nat && (10 <=? length norm2)%nat
          && bool_decide (norm1 = norm2)
  then (true, 100, "Phone exact match (10 digits)")
  else if (7 <=? length norm1)%nat && (7 <=? length norm2)%nat
          && bool_decide (Py.last_n 7 norm1 = Py.last_n 7 norm2)
  then (true, 90, "Phone match (last 7 digits)")
  else (false, 0, "").

(** ** difflib.SequenceMatcher

    A model of the library class (CPython 3.11, [Lib/difflib.py]) as the
    engine uses it: [SequenceMatcher(None, a, b).ratio()], with no junk
    predicate and the default [autojunk=True]. *)

Module Difflib.

(** [b2j]: the positions of [x] in [b], in increasing order; an element
    that fills more than [n // 100 + 1] positions of a [b] of 200 or more
    elements is "popular" and has no entry. *)
Fixpoint positions (x : ascii) (b : str) (j : nat) : list nat :=
  match b with
  | [] => []
  | y :: b' =>
      if bool_decide (y = x) then j :: positions x b' (S j)
      else positions x b' (S j)
  end.

Definition b2j (b : str) (x : ascii) : list nat :=
  let idxs := positions x b 0 in
  if (200 <=? length b)%nat && (length b / 100 + 1 <? length idxs)%nat
  then [] else idxs.

Record best := { besti : nat; bestj : nat; bestsize : nat }.

(** The loop over [j] for one [i]; the state is [(newj2len, best)]. *)
Fixpoint scan_row (blo bhi i : nat) (j2len : Dict.dict nat nat)
    (js : list nat) (st : Dict.dict nat nat * best)
    : Dict.dict nat nat * best :=
  match js with
  | [] => st
  | j :: js' =>
      if (j <? blo)%nat then scan_row blo bhi i j2len js' st
      else if (bhi <=? j)%nat then st
      else
        let '(newj2len, bst) := st in
        let k :=
          S (match j with
             | O => 0%nat
             | S j' => Dict.get_default j2len j' 0%nat
             end) in
        let newj2len := Dict.set j k newj2len in
        let bst :=
          if (bestsize bst <? k)%nat
          then {| besti := S i - k; bestj := S j - k; bestsize := k |}
          else bst in
        scan_row blo bhi i j2len js' (newj2len, bst)
  end.

(** The loop over [i in range(alo, ahi)]; [n] counts the rows left. *)
Fixpoint scan (a b : str) (blo bhi : nat) (n i : nat)
    (j2len : Dict.dict nat nat) (bst : best) : best :=
  match n with
  | O => bst
  | S n' =>
      let js := match a !! i with Some x => b2j b x | None => [] end in
      let '(newj2len, bst) := scan_row blo bhi i j2len js ([], bst) in
      scan a b blo bhi n' (S i) newj2len bst
  end.

(** The two loops that extend the block to the left and to the right
    (no element is junk, so the two loops that extend by junk elements
    never run). *)
Fixpoint extend_left (a b : str) (alo blo : nat) (n : nat) (bst : best)
    : best :=
  match n with
  | O => bst
  | S n' =>
      if (alo <? besti bst)%nat && (blo <? bestj bst)%nat
         && bool_decide (is_Some (a !! (besti bst - 1))
                         ∧ a !! (besti bst - 1) = b !! (bestj bst - 1))
      then extend_left a b alo blo n'
             {| besti := besti bst - 1; bestj := bestj bst - 1;
                bestsize := S (bestsize bst) |}
      else bst
  end.

Fixpoint extend_right (a b : str) (ahi bhi : nat) (n : nat) (bst : best)
    : best :=
  match n with
  | O => bst
  | S n' =>
      if (besti bst + bestsize bst <? ahi)%nat
         && (bestj bst + bestsize bst <? bhi)%nat
         && bool_decide (is_Some (a !! (besti bst + bestsize bst))
                         ∧ a !! (besti bst + bestsize bst)
                           = b !! (bestj bst + bestsize bst))
      then extend_right a b ahi bhi n'
             {| besti := besti bst; bestj := bestj bst;
                bestsize := S (bestsize bst) |}
      else bst
  end.

Definition find_longest_match (a b : str) (alo ahi blo bhi : nat) : best :=
  let bst := scan a b blo bhi (ahi - alo) alo []
               {| besti := alo; bestj := blo; bestsize := 0 |} in
  let bst := extend_left a b alo blo (length a) bst in
  extend_right a b ahi bhi (length a) bst.

(** The work-list loop of [get_matching_blocks]; the head of [queue] is
    its last element, the one [queue.pop()] takes.  [None] when the
    iteration budget [fuel] runs out. *)
Fixpoint blocks_loop (fuel : nat) (a b : str)
    (queue : list (nat * nat * nat * nat)) (matching_blocks : list best)
    : option (list best) :=
  match queue with
  | [] => Some matching_blocks
  | (alo, ahi, blo, bhi) :: queue' =>
      match fuel with
      | O => None
      | S fuel' =>
          let x := find_longest_match a b alo ahi blo bhi in
          let '(i, j, k) := (besti x, bestj x, bestsize x) in
          if (0 <? k)%nat then
            let queue' :=
              if (alo <? i)%nat && (blo <? j)%nat
              then (alo, i, blo, j) :: queue' else queue' in
            let queue' :=
              if (i + k <? ahi)%nat && (j + k <? bhi)%nat
              then (i + k, ahi, j + k, bhi) :: queue' else queue' in
            blocks_loop fuel' a b queue' (matching_blocks ++ [x])
          else blocks_loop fuel' a b queue' matching_blocks
      end
  end.

(** The blocks found, before they are sorted and adjacent ones are merged
    (neither changes the sum of their sizes, which is all that [ratio]
    reads).  Each block takes at least one element of [a] out of play and
    leaves at most two windows, so [2 * len(a) + 1] iterations suffice. *)
Definition get_matching_blocks (a b : str) : option (list best) :=
  blocks_loop (2 * length a + 1) a b [(0, length a, 0, length b)]%nat [].

Definition matches (a b : str) : nat :=
  match get_matching_blocks a b with
  | Some bs => foldr (λ x acc, bestsize x + acc)%nat 0%nat bs
  | None => 0
  end.

(** [_calculate_ratio(matches, len(a) + len(b))] as an exact rational. *)
Definition ratio (a b : str) : Q :=
  match (length a + length b)%nat with
  | O => 1
  | S _ as len => Qmake (2 * Z.of_nat (matches a b)) (Pos.of_nat len)
  end.

End Difflib.

(** ** Contacts *)

Record VCardContact : Type := {
  fn : str;
  n_parts : list str;
  emails : list str;
  phones : list str;
  addresses : list str;
  notes : list str;
  org : str;
  title : str;
  birthday : str;
  url : str;
  raw_vcard : str;
  source_file : str
}.

(** [VCardContact()] *)
Definition empty_contact : VCardContact :=
  {| fn := ""; n_parts := []; emails := []; phones := []; addresses := [];
     notes := []; org := ""; title := ""; birthday := ""; url := "";
     raw_vcard := ""; source_file := "" |}.

Definition get_parsed_name (c : VCardContact) : str * str * str :=
  parse_name_parts (fn c).
Definition get_normalized_emails (c : VCardContact) : list str :=
  map normalize_email (emails c).
Definition get_normalized_phones (c : VCardContact) : list str :=
  map normalize_phone (phones c).

(** ** Results of fallible calls *)

Inductive exn : Type :=
| IndexError     (** a list index out of range *)
| BudgetExhausted (** not a Python exception: the iteration budget that
                      makes a [while] loop of the embedding terminate ran
                      out *).

Inductive res (A : Type) : Type :=
| Ret (a : A)
| Raise (e : exn).
Arguments Ret {A} a.
Arguments Raise {A} e.

Definition bind {A B : Type} (m : res A) (f : A → res B) : res B :=
  match m with
  | Ret a => f a
  | Raise e => Raise e
  end.

#[global] Instance res_ret : MRet res := @Ret.
#[global] Instance res_bind : MBind res := λ A B f m, bind m f.

(** [l[i]] *)
Definition index {A : Type} (l : list A) (i : nat) : res A :=
  match l !! i with
  | Some x => Ret x
  | None => Raise IndexError
  end.

(** ** Merging *)

(** The loop that selects the display name. *)
Definition best_name_step (best_name : str) (contact : VCardContact) : str :=
  if Py.truthy (fn contact) then
    let current_words := length (Py.split (fn contact)) in
    let best_words :=
      if Py.truthy best_name then length (Py.split best_name) else 0%nat in
    if (best_words <? current_words)%nat then fn contact
    else if (current_words =? best_words)%nat
            && (length best_name <? length (fn contact))%nat
    then fn contact
    else best_name
  else best_name.

(** [x or y] on strings. *)
Definition or_else (x y : str) : str := if Py.truthy x then x else y.

Definition merge_emails (merged : list str) (es : list str) : list str :=
  fold_left
    (λ merged email,
       if bool_decide (Py.lower email ∉ map Py.lower merged)
       then merged ++ [email] else merged)
    es merged.

Definition merge_phones (merged : list str) (ps : list str) : list str :=
  fold_left
    (λ merged phone,
       let norm_phone := normalize_phone phone in
       let existing_norms := map normalize_phone merged in
       if Py.truthy norm_phone && bool_decide (norm_phone ∉ existing_norms)
       then merged ++ [phone] else merged)
    ps merged.

Definition merge_exact (merged : list str) (xs : list str) : list str :=
  fold_left
    (λ merged x, if bool_decide (x ∉ merged) then merged ++ [x] else merged)
    xs merged.

(** Insertion into a sorted duplicate-free list: [sorted(set(...))]. *)
Fixpoint str_leb (a b : str) : bool :=
  match a, b with
  | [], _ => true
  | _ :: _, [] => false
  | x :: a', y :: b' =>
      if (Py.code x <? Py.code y)%nat then true
      else if (Py.code y <? Py.code x)%nat then false
      else str_leb a' b'
  end.

Fixpoint sorted_insert (x : str) (l : list str) : list str :=
  match l with
  | [] => [x]
  | y :: l' =>
      if bool_decide (x = y) then l
      else if str_leb x y then x :: l
      else y :: sorted_insert x l'
  end.

(** The body of the second loop of [merge_contacts]; the state is the
    merged contact and the set of sources (kept sorted). *)
Definition merge_step (st : VCardContact * list str) (contact : VCardContact)
    : VCardContact * list str :=
  let '(merged, sources) := st in
  let sources :=
    if Py.truthy (source_file contact)
    then sorted_insert (source_file contact) sources else sources in
  ({| fn := fn merged;
      n_parts := n_parts merged;
      emails := merge_emails (emails merged) (emails contact);
      phones := merge_phones (phones merged) (phones contact);
      addresses := merge_exact (addresses merged) (addresses contact);
      notes := merge_exact (notes merged) (notes contact);
      org := or_else (org merged) (org contact);
      title := or_else (title merged) (title contact);
      birthday := or_else (birthday merged) (birthday contact);
      url := or_else (url merged) (url contact);
      raw_vcard := raw_vcard merged;
      source_file := source_file merged |}, sources).

(** [merge_contacts]: Python's [None] is [None]. *)
Definition merge_contacts (contacts : list VCardContact)
    : res (option VCardContact) :=
  match contacts with
  | [] => Ret None
  | contact0 :: _ =>
      let best_name := fold_left best_name_step contacts "" in
      let merged :=
        {| fn := or_else best_name (fn contact0);
           n_parts := n_parts contact0;
           emails := []; phones := []; addresses := []; notes := [];
           org := org contact0; title := title contact0;
           birthday := birthday contact0; url := url contact0;
           raw_vcard := ""; source_file := "" |} in
      let '(merged, sources) := fold_left merge_step contacts (merged, []) in
      Ret (Some
        {| fn := if Py.truthy (fn merged)
                 then normalize_display_name (fn merged) else fn merged;
           n_parts := n_parts merged;
           emails := emails merged; phones := phones merged;
           addresses := addresses merged; notes := notes merged;
           org := org merged; title := title merged;
           birthday := birthday merged; url := url merged;
           raw_vcard := raw_vcard merged;
           source_file :=
             match sources with
             | [] => source_file merged
             | _ => Py.join ", " sources
             end |})
  end.

(** ** Confidence score and clustering *)

Record group : Type := {
  indices : list nat;
  confidence : Z
}.

(** Stable insertion sort by decreasing confidence:
    [groups.sort(key=lambda g: g['confidence'], reverse=True)]. *)
Fixpoint insert_group (g : group) (gs : list group) : list group :=
  match gs with
  | [] => [g]
  | h :: gs' =>
      if (confidence h <=? confidence g)%Z then g :: gs
      else h :: insert_group g gs'
  end.

Definition sort_groups (gs : list group) : list group :=
  foldr insert_group [] gs.

(** [d[k].append(i)] on a [defaultdict(list)]. *)
Definition bucket_append {K : Type} `{EqDecision K} {V : Type}
    (d : Dict.dict K (list V)) (k : K) (v : V) : Dict.dict K (list V) :=
  Dict.set k (Dict.get_default d k [] ++ [v]) d.

Record buckets : Type := {
  email_buckets : Dict.dict str (list nat);
  phone_buckets : Dict.dict str (list nat);
  name_buckets : Dict.dict str (list nat);
  soundex_buckets : Dict.dict str (list nat);
  canonical_name_buckets : Dict.dict str (list nat);
  nickname_buckets : Dict.dict str (list nat)
}.

Definition no_buckets : buckets :=
  {| email_buckets := []; phone_buckets := []; name_buckets := [];
     soundex_buckets := []; canonical_name_buckets := [];
     nickname_buckets := [] |}.

(** Phase 1, the body of the loop over [enumerate(contacts)]. *)
Definition index_contact (b : buckets) (ic : nat * VCardContact) : buckets :=
  let '(i, contact) := ic in
  let eb :=
    fold_left
      (λ d email, if Py.truthy email then bucket_append d email i else d)
      (get_normalized_emails contact) (email_buckets b) in
  let pb :=
    fold_left
      (λ d phone,
         let d := if (7 <=? length phone)%nat
                  then bucket_append d (Py.last_n 7 phone) i else d in
         if (10 <=? length phone)%nat
         then bucket_append d (Py.last_n 10 phone) i else d)
      (get_normalized_phones contact) (phone_buckets b) in
  let '(first, last, norm_name) := get_parsed_name contact in
  let nb :=
    if Py.truthy last then bucket_append (name_buckets b) (Py.lower last) i
    else name_buckets b in
  let sb :=
    if Py.truthy last then
      let sx := soundex last in
      if Py.truthy sx then bucket_append (soundex_buckets b) sx i
      else soundex_buckets b
    else soundex_buckets b in
  if Py.truthy first && Py.truthy last then
    let canonical_key := first ++ "_" ++ last in
    let canonical_first := get_canonical_first_name first in
    let nickname_key := canonical_first ++ "_" ++ last in
    let first_sx := soundex first in
    let last_sx := soundex last in
    {| email_buckets := eb; phone_buckets := pb; name_buckets := nb;
       soundex_buckets :=
         if Py.truthy first_sx && Py.truthy last_sx
         then bucket_append sb (first_sx ++ "_" ++ last_sx) i else sb;
       canonical_name_buckets :=
         bucket_append (canonical_name_buckets b) canonical_key i;
       nickname_buckets := bucket_append (nickname_buckets b) nickname_key i |}
  else
    {| email_buckets := eb; phone_buckets := pb; name_buckets := nb;
       soundex_buckets := sb;
       canonical_name_buckets := canonical_name_buckets b;
       nickname_buckets := nickname_buckets b |}.

(** [enumerate(l)] *)
Definition enumerate {A : Type} (l : list A) : list (nat * A) :=
  imap (λ i x, (i, x)) l.

Definition build_buckets (contacts : list VCardContact) : buckets :=
  fold_left index_contact (enumerate contacts) no_buckets.

(** [s.add(x)] on a set kept as a duplicate-free list. *)
Definition set_add {A : Type} `{EqDecision A} (s : list A) (x : A) : list A :=
  if bool_decide (x ∈ s) then s else s ++ [x].

(** The pairs [(min(l[i], l[j]), max(l[i], l[j]))] for [i < j], in the
    order of the two nested [range] loops. *)
Fixpoint pairs_of (l : list nat) : list (nat * nat) :=
  match l with
  | [] => []
  | a :: l' => map (λ b, (a `min` b, a `max` b)) l' ++ pairs_of l'
  end.

(** One of the six loops of phase 2: the buckets of one dictionary with
    more than one and at most [cap] entries ([None]: no upper bound). *)
Definition add_bucket_pairs (cap : option nat)
    (d : Dict.dict str (list nat)) (candidate_pairs : list (nat * nat))
    : list (nat * nat) :=
  fold_left
    (λ pairs idxs,
       if (1 <? length idxs)%nat
          && match cap with
             | Some n => (length idxs <=? n)%nat
             | None => true
             end
       then fold_left set_add (pairs_of idxs) pairs
       else pairs)
    (Dict.values d) candidate_pairs.

Definition candidate_pairs_of (b : buckets) : list (nat * nat) :=
  let pairs := add_bucket_pairs None (email_buckets b) [] in
  let pairs := add_bucket_pairs None (phone_buckets b) pairs in
  let pairs := add_bucket_pairs (Some 100%nat) (canonical_name_buckets b) pairs in
  let pairs := add_bucket_pairs (Some 100%nat) (nickname_buckets b) pairs in
  let pairs := add_bucket_pairs (Some 50%nat) (soundex_buckets b) pairs in
  add_bucket_pairs (Some 100%nat) (name_buckets b) pairs.

(** The breadth-first loop of phase 4. *)
Record bfs_state : Type := {
  queue_bfs : list nat;
  visited : list nat;
  group_indices : list nat;
  all_confidences : list Z
}.

Definition visit_neighbor (st : bfs_state) (e : nat * Z) : bfs_state :=
  let '(neighbor, conf) := e in
  if bool_decide (neighbor ∉ visited st) then
    {| queue_bfs := queue_bfs st ++ [neighbor];
       visited := visited st ++ [neighbor];
       group_indices := group_indices st;
       all_confidences := all_confidences st ++ [conf] |}
  else st.

Fixpoint bfs (fuel : nat) (match_graph : Dict.dict nat (list (nat * Z)))
    (st : bfs_state) : res bfs_state :=
  match queue_bfs st with
  | [] => Ret st
  | current :: queue' =>
      match fuel with
      | O => Raise BudgetExhausted
      | S fuel' =>
          let st :=
            {| queue_bfs := queue';
               visited := visited st;
               group_indices := group_indices st ++ [current];
               all_confidences := all_confidences st |} in
          bfs fuel' match_graph
            (fold_left visit_neighbor
               (Dict.get_default match_graph current []) st)
      end
  end.

Definition sum_Z (l : list Z) : Z := foldr Z.add 0%Z l.

Section Engine.

(** [SequenceMatcher(None, a, b).ratio()] *)
Variable ratio : str → str → Q.
(** The order in which a [for] loop enumerates a [set] that was filled in
    the given order. *)
Variable set_order : list (nat * nat) → list (nat * nat).

Definition email_points (contact1 contact2 : VCardContact) : Z :=
  let emails1 := get_normalized_emails contact1 in
  let emails2 := get_normalized_emails contact2 in
  if existsb (λ e, bool_decide (e ∈ emails2)) emails1 then 50 else 0.

Definition phone_points (contact1 contact2 : VCardContact) : Z :=
  let phones1 := get_normalized_phones contact1 in
  let phones2 := get_normalized_phones contact2 in
  if existsb (λ p1, existsb (λ p2, (phones_match p1 p2).1.1) phones2) phones1
  then 40 else 0.

(** [sim > 0.8] and [int(sim * 30)]. *)
Definition partial_score (canonical1 canonical2 : str) : Z :=
  let sim := ratio canonical1 canonical2 in
  if Qlt_le_dec (8 # 10) sim then Qfloor (sim * 30) else 0.

Definition name_points (contact1 contact2 : VCardContact) : Z :=
  let '(first1, last1, canonical1) := get_parsed_name contact1 in
  let '(first2, last2, canonical2) := get_parsed_name contact2 in
  if Py.truthy canonical1 && Py.truthy canonical2
     && bool_decide (canonical1 = canonical2)
  then 50
  else
    let canonical_first1 := get_canonical_first_name first1 in
    let canonical_first2 := get_canonical_first_name first2 in
    if bool_decide (last1 = last2)
       && bool_decide (canonical_first1 = canonical_first2)
    then 45
    else if Py.truthy last1 && Py.truthy last2
            && bool_decide (soundex last1 = soundex last2)
    then
      if bool_decide (first1 = first2)
         || bool_decide (canonical_first1 = canonical_first2)
      then 35 else 0
    else
      if Py.truthy canonical1 && Py.truthy canonical2
      then partial_score canonical1 canonical2
      else 0.

Definition org_points (contact1 contact2 : VCardContact) : Z :=
  if Py.truthy (org contact1) && Py.truthy (org contact2) then
    let org1 := Py.strip (Py.lower (org contact1)) in
    let org2 := Py.strip (Py.lower (org contact2)) in
    if bool_decide (org1 = org2) then 10
    else if Qlt_le_dec (8 # 10) (ratio org1 org2) then 5
    else 0
  else 0.

(** The score component of the result of [calculate_match_confidence]
    (the list of explanatory strings is not modelled). *)
Definition calculate_match_confidence
    (contact1 contact2 : VCardContact) : Z :=
  let score := 0%Z in
  let score := (score + email_points contact1 contact2)%Z in
  let score := (score + phone_points contact1 contact2)%Z in
  let score := (score + name_points contact1 contact2)%Z in
  let score := (score + org_points contact1 contact2)%Z in
  score `min` 100.

(** Phase 3, the body of the loop over the candidate pairs. *)
Definition evaluate_pair (contacts : list VCardContact)
    (match_graph : Dict.dict nat (list (nat * Z))) (p : nat * nat)
    : res (Dict.dict nat (list (nat * Z))) :=
  let '(i, j) := p in
  contact1 ← index contacts i;
  contact2 ← index contacts j;
  let confidence := calculate_match_confidence contact1 contact2 in
  if (50 <=? confidence)%Z then
    let match_graph := bucket_append match_graph i (j, confidence) in
    Ret (bucket_append match_graph j (i, confidence))
  else Ret match_graph.

Fixpoint build_graph (contacts : list VCardContact)
    (pairs : list (nat * nat))
    (match_graph : Dict.dict nat (list (nat * Z)))
    : res (Dict.dict nat (list (nat * Z))) :=
  match pairs with
  | [] => Ret match_graph
  | p :: pairs' =>
      match_graph ← evaluate_pair contacts match_graph p;
      build_graph contacts pairs' match_graph
  end.

(** Phase 4, the loop over [start_idx]; the state is
    [(groups, processed)]. *)
Fixpoint extract_groups (total : nat)
    (match_graph : Dict.dict nat (list (nat * Z)))
    (starts : list nat) (groups : list group) (processed : list nat)
    : res (list group) :=
  match starts with
  | [] => Ret groups
  | start_idx :: starts' =>
      if bool_decide (start_idx ∈ processed)
         || bool_decide (Dict.get match_graph start_idx = None)
      then extract_groups total match_graph starts' groups processed
      else
        st ← bfs total match_graph
               {| queue_bfs := [start_idx]; visited := [start_idx];
                  group_indices := []; all_confidences := [] |};
        let processed := processed ++ group_indices st in
        if (1 <? length (group_indices st))%nat then
          let avg_confidence :=
            match all_confidences st with
            | [] => 50%Z
            | _ => (sum_Z (all_confidences st)
                    / Z.of_nat (length (all_confidences st)))%Z
            end in
          extract_groups total match_graph starts'
            (groups ++ [{| indices := group_indices st;
                           confidence := avg_confidence |}])
            processed
        else extract_groups total match_graph starts' groups processed
  end.

(** [find_similar_groups(contacts)] without a progress callback; the
    [threshold] argument is not read by the source.  Of each group the
    indices and the confidence are modelled. *)
Definition find_similar_groups (contacts : list VCardContact)
    : res (list group) :=
  let b := build_buckets contacts in
  let candidate_pairs := candidate_pairs_of b in
  match_graph ← build_graph contacts (set_order candidate_pairs) [];
  groups ← extract_groups (length contacts) match_graph
              (seq 0 (length contacts)) [] [];
  Ret (sort_groups groups).

End Engine.


(** ** Notions used to state the properties *)

(** Every enumeration order of a set lists the elements that were added. *)
Definition enumeration (set_order : list (nat * nat) → list (nat * nat))
    : Prop :=
  ∀ l, set_order l ≡ₚ l.

Definition has_alpha (s : str) : Prop := ∃ c, c ∈ s ∧ Py.is_alpha c = true.

(** The first alphabetic character of a string. *)
Definition first_alpha (s : str) : option ascii :=
  head (filter (λ c, Is_true (Py.is_alpha c)) s).

(** The text before the first occurrence of [sep]. *)
Fixpoint before (sep : ascii) (s : str) : str :=
  match s with
  | [] => []
  | c :: s' => if bool_decide (c = sep) then [] else c :: before sep s'
  end.

(** The provider's canonical domain of an alias domain. *)
Definition canonical_domain (domain : str) : str :=
  if bool_decide (domain = "googlemail.com") then "gmail.com" else domain.

(** A call fails fast: it raises instead of returning a value. *)
Definition fails_fast {A : Type} (r : res A) : Prop := ∃ e, r = Raise e.

(** The number of whitespace-delimited words of a display name. *)
Definition word_count (s : str) : nat := length (Py.split s).

(** [a] is at most [b] in the order "more words, then more characters". *)
Definition name_le (a b : str) : Prop :=
  (word_count a < word_count b)%nat
  ∨ (word_count a = word_count b ∧ (length a <= length b)%nat).

Ltac by_cases_on_char c :=
  destruct c as [[] [] [] [] [] [] [] []]; vm_compute; try reflexivity;
  try discriminate; try tauto; try (intros; congruence).

Definition all_digits (s : str) : Prop :=
  Forall (λ c, Py.is_digit c = true) s.

(** [x ∉ l] for a closed list [l]. *)
Ltac not_in_closed_list :=
  let H := fresh in
  intros H;
  repeat (apply elem_of_cons in H as [H|H]; [discriminate H|]);
  by apply elem_of_nil in H.

(** The name rule as the specification words it: the first applicable of
    four rules, the similarity rule being the fall-through of the other
    three. *)
Definition claimed_name_points (ratio : str → str → Q)
    (contact1 contact2 : VCardContact) : Z :=
  let '(first1, last1, canonical1) := get_parsed_name contact1 in
  let '(first2, last2, canonical2) := get_parsed_name contact2 in
  let canonical_first1 := get_canonical_first_name first1 in
  let canonical_first2 := get_canonical_first_name first2 in
  let sim := ratio canonical1 canonical2 in
  if Py.truthy canonical1 && bool_decide (canonical1 = canonical2) then 50
  else if bool_decide (last1 = last2)
          && bool_decide (canonical_first1 = canonical_first2)
  then 45
  else if bool_decide (soundex last1 = soundex last2)
          && (bool_decide (first1 = first2)
              || bool_decide (canonical_first1 = canonical_first2))
  then 35
  else if Qlt_le_dec (8 # 10) sim then Qfloor (sim * 30)
  else 0.

(** A contact with a display name, e-mail addresses, phone numbers and an
    organisation, every other field empty. *)
Definition contact_of (name : str) (es ps : list str) (o : str)
    : VCardContact :=
  {| fn := name; n_parts := []; emails := es; phones := ps; addresses := [];
     notes := []; org := o; title := ""; birthday := ""; url := "";
     raw_vcard := ""; source_file := "" |}.

(** The invariant of the loop of [merge_contacts] that selects the display
    name: the name kept so far is one of the names seen (or still the
    initial empty string) and no name seen is above it. *)
Definition best_so_far (best : str) (seen : list VCardContact) : Prop :=
  (best = "" ∨ best ∈ map fn seen) ∧ ∀ c, c ∈ seen → name_le (fn c) best.

(** Strings of word characters, and what may follow a word. *)
Definition word_chars (s : str) : Prop := Forall (λ c, Py.is_word c = true) s.
Definition no_space (s : str) : Prop := Forall (λ c, Py.is_space c = false) s.
Definition lower_letters (s : str) : Prop :=
  Forall (λ c, Py.is_lower c = true) s.
Definition word_end (t : str) : Prop :=
  match t with
  | [] => True
  | c :: _ => Py.is_word c = false
  end.

(** The character before the position that follows [pre], when the
    character before [pre] is [prev]. *)
Definition last_or (prev : option ascii) (pre : str) : option ascii :=
  match last pre with
  | Some c => Some c
  | None => prev
  end.

(** ** The match graph *)

(** [match_graph.get(u, [])] *)
Definition adj (G : Dict.dict nat (list (nat * Z))) (u : nat)
    : list (nat * Z) :=
  Dict.get_default G u [].

Definition edge (G : Dict.dict nat (list (nat * Z))) (u v : nat) : Prop :=
  ∃ c, (v, c) ∈ adj G u.

(** The graphs that phase 3 builds over [n] contacts: the neighbours are
    indices of contacts, an edge is recorded at both ends with the same
    confidence, which is between 50 and 100, and a key has a neighbour. *)
Definition graph_ok (n : nat) (G : Dict.dict nat (list (nat * Z))) : Prop :=
  (∀ u v c, (v, c) ∈ adj G u →
     (u < n)%nat ∧ (v < n)%nat ∧ (50 <= c <= 100)%Z ∧ (u, c) ∈ adj G v)
  ∧ (∀ u, Dict.get G u = Some [] → False).

(** The invariant of the breadth-first loop started at [start]; [closed]
    are the indices whose neighbours have all been visited. *)
Definition bfs_inv (n : nat) (G : Dict.dict nat (list (nat * Z)))
    (start : nat) (closed : list nat) (st : bfs_state) : Prop :=
  visited st = group_indices st ++ queue_bfs st
  ∧ NoDup (visited st)
  ∧ start ∈ visited st
  ∧ (∀ v, v ∈ visited st → (v < n)%nat ∧ rtc (edge G) start v)
  ∧ (∀ u v, u ∈ closed → edge G u v → v ∈ visited st)
  ∧ S (length (all_confidences st)) = length (visited st)
  ∧ Forall (λ c, (50 <= c <= 100)%Z) (all_confidences st).

(** A group is one connected component of the graph. *)
Definition component (G : Dict.dict nat (list (nat * Z))) (l : list nat)
    : Prop :=
  ∃ s, ∀ v, v ∈ l ↔ rtc (edge G) s v.

(** The invariant of the loop over [start_idx]. *)
Definition extract_inv (G : Dict.dict nat (list (nat * Z)))
    (groups : list group) (processed : list nat) : Prop :=
  (∀ u v, u ∈ processed → edge G u v → v ∈ processed)
  ∧ (∀ g, g ∈ groups →
       (∀ i, i ∈ indices g → i ∈ processed)
       ∧ (2 <= length (indices g))%nat
       ∧ NoDup (indices g)
       ∧ (50 <= confidence g <= 100)%Z
       ∧ component G (indices g))
  ∧ NoDup groups
  ∧ (∀ g1 g2 i, g1 ∈ groups → g2 ∈ groups →
       i ∈ indices g1 → i ∈ indices g2 → g1 = g2)
  ∧ (∀ u, u ∈ processed →
       (∃ g, g ∈ groups ∧ u ∈ indices g) ∨ (∀ v, edge G u v → v = u)).

(** ** The buckets, dictionary by dictionary *)

Inductive bucket_kind : Type :=
| EmailBucket | PhoneBucket | CanonicalBucket | NicknameBucket
| SoundexBucket | LastNameBucket.

Definition bucket_of (T : bucket_kind) (b : buckets)
    : Dict.dict str (list nat) :=
  match T with
  | EmailBucket => email_buckets b
  | PhoneBucket => phone_buckets b
  | CanonicalBucket => canonical_name_buckets b
  | NicknameBucket => nickname_buckets b
  | SoundexBucket => soundex_buckets b
  | LastNameBucket => name_buckets b
  end.

(** The upper bound on the size of the buckets that phase 2 expands. *)
Definition bucket_cap (T : bucket_kind) : option nat :=
  match T with
  | EmailBucket | PhoneBucket => None
  | CanonicalBucket | NicknameBucket | LastNameBucket => Some 100%nat
  | SoundexBucket => Some 50%nat
  end.

(** The keys under which phase 1 files one contact in a dictionary, in the
    order of the appends. *)
Definition phone_keys (phone : str) : list str :=
  (if (7 <=? length phone)%nat then [Py.last_n 7 phone] else [])
  ++ (if (10 <=? length phone)%nat then [Py.last_n 10 phone] else []).

Definition bucket_keys (T : bucket_kind) (c : VCardContact) : list str :=
  let '(first, last, _) := get_parsed_name c in
  match T with
  | EmailBucket =>
      filter (λ e, Is_true (Py.truthy e)) (get_normalized_emails c)
  | PhoneBucket => flat_map phone_keys (get_normalized_phones c)
  | CanonicalBucket =>
      if Py.truthy first && Py.truthy last
      then [first ++ "_" ++ last] else []
  | NicknameBucket =>
      if Py.truthy first && Py.truthy last
      then [get_canonical_first_name first ++ "_" ++ last] else []
  | SoundexBucket =>
      (if Py.truthy last && Py.truthy (soundex last)
       then [soundex last] else [])
      ++ (if Py.truthy first && Py.truthy last
             && (Py.truthy (soundex first) && Py.truthy (soundex last))
          then [soundex first ++ "_" ++ soundex last] else [])
  | LastNameBucket => if Py.truthy last then [Py.lower last] else []
  end.

(** One dictionary filled by the loop over the enumerated contacts. *)
Definition fill (keys : VCardContact → list str)
    (ics : list (nat * VCardContact)) (d : Dict.dict str (list nat))
    : Dict.dict str (list nat) :=
  fold_left
    (λ d ic, fold_left (λ d k, bucket_append d k ic.1) (keys ic.2) d)
    ics d.

(** The indices filed under [k]: each contact once for every occurrence of
    [k] among its keys. *)
Definition filed (keys : VCardContact → list str) (k : str)
    (ics : list (nat * VCardContact)) : list nat :=
  flat_map
    (λ ic, replicate (length (filter (λ x, x = k) (keys ic.2))) ic.1) ics.

(** How many times [k] occurs among the keys of all the contacts. *)
Definition key_total (keys : VCardContact → list str) (k : str)
    (cs : list VCardContact) : nat :=
  length (filter (λ x, x = k) (flat_map keys cs)).

Definition size_ok (cap : option nat) (len : nat) : Prop :=
  (1 < len)%nat ∧ match cap with Some m => (len <= m)%nat | None => True end.

(** Two contacts share a bucket that phase 2 expands. *)
Definition linked (cs : list VCardContact) (c1 c2 : VCardContact) : Prop :=
  ∃ T k, k ∈ bucket_keys T c1 ∧ k ∈ bucket_keys T c2
         ∧ size_ok (bucket_cap T) (key_total (bucket_keys T) k cs).

(** A dictionary as the loops build it: no key twice, no empty bucket. *)
Definition dict_ok {K V : Type} `{EqDecision K}
    (d : Dict.dict K (list V)) : Prop :=
  NoDup (Dict.keys d) ∧ ∀ k, Dict.get d k ≠ Some [].

(** [d.get(k, [])] for a bucket dictionary. *)
Definition bucket {K V : Type} `{EqDecision K}
    (d : Dict.dict K (list V)) (k : K) : list V :=
  Dict.get_default d k [].

(** The edge that phase 3 records for a candidate pair. *)
Definition pair_edge (ratio : str → str → Q) (cs : list VCardContact)
    (ps : list (nat * nat)) (u v : nat) (c : Z) : Prop :=
  ∃ i j ci cj,
    (i, j) ∈ ps ∧ cs !! i = Some ci ∧ cs !! j = Some cj
    ∧ c = calculate_match_confidence ratio ci cj ∧ (50 <= c)%Z
    ∧ ((u = i ∧ v = j) ∨ (u = j ∧ v = i)).

(** ** Groups as sets of contact records *)

(** The contact records of a group. *)
Definition records (cs : list VCardContact) (g : group) : list VCardContact :=
  omap (λ i, cs !! i) (indices g).

Definition same_elements {A : Type} (l1 l2 : list A) : Prop :=
  ∀ x, x ∈ l1 ↔ x ∈ l2.

(** Every group of the first run has the records of a group of the second
    run. *)
Definition groups_included (cs : list VCardContact) (gs : list group)
    (cs' : list VCardContact) (gs' : list group) : Prop :=
  ∀ g, g ∈ gs → ∃ g', g' ∈ gs' ∧ same_elements (records cs g) (records cs' g').

Definition same_groups (cs : list VCardContact) (gs : list group)
    (cs' : list VCardContact) (gs' : list group) : Prop :=
  groups_included cs gs cs' gs' ∧ groups_included cs' gs' cs gs.

(** The score of two contacts of the list reaches the floor of 50 in one
    order of the arguments exactly when it does in the other. *)
Definition verdict_symmetric (ratio : str → str → Q)
    (cs : list VCardContact) : Prop :=
  ∀ c1 c2, c1 ∈ cs → c2 ∈ cs →
    (50 <= calculate_match_confidence ratio c1 c2)%Z →
    (50 <= calculate_match_confidence ratio c2 c1)%Z.

(** Two contact records that phase 3 joins by an edge. *)
Definition matched (ratio : str → str → Q) (cs : list VCardContact)
    (c1 c2 : VCardContact) : Prop :=
  linked cs c1 c2 ∧ (50 <= calculate_match_confidence ratio c1 c2)%Z.

(** What a run of [find_similar_groups] over [cs] establishes about its
    graph [G] and its groups [gs] (before they are sorted). *)
Definition clustered (ratio : str → str → Q) (cs : list VCardContact)
    (G : Dict.dict nat (list (nat * Z))) (gs : list group) : Prop :=
  graph_ok (length cs) G
  ∧ (∀ u v c,
       (v, c) ∈ adj G u ↔
       pair_edge ratio cs (candidate_pairs_of (build_buckets cs)) u v c)
  ∧ (∃ processed, extract_inv G gs processed)
  ∧ (∀ u v, edge G u v → u ≠ v → ∃ g, g ∈ gs ∧ u ∈ indices g).

(** ** Termination of the work-list loop of [get_matching_blocks] *)

(** A window lies inside the two sequences. *)
Definition window_ok (a b : str) (w : nat * nat * nat * nat) : Prop :=
  let '(alo, ahi, blo, bhi) := w in
  (alo <= ahi <= length a)%nat ∧ (blo <= bhi <= length b)%nat.

(** A block lies inside a window. *)
Definition best_within (alo ahi blo bhi : nat) (x : Difflib.best) : Prop :=
  (alo <= Difflib.besti x)%nat
  ∧ (Difflib.besti x + Difflib.bestsize x <= ahi)%nat
  ∧ (blo <= Difflib.bestj x)%nat
  ∧ (Difflib.bestj x + Difflib.bestsize x <= bhi)%nat.

(** The lengths recorded in [j2len] for the rows before row [i]. *)
Definition row_ok (alo blo i : nat) (j2len : Dict.dict nat nat) : Prop :=
  ∀ j k, Dict.get j2len j = Some k → (k <= S j - blo)%nat ∧ (k <= i - alo)%nat.

(** The iterations a window can still cost. *)
Definition window_cost (w : nat * nat * nat * nat) : nat :=
  let '(alo, ahi, _, _) := w in 2 * (ahi - alo) + 1.

Definition queue_cost (queue : list (nat * nat * nat * nat)) : nat :=
  foldr (λ w acc, window_cost w + acc)%nat 0%nat queue.

(** ** vCard text

    [VCardContact.parse_vcard] and [VCardContact._process_line] mutate the
    contact they are called on; the embedding passes the contact through. *)

Definition set_fn (v : str) (c : VCardContact) : VCardContact :=
  {| fn := v; n_parts := n_parts c; emails := emails c; phones := phones c;
     addresses := addresses c; notes := notes c; org := org c;
     title := title c; birthday := birthday c; url := url c;
     raw_vcard := raw_vcard c; source_file := source_file c |}.

Definition set_n_parts (v : list str) (c : VCardContact) : VCardContact :=
  {| fn := fn c; n_parts := v; emails := emails c; phones := phones c;
     addresses := addresses c; notes := notes c; org := org c;
     title := title c; birthday := birthday c; url := url c;
     raw_vcard := raw_vcard c; source_file := source_file c |}.

Definition set_emails (v : list str) (c : VCardContact) : VCardContact :=
  {| fn := fn c; n_parts := n_parts c; emails := v; phones := phones c;
     addresses := addresses c; notes := notes c; org := org c;
     title := title c; birthday := birthday c; url := url c;
     raw_vcard := raw_vcard c; source_file := source_file c |}.

Definition set_phones (v : list str) (c : VCardContact) : VCardContact :=
  {| fn := fn c; n_parts := n_parts c; emails := emails c; phones := v;
     addresses := addresses c; notes := notes c; org := org c;
     title := title c; birthday := birthday c; url := url c;
     raw_vcard := raw_vcard c; source_file := source_file c |}.

Definition set_addresses (v : list str) (c : VCardContact) : VCardContact :=
  {| fn := fn c; n_parts := n_parts c; emails := emails c; phones := phones c;
     addresses := v; notes := notes c; org := org c;
     title := title c; birthday := birthday c; url := url c;
     raw_vcard := raw_vcard c; source_file := source_file c |}.

Definition set_notes (v : list str) (c : VCardContact) : VCardContact :=
  {| fn := fn c; n_parts := n_parts c; emails := emails c; phones := phones c;
     addresses := addresses c; notes := v; org := org c;
     title := title c; birthday := birthday c; url := url c;
     raw_vcard := raw_vcard c; source_file := source_file c |}.

Definition set_org (v : str) (c : VCardContact) : VCardContact :=
  {| fn := fn c; n_parts := n_parts c; emails := emails c; phones := phones c;
     addresses := addresses c; notes := notes c; org := v;
     title := title c; birthday := birthday c; url := url c;
     raw_vcard := raw_vcard c; source_file := source_file c |}.

Definition set_title (v : str) (c : VCardContact) : VCardContact :=
  {| fn := fn c; n_parts := n_parts c; emails := emails c; phones := phones c;
     addresses := addresses c; notes := notes c; org := org c;
     title := v; birthday := birthday c; url := url c;
     raw_vcard := raw_vcard c; source_file := source_file c |}.

Definition set_birthday (v : str) (c : VCardContact) : VCardContact :=
  {| fn := fn c; n_parts := n_parts c; emails := emails c; phones := phones c;
     addresses := addresses c; notes := notes c; org := org c;
     title := title c; birthday := v; url := url c;
     raw_vcard := raw_vcard c; source_file := source_file c |}.

Definition set_url (v : str) (c : VCardContact) : VCardContact :=
  {| fn := fn c; n_parts := n_parts c; emails := emails c; phones := phones c;
     addresses := addresses c; notes := notes c; org := org c;
     title := title c; birthday := birthday c; url := v;
     raw_vcard := raw_vcard c; source_file := source_file c |}.

Definition set_raw_vcard (v : str) (c : VCardContact) : VCardContact :=
  {| fn := fn c; n_parts := n_parts c; emails := emails c; phones := phones c;
     addresses := addresses c; notes := notes c; org := org c;
     title := title c; birthday := birthday c; url := url c;
     raw_vcard := v; source_file := source_file c |}.

Definition set_source_file (v : str) (c : VCardContact) : VCardContact :=
  {| fn := fn c; n_parts := n_parts c; emails := emails c; phones := phones c;
     addresses := addresses c; notes := notes c; org := org c;
     title := title c; birthday := birthday c; url := url c;
     raw_vcard := raw_vcard c; source_file := v |}.

(** The line feed and the characters that [parse_vcard_file] strips from
    the end of a line. *)
Definition LF : ascii := "010"%char.
Definition CR : ascii := "013"%char.
Definition TAB : ascii := "009"%char.

(** [if value not in l: l.append(value)] *)
Definition append_new (value : str) (l : list str) : list str :=
  if bool_decide (value ∉ l) then l ++ [value] else l.

Definition _process_line (self : VCardContact) (line : str) : VCardContact :=
  if negb (Py.contains ":" line) then self
  else
    match Py.split1 ":" line with
    | [field; value] =>
        let field := Py.upper field in
        let value := Py.strip value in
        if negb (Py.truthy value) then self
        else if Py.startswith "FN" field then set_fn value self
        else if Py.startswith "N" field && negb (Py.startswith "NOTE" field)
        then set_n_parts (Py.split_on ";" value) self
        else if Py.startswith "EMAIL" field then
          if bool_decide (Py.lower value ∉ map Py.lower (emails self))
          then set_emails (emails self ++ [value]) self else self
        else if Py.startswith "TEL" field
        then set_phones (append_new value (phones self)) self
        else if Py.startswith "ADR" field
        then set_addresses (append_new value (addresses self)) self
        else if Py.startswith "NOTE" field
        then set_notes (append_new value (notes self)) self
        else if Py.startswith "ORG" field then set_org value self
        else if Py.startswith "TITLE" field then set_title value self
        else if Py.startswith "BDAY" field then set_birthday value self
        else if Py.startswith "URL" field then set_url value self
        else self
    | _ => self
    end.

(** The loop of [parse_vcard] over the lines; the state is the contact and
    [current_line]. *)
Definition unfold_step (st : VCardContact * str) (line : str)
    : VCardContact * str :=
  let '(self, current_line) := st in
  if Py.startswith " " line || Py.startswith [TAB] line
  then (self, current_line ++ drop 1 line)
  else
    (if Py.truthy current_line then _process_line self current_line else self,
     line).

Definition parse_vcard (self : VCardContact) (vcard_text : str)
    : VCardContact :=
  let self := set_raw_vcard vcard_text self in
  let lines := Py.split_on LF vcard_text in
  let '(self, current_line) := fold_left unfold_step lines (self, "") in
  if Py.truthy current_line then _process_line self current_line else self.

Definition to_vcard (self : VCardContact) : str :=
  let lines := ["BEGIN:VCARD"; "VERSION:3.0"] in
  let lines :=
    if Py.truthy (fn self) then lines ++ ["FN:" ++ fn self] else lines in
  let lines :=
    match n_parts self with
    | [] => lines
    | _ => lines ++ ["N:" ++ Py.join ";" (n_parts self)]
    end in
  let lines := lines ++ map (λ email, "EMAIL:" ++ email) (emails self) in
  let lines := lines ++ map (λ phone, "TEL:" ++ phone) (phones self) in
  let lines := lines ++ map (λ addr, "ADR:" ++ addr) (addresses self) in
  let lines :=
    if Py.truthy (org self) then lines ++ ["ORG:" ++ org self] else lines in
  let lines :=
    if Py.truthy (title self) then lines ++ ["TITLE:" ++ title self]
    else lines in
  let lines :=
    if Py.truthy (birthday self) then lines ++ ["BDAY:" ++ birthday self]
    else lines in
  let lines :=
    if Py.truthy (url self) then lines ++ ["URL:" ++ url self] else lines in
  let lines := lines ++ map (λ note, "NOTE:" ++ note) (notes self) in
  let lines := lines ++ ["END:VCARD"] in
  Py.join [LF] lines.

Definition get_display_name (self : VCardContact) : str :=
  if Py.truthy (fn self) then normalize_display_name (fn self)
  else "Unnamed Contact".

(** ** vCard files

    [parse_vcard_file] reads a text file line by line.  The embedding takes
    the lines that the file iterator yields (each with its line end) and
    the [source_name] that both call sites pass; opening and decoding the
    file are outside of it. *)

(** [line.lstrip(chars)] and [line.rstrip(chars)] *)
Fixpoint lstrip_chars (chars : str) (line : str) : str :=
  match line with
  | c :: line' =>
      if bool_decide (c ∈ chars) then lstrip_chars chars line' else line
  | [] => []
  end.

Definition rstrip_chars (chars : str) (line : str) : str :=
  reverse (lstrip_chars chars (reverse line)).

Record reader : Type := {
  contacts_read : list VCardContact;
  current_vcard : list str;
  in_vcard : bool
}.

Definition read_line (source_name : str) (st : reader) (line : str)
    : reader :=
  let line := rstrip_chars [LF; CR] line in
  if Py.startswith "BEGIN:VCARD" (Py.upper line) then
    {| contacts_read := contacts_read st; current_vcard := [line];
       in_vcard := true |}
  else if Py.startswith "END:VCARD" (Py.upper line) then
    if in_vcard st then
      let current_vcard := current_vcard st ++ [line] in
      let vcard_text := Py.join [LF] current_vcard in
      let contact := parse_vcard empty_contact vcard_text in
      let contact := set_source_file source_name contact in
      {| contacts_read :=
           if Py.truthy (fn contact)
              || match emails contact with [] => false | _ => true end
              || match phones contact with [] => false | _ => true end
           then contacts_read st ++ [contact] else contacts_read st;
         current_vcard := [];
         in_vcard := false |}
    else st
  else if in_vcard st then
    {| contacts_read := contacts_read st;
       current_vcard := current_vcard st ++ [line];
       in_vcard := in_vcard st |}
  else st.

Definition parse_vcard_file (file : list str) (source_name : str)
    : list VCardContact :=
  contacts_read
    (fold_left (read_line source_name) file
       {| contacts_read := []; current_vcard := []; in_vcard := false |}).

(** The text that the loop of [MergerApp.export_contacts] writes. *)
Definition exported_text (all_contacts : list VCardContact) : str :=
  flat_map (λ contact, to_vcard contact ++ [LF; LF]) all_contacts.

(** ** Contacts that survive an export

    A value is [clean] when it holds no line feed and [strip] leaves it
    unchanged; an [entry] of a list-valued field is clean and not empty. *)
Definition clean (v : str) : Prop := (LF ∉ v) ∧ Py.strip v = v.

Definition entry (v : str) : Prop := clean v ∧ v ≠ "".

Definition exportable (c : VCardContact) : Prop :=
  clean (fn c) ∧ clean (org c) ∧ clean (title c) ∧ clean (birthday c)
  ∧ clean (url c)
  ∧ (n_parts c ≠ [] →
     entry (Py.join ";" (n_parts c))
     ∧ Forall (λ p, ";"%char ∉ p) (n_parts c))
  ∧ Forall entry (emails c) ∧ NoDup (map Py.lower (emails c))
  ∧ Forall entry (phones c) ∧ NoDup (phones c)
  ∧ Forall entry (addresses c) ∧ NoDup (addresses c)
  ∧ Forall entry (notes c) ∧ NoDup (notes c).

(** A line that is not empty and not a continuation line. *)
Definition plain (line : str) : Prop :=
  Py.truthy line = true
  ∧ (Py.startswith " " line || Py.startswith [TAB] line) = false.

(** What [parse_vcard_file] makes of an exported contact. *)
Definition reimported (source_name : str) (c : VCardContact) : VCardContact :=
  set_source_file source_name (set_raw_vcard (to_vcard c) c).

(** Reading a text file translates the line ends carriage return + line
    feed and carriage return into a line feed; [after_cr] tells that the
    character before was a carriage return. *)
Fixpoint translate_newlines (after_cr : bool) (text : str) : str :=
  match text with
  | [] => []
  | c :: text' =>
      if bool_decide (c = CR) then LF :: translate_newlines true text'
      else if bool_decide (c = LF) then
        if after_cr then translate_newlines false text'
        else LF :: translate_newlines false text'
      else c :: translate_newlines false text'
  end.

(** The lines of a translated text, each with its line feed. *)
Fixpoint lines_from (current : str) (text : str) : list str :=
  match text with
  | [] => match current with [] => [] | _ => [current] end
  | c :: text' =>
      if bool_decide (c = LF) then (current ++ [c]) :: lines_from [] text'
      else lines_from (current ++ [c]) text'
  end.

(** The lines that iterating over a text file yields. *)
Definition file_lines (text : str) : list str :=
  lines_from [] (translate_newlines false text).

(** The lines of [to_vcard], field by field. *)
Definition optional_line (name value : str) : list str :=
  if Py.truthy value then [name ++ value] else [].

Definition vcard_lines (c : VCardContact) : list str :=
  ["BEGIN:VCARD"; "VERSION:3.0"]
  ++ optional_line "FN:" (fn c)
  ++ match n_parts c with
     | [] => []
     | _ => ["N:" ++ Py.join ";" (n_parts c)]
     end
  ++ map (λ email, "EMAIL:" ++ email) (emails c)
  ++ map (λ phone, "TEL:" ++ phone) (phones c)
  ++ map (λ addr, "ADR:" ++ addr) (addresses c)
  ++ optional_line "ORG:" (org c)
  ++ optional_line "TITLE:" (title c)
  ++ optional_line "BDAY:" (birthday c)
  ++ optional_line "URL:" (url c)
  ++ map (λ note, "NOTE:" ++ note) (notes c)
  ++ ["END:VCARD"].

(** [contact.fn or contact.emails or contact.phones], the contacts that
    [parse_vcard_file] keeps. *)
Definition identified (c : VCardContact) : bool :=
  Py.truthy (fn c)
  || match emails c with [] => false | _ => true end
  || match phones c with [] => false | _ => true end.

(** A line between the first and the last line of a card, as
    [parse_vcard_file] sees it. *)
Definition body_line (l : str) : Prop :=
  rstrip_chars [LF; CR] (l ++ [LF]) = l
  ∧ Py.startswith "BEGIN:VCARD" (Py.upper l) = false
  ∧ Py.startswith "END:VCARD" (Py.upper l) = false.

(** What holds of every contact that [parse_vcard_file] returns. *)
Definition imported (name : str) (c : VCardContact) : Prop :=
  source_file c = name ∧ identified c = true ∧ exportable c.

(** No value of the contact holds a carriage return. *)
Definition cr_free (c : VCardContact) : Prop :=
  (CR ∉ fn c) ∧ (CR ∉ org c) ∧ (CR ∉ title c) ∧ (CR ∉ birthday c)
  ∧ (CR ∉ url c)
  ∧ Forall (λ v, CR ∉ v) (n_parts c)
  ∧ Forall (λ v, CR ∉ v) (emails c)
  ∧ Forall (λ v, CR ∉ v) (phones c)
  ∧ Forall (λ v, CR ∉ v) (addresses c)
  ∧ Forall (λ v, CR ∉ v) (notes c).

(** ** What a merge keeps

    The four list fields of the merged contact are filled by the same loop:
    a value is appended unless its key is already the key of a value kept
    (and, for phones, unless its key is empty). *)
Definition add_keyed (key : str → str) (ok : str → bool)
    (merged : list str) (x : str) : list str :=
  if ok x && bool_decide (key x ∉ map key merged) then merged ++ [x]
  else merged.

(** The first value that is not empty, or the empty string. *)
Fixpoint first_truthy (vs : list str) : str :=
  match vs with
  | [] => ""
  | v :: vs' => if Py.truthy v then v else first_truthy vs'
  end.

(** Strings in strictly ascending order, as [sorted] leaves the elements of
    a set. *)
Definition str_lt (a b : str) : Prop := str_leb a b = true ∧ a ≠ b.

Fixpoint ascending (l : list str) : Prop :=
  match l with
  | [] => True
  | x :: l' => Forall (str_lt x) l' ∧ ascending l'
  end.

(** ** Display names *)

(** No word equals, up to case, the word before it; [prev] is the word
    before the first one. *)
Fixpoint no_repeats (prev : option str) (words : list str) : Prop :=
  match words with
  | [] => True
  | w :: words' =>
      match prev with
      | Some p => Py.lower w ≠ Py.lower p
      | None => True
      end
      ∧ no_repeats (Some w) words'
  end.

(** A word: not empty and free of whitespace. *)
Definition is_a_word (w : str) : Prop := w ≠ [] ∧ no_space w.

(** ** Groups in the order of the result *)

(** No group has a higher confidence than a group before it. *)
Fixpoint descending (gs : list group) : Prop :=
  match gs with
  | [] => True
  | g :: gs' =>
      Forall (λ h, (confidence h <= confidence g)%Z) gs' ∧ descending gs'
  end.

(** ** The review batches of the application

    [MergerApp._handle_groups_found] files the position of every group in
    the first confidence batch whose range holds the confidence of the
    group.  Of the method the loops over the groups and the batches are
    embedded; the widgets it updates are outside of the embedding. *)

Record batch : Type := {
  batch_name : str;
  batch_min : Z;
  batch_max : Z;
  batch_groups : list nat
}.

Definition confidence_batches : list batch :=
  [ {| batch_name := "95-100%"; batch_min := 95; batch_max := 100;
       batch_groups := [] |};
    {| batch_name := "90-94%"; batch_min := 90; batch_max := 94;
       batch_groups := [] |};
    {| batch_name := "85-89%"; batch_min := 85; batch_max := 89;
       batch_groups := [] |};
    {| batch_name := "80-84%"; batch_min := 80; batch_max := 84;
       batch_groups := [] |};
    {| batch_name := "75-79%"; batch_min := 75; batch_max := 79;
       batch_groups := [] |};
    {| batch_name := "70-74%"; batch_min := 70; batch_max := 74;
       batch_groups := [] |};
    {| batch_name := "50-69%"; batch_min := 50; batch_max := 69;
       batch_groups := [] |} ]%Z.

(** The inner loop: append [i] to the first batch that holds [conf]. *)
Fixpoint file_group (i : nat) (conf : Z) (batches : list batch)
    : list batch :=
  match batches with
  | [] => []
  | b :: batches' =>
      if (batch_min b <=? conf)%Z && (conf <=? batch_max b)%Z then
        {| batch_name := batch_name b; batch_min := batch_min b;
           batch_max := batch_max b;
           batch_groups := batch_groups b ++ [i] |} :: batches'
      else b :: file_group i conf batches'
  end.

Definition _handle_groups_found (groups : list group) : list batch :=
  fold_left (λ batches ig, file_group ig.1 (confidence ig.2) batches)
    (enumerate groups) confidence_batches.

(** ** The contacts of an export

    The selection of [MergerApp.export_contacts]: the merged contacts, the
    contacts that are in no group, and the contacts of the groups that were
    not merged.  [merged_group_indices] is a set, read by membership only. *)

Fixpoint contacts_at (contacts : list VCardContact) (idxs : list nat)
    : res (list VCardContact) :=
  match idxs with
  | [] => Ret []
  | idx :: idxs' =>
      c ← index contacts idx;
      cs ← contacts_at contacts idxs';
      Ret (c :: cs)
  end.

Fixpoint skipped_contacts (contacts : list VCardContact)
    (groups : list group) (merged_group_indices : list nat)
    (group_idxs : list nat) : res (list VCardContact) :=
  match group_idxs with
  | [] => Ret []
  | group_idx :: group_idxs' =>
      if bool_decide (group_idx ∉ merged_group_indices) then
        group ← index groups group_idx;
        cs ← contacts_at contacts (indices group);
        rest ← skipped_contacts contacts groups merged_group_indices
                 group_idxs';
        Ret (cs ++ rest)
      else
        skipped_contacts contacts groups merged_group_indices group_idxs'
  end.

Definition export_contacts (contacts : list VCardContact)
    (groups : list group) (merged_group_indices : list nat)
    (merged_contacts : list VCardContact) : res (list VCardContact) :=
  let grouped_indices := flat_map indices groups in
  let unique_contacts :=
    (filter (λ ic, ic.1 ∉ grouped_indices) (enumerate contacts)).*2 in
  skipped ← skipped_contacts contacts groups merged_group_indices
              (seq 0 (length groups));
  Ret (merged_contacts ++ unique_contacts ++ skipped).

(** The members of the groups that were merged, and the positions of the
    contacts that are in none of them. *)
Definition merged_members (groups : list group)
    (merged_group_indices : list nat) : list nat :=
  flat_map
    (λ kg, if bool_decide (kg.1 ∈ merged_group_indices) then indices kg.2
           else [])
    (enumerate groups).

Definition unmerged_positions (n : nat) (groups : list group)
    (merged_group_indices : list nat) : list nat :=
  filter (λ i, i ∉ merged_members groups merged_group_indices) (seq 0 n).

(** The range of a batch holds a confidence. *)
Definition holds (conf : Z) (b : batch) : Prop :=
  (batch_min b <= conf <= batch_max b)%Z.

Definition ranges (batches : list batch) : list (Z * Z) :=
  map (λ b, (batch_min b, batch_max b)) batches.

(** The positions behind the contacts of the groups that were not merged,
    group by group. *)
Definition skipped_positions (groups : list group)
    (merged_group_indices : list nat) (group_idxs : list nat) : list nat :=
  flat_map
    (λ k, match groups !! k with
          | Some g =>
              if bool_decide (k ∉ merged_group_indices) then indices g
              else []
          | None => []
          end) group_idxs.
(** * Properties *)

(** ** Characters *)

Lemma is_alpha_upper_char c : Py.is_alpha (Py.upper_char c) = Py.is_alpha c.
Proof. by_cases_on_char c. Qed.

Lemma is_upper_upper_char c :
  Py.is_alpha c = true → Py.is_upper (Py.upper_char c) = true.
Proof. by_cases_on_char c. Qed.

Lemma lower_char_idemp c : Py.lower_char (Py.lower_char c) = Py.lower_char c.
Proof. by_cases_on_char c. Qed.

Lemma lower_idemp s : Py.lower (Py.lower s) = Py.lower s.
Proof.
  unfold Py.lower. rewrite <- list_fmap_compose. apply list_fmap_ext.
  intros _ c _. apply lower_char_idemp.
Qed.

Lemma truthy_lower s : Py.truthy (Py.lower s) = Py.truthy s.
Proof. by destruct s. Qed.

Lemma is_digit_soundex_mapping c d :
  soundex_mapping c = Some d → Py.is_digit d = true.
Proof.
  unfold soundex_mapping.
  repeat case_bool_decide; intros [= <-]; reflexivity.
Qed.

(** ** Soundex *)

Section Soundex.

Lemma soundex_step_digits coded prev c coded' prev' :
  soundex_step (coded, prev) c = (coded', prev') →
  ∃ ds, coded' = coded ++ ds ∧ Forall (λ d, Py.is_digit d = true) ds.
Proof.
  unfold soundex_step. destruct (soundex_mapping c) as [d|] eqn:Hd.
  - apply is_digit_soundex_mapping in Hd.
    repeat case_match; intros [= <- <-];
      first [ by exists [d]; split; [|repeat constructor]
            | by exists []; rewrite app_nil_r ].
  - intros [= <- <-]. exists []. by rewrite app_nil_r.
Qed.

Lemma soundex_loop_digits rest coded prev coded' prev' :
  fold_left soundex_step rest (coded, prev) = (coded', prev') →
  ∃ ds, coded' = coded ++ ds ∧ Forall (λ d, Py.is_digit d = true) ds.
Proof.
  revert coded prev.
  induction rest as [|c rest IH]; intros coded prev; cbn [fold_left].
  - intros [= <- <-]. exists []. by rewrite app_nil_r.
  - destruct (soundex_step (coded, prev) c) as [coded1 prev1] eqn:Hstep.
    intros Hfold. apply soundex_step_digits in Hstep as (ds1 & -> & Hds1).
    apply IH in Hfold as (ds2 & -> & Hds2).
    exists (ds1 ++ ds2). rewrite app_assoc. split; [done|].
    by apply Forall_app.
Qed.

Lemma filter_alpha_upper s :
  filter (λ c, Is_true (Py.is_alpha c)) (Py.upper s)
  = Py.upper (filter (λ c, Is_true (Py.is_alpha c)) s).
Proof.
  induction s as [|c s IH]; [done|].
  change (Py.upper (c :: s)) with (Py.upper_char c :: Py.upper s).
  rewrite !filter_cons, is_alpha_upper_char, IH.
  by destruct (decide _).
Qed.

End Soundex.

Lemma has_alpha_first_alpha s :
  has_alpha s → ∃ c, first_alpha s = Some c ∧ Py.is_alpha c = true.
Proof.
  intros (c & Hin & Hc). unfold first_alpha.
  destruct (filter _ s) as [|x l] eqn:Hf.
  - assert (c ∈ filter (λ c, Is_true (Py.is_alpha c)) s) as Hc'.
    { apply list_elem_of_filter. split; [by rewrite Hc|done]. }
    rewrite Hf in Hc'. by apply elem_of_nil in Hc'.
  - exists x. split; [done|].
    assert (x ∈ filter (λ c, Is_true (Py.is_alpha c)) s) as Hx.
    { rewrite Hf. left. }
    apply list_elem_of_filter in Hx as [Hx _]. by apply Is_true_true.
Qed.



(** ** Nicknames *)

Section Nicknames.

Lemma dict_get_elem_of {K V} `{EqDecision K} (d : Dict.dict K V) k v :
  Dict.get d k = Some v → (k, v) ∈ d.
Proof.
  induction d as [|[k' v'] d IH]; simpl; [done|].
  destruct (decide (k' = k)) as [->|].
  - intros [= ->]. left.
  - intros. right. auto.
Qed.

(** Every value of the table is a key that maps to itself. *)
Lemma canonical_names_closed :
  forallb
    (λ kv, Py.truthy kv.2
           && bool_decide (Py.lower kv.2 = kv.2)
           && bool_decide (Dict.get CANONICAL_NAMES kv.2 = Some kv.2))
    CANONICAL_NAMES = true.
Proof. vm_compute. reflexivity. Qed.

Lemma resolve_nickname_value n v :
  Dict.get CANONICAL_NAMES n = Some v → resolve_nickname v = v.
Proof.
  intros Hget%dict_get_elem_of.
  pose proof canonical_names_closed as Hall.
  rewrite forallb_forall in Hall.
  apply list_elem_of_In, Hall in Hget. cbn [snd] in Hget.
  apply andb_prop in Hget as [[Ht Hl]%andb_prop Hv].
  apply bool_decide_eq_true in Hl, Hv.
  unfold resolve_nickname, Dict.get_default. by rewrite Ht, Hl, Hv.
Qed.

End Nicknames.

(** C6. [resolve_nickname] sends "bob" and "robert" to "robert", returns a
    name that is not in the table unchanged but lower-cased, and is
    idempotent: the result of a resolution resolves to itself. *)
Theorem resolve_nickname_canonical :
  resolve_nickname "bob" = "robert"
  ∧ resolve_nickname "robert" = "robert"
  ∧ resolve_nickname "unknown" = "unknown"
  ∧ (∀ n, Dict.get CANONICAL_NAMES (Py.lower n) = None →
          resolve_nickname n = Py.lower n)
  ∧ (∀ n, resolve_nickname (resolve_nickname n) = resolve_nickname n).
Proof.
  split; [by vm_compute|]. split; [by vm_compute|]. split; [by vm_compute|].
  split.
  - intros n Hn. unfold resolve_nickname, Dict.get_default. rewrite Hn.
    by destruct n.
  - intros n. unfold resolve_nickname at 2 3.
    destruct (Py.truthy n) eqn:Hn; simpl; [|done].
    unfold Dict.get_default.
    destruct (Dict.get CANONICAL_NAMES (Py.lower n)) as [v|] eqn:Hget.
    + by eapply resolve_nickname_value.
    + unfold resolve_nickname, Dict.get_default.
      by rewrite truthy_lower, Hn, lower_idemp, Hget.
Qed.

Lemma resolve_nickname_canonical_witness :
  resolve_nickname "Zebedee" = "zebedee"
  ∧ resolve_nickname (resolve_nickname "Mia") = resolve_nickname "Mia".
Proof.
  split.
  - apply (proj1 (proj2 (proj2 (proj2 resolve_nickname_canonical)))).
    vm_compute. reflexivity.
  - apply (proj2 (proj2 (proj2 (proj2 resolve_nickname_canonical)))).
Defined.

(** ** Regular expressions that are a single character class *)

Section SubClass.

Lemma sub_from_class p prev s :
  Re.sub_from false (Re.Cls p) "" prev 0 s
  = filter (λ c, Is_true (negb (p c))) s.
Proof.
  revert prev. induction s as [|c s IH]; intros prev; [done|].
  rewrite filter_cons. cbn [Re.sub_from].
  unfold Re.match_here. cbn [Re.rmatch].
  destruct (p c) eqn:Hp; simpl negb.
  - replace (length (c :: s) - length s)%nat with 1%nat by (simpl; lia).
    rewrite IH. by destruct (decide _).
  - rewrite IH. by destruct (decide _).
Qed.

Lemma sub_class p s :
  Re.sub false (Re.Cls p) "" s = filter (λ c, Is_true (negb (p c))) s.
Proof. apply sub_from_class. Qed.

End SubClass.

(** ** Phone numbers *)

Section Phone.

Lemma digits_of_phone phone :
  Re.sub false non_digit "" phone = filter (λ c, Is_true (Py.is_digit c)) phone.
Proof.
  unfold non_digit. rewrite sub_class. apply list_filter_iff.
  intros c. by rewrite negb_involutive.
Qed.

Lemma filter_all_digits s :
  all_digits s → filter (λ c, Is_true (Py.is_digit c)) s = s.
Proof.
  induction 1 as [|c s Hc _ IH]; [done|].
  rewrite filter_cons, IH, Hc. done.
Qed.

Lemma all_digits_filter s :
  all_digits (filter (λ c, Is_true (Py.is_digit c)) s).
Proof.
  apply Forall_forall. intros c [Hc _]%list_elem_of_filter.
  by apply Is_true_true.
Qed.

Lemma all_digits_drop n s : all_digits s → all_digits (drop n s).
Proof. apply Forall_drop. Qed.

Lemma length_last_n n s : (n <= length s)%nat → length (Py.last_n n s) = n.
Proof. intros. unfold Py.last_n. rewrite length_drop. lia. Qed.

Lemma last_n_all n s : (length s <= n)%nat → Py.last_n n s = s.
Proof.
  intros. unfold Py.last_n. by replace (length s - n)%nat with 0%nat by lia.
Qed.

Lemma normalize_phone_shape phone :
  all_digits (normalize_phone phone)
  ∧ ((length (normalize_phone phone) < 7)%nat
     ∨ length (normalize_phone phone) = 7%nat
     ∨ length (normalize_phone phone) = 10%nat).
Proof.
  unfold normalize_phone.
  destruct (Py.truthy phone); cbn [negb]; [|split; [constructor|simpl; lia]].
  rewrite digits_of_phone.
  pose proof (all_digits_filter phone) as Hd.
  set (digits := filter _ phone) in *. clearbody digits.
  destruct (Py.truthy digits); cbn [negb]; [|split; [constructor|simpl; lia]].
  set (digits' := if _ : bool then drop 1 digits else digits).
  assert (all_digits digits') as Hd'.
  { subst digits'. destruct (_ && _); [by apply all_digits_drop|done]. }
  clearbody digits'.
  destruct (10 <=? length digits')%nat eqn:H10.
  { apply Nat.leb_le in H10. split; [by apply all_digits_drop|].
    rewrite length_last_n by done. auto. }
  destruct (7 <=? length digits')%nat eqn:H7.
  { apply Nat.leb_le in H7. split; [by apply all_digits_drop|].
    rewrite length_last_n by done. auto. }
  apply Nat.leb_gt in H7. auto.
Qed.

Lemma normalize_phone_fixed r :
  all_digits r →
  (length r < 7)%nat ∨ length r = 7%nat ∨ length r = 10%nat →
  normalize_phone r = r.
Proof.
  intros Hd Hlen. unfold normalize_phone.
  destruct r as [|c r]; [done|]. cbn [Py.truthy negb].
  rewrite digits_of_phone, filter_all_digits by done.
  cbn [Py.truthy negb].
  replace (length (c :: r) =? 11)%nat with false
    by (symmetry; apply Nat.eqb_neq; lia).
  cbn [andb].
  destruct Hlen as [Hlen|[Hlen|Hlen]].
  - replace (10 <=? length (c :: r))%nat with false
      by (symmetry; apply Nat.leb_gt; lia).
    replace (7 <=? length (c :: r))%nat with false
      by (symmetry; apply Nat.leb_gt; lia).
    done.
  - replace (10 <=? length (c :: r))%nat with false
      by (symmetry; apply Nat.leb_gt; lia).
    replace (7 <=? length (c :: r))%nat with true
      by (symmetry; apply Nat.leb_le; lia).
    apply last_n_all. lia.
  - replace (10 <=? length (c :: r))%nat with true
      by (symmetry; apply Nat.leb_le; lia).
    apply last_n_all. lia.
Qed.

Lemma normalize_phone_idemp phone :
  normalize_phone (normalize_phone phone) = normalize_phone phone.
Proof.
  destruct (normalize_phone_shape phone). by apply normalize_phone_fixed.
Qed.

End Phone.

(** C10. [normalize_phone] is idempotent; hence [phones_match], which
    normalises its arguments, gives the same verdict on the phone strings
    that [get_normalized_phones] has already normalised as on the raw
    ones. *)
Theorem normalize_phone_idempotent :
  (∀ p, normalize_phone (normalize_phone p) = normalize_phone p)
  ∧ (∀ p1 p2,
       phones_match (normalize_phone p1) (normalize_phone p2)
       = phones_match p1 p2).
Proof.
  split; [apply normalize_phone_idemp|].
  intros p1 p2. unfold phones_match. by rewrite !normalize_phone_idemp.
Qed.

(** ** E-mail addresses *)

Section Email.

Lemma cut_app sep a b :
  sep ∉ a → Py.cut sep (a ++ sep :: b) = (a, Some b).
Proof.
  induction a as [|c a IH]; intros Hnot; simpl.
  - by rewrite bool_decide_eq_true_2.
  - apply not_elem_of_cons in Hnot as [Hne Hnot].
    rewrite bool_decide_eq_false_2 by done. by rewrite IH.
Qed.

Lemma rsplit1_app sep l d :
  sep ∉ d → Py.rsplit1 sep (l ++ sep :: d) = [l; d].
Proof.
  intros Hnot. unfold Py.rsplit1.
  rewrite reverse_app, reverse_cons, <- app_assoc. simpl.
  rewrite cut_app.
  - by rewrite !reverse_involutive.
  - by rewrite elem_of_reverse.
Qed.

Lemma first_piece_before sep s :
  nth 0 (Py.split_on sep s) "" = before sep s.
Proof.
  induction s as [|c s IH]; simpl; [done|].
  case_bool_decide; [done|].
  destruct (Py.split_on sep s) as [|w ws]; simpl in *; by rewrite <- IH.
Qed.

Lemma before_absent sep s : sep ∉ s → before sep s = s.
Proof.
  induction s as [|c s IH]; simpl; [done|].
  intros [Hne Hnot]%not_elem_of_cons.
  rewrite bool_decide_eq_false_2 by done. by rewrite IH.
Qed.

Lemma lower_char_at c : Py.lower_char c = "@"%char → c = "@"%char.
Proof. by_cases_on_char c. Qed.

Lemma at_not_in_lower d : "@"%char ∉ d → "@"%char ∉ Py.lower d.
Proof.
  intros Hnot Hin. apply Hnot.
  unfold Py.lower in Hin. apply list_elem_of_In, in_map_iff in Hin.
  destruct Hin as (c & Hc & Hin). apply lower_char_at in Hc as ->.
  by apply list_elem_of_In.
Qed.

End Email.

(** C8. For an address [l@d] (the last "@" separates the local part [l]
    from the domain [d]) [normalize_email] lower-cases both parts, replaces
    the alias domain googlemail.com by gmail.com, keeps of the local part
    only the text before the first "+", and removes the dots of the local
    part when the resulting domain is gmail.com; in particular
    "John.Doe+work@googlemail.com" becomes "johndoe@gmail.com". *)
Theorem normalize_email_spec :
  (∀ l d, "@"%char ∉ d →
     normalize_email (l ++ "@" ++ d)
     = let domain := canonical_domain (Py.lower d) in
       let local := before "+" (Py.lower l) in
       (if bool_decide (domain = "gmail.com")
        then Py.remove_char "." local else local) ++ "@" ++ domain)
  ∧ normalize_email "John.Doe+work@googlemail.com" = "johndoe@gmail.com".
Proof.
  split; [|by vm_compute].
  intros l d Hd. unfold normalize_email.
  assert (Py.contains "@" (l ++ "@" ++ d) = true) as ->.
  { apply bool_decide_eq_true_2, elem_of_app. right. left. }
  assert (Py.truthy (l ++ "@" ++ d) = true) as -> by by destruct l.
  cbn [negb orb].
  assert (Py.lower (l ++ "@" ++ d) = Py.lower l ++ "@"%char :: Py.lower d) as ->.
  { unfold Py.lower. by rewrite map_app. }
  rewrite rsplit1_app by by apply at_not_in_lower.
  cbv zeta. fold (canonical_domain (Py.lower d)).
  assert ((if Py.contains "+" (Py.lower l)
           then nth 0 (Py.split_on "+" (Py.lower l)) ""
           else Py.lower l) = before "+" (Py.lower l)) as ->; [|done].
  unfold Py.contains. case_bool_decide.
  - apply first_piece_before.
  - by rewrite before_absent.
Qed.

Lemma normalize_email_spec_witness :
  normalize_email ("Ann.Lee+x+y" ++ "@" ++ "GoogleMail.com")
  = "annlee" ++ "@" ++ "gmail.com".
Proof.
  exact (proj1 normalize_email_spec "Ann.Lee+x+y" "GoogleMail.com"
           ltac:(not_in_closed_list)).
Defined.

(** ** Empty inputs *)

Lemma find_similar_groups_empty ratio set_order :
  enumeration set_order → find_similar_groups ratio set_order [] = Ret [].
Proof.
  intros Henum. unfold find_similar_groups.
  change (candidate_pairs_of (build_buckets [])) with (@nil (nat * nat)).
  pose proof (Henum []) as Hnil%Permutation_nil_r. by rewrite Hnil.
Qed.

(** C5, as the code has it.  Clustering an empty list of contacts returns
    the empty list of groups and merging an empty list of contacts returns
    [None]; neither call raises an error. *)
Theorem empty_inputs_return ratio set_order :
  enumeration set_order →
  find_similar_groups ratio set_order [] = Ret []
  ∧ merge_contacts [] = Ret None.
Proof. intros Henum. split; [by apply find_similar_groups_empty|done]. Qed.

Lemma empty_inputs_return_witness :
  find_similar_groups Difflib.ratio id [] = Ret []
  ∧ merge_contacts [] = Ret None.
Proof. apply empty_inputs_return. by intros l. Defined.

(** C5, as stated: both calls would have to fail fast on the empty list.
    Neither does. *)
Lemma empty_inputs_do_not_fail :
  ¬ fails_fast (find_similar_groups Difflib.ratio id [])
  ∧ ¬ fails_fast (merge_contacts []).
Proof. split; intros [e He]; discriminate He. Qed.

(** ** The merged display name *)

Section DisplayName.

Lemma truthy_true s : Py.truthy s = true ↔ s ≠ [].
Proof. by destruct s. Qed.

Lemma truthy_false s : Py.truthy s = false ↔ s = [].
Proof. by destruct s. Qed.

Lemma name_le_refl a : name_le a a.
Proof. right. done. Qed.

Lemma name_le_trans a b c : name_le a b → name_le b c → name_le a c.
Proof. unfold name_le. intros [?|[? ?]] [?|[? ?]]; [left|left|left|right]; lia. Qed.

Lemma name_le_empty b : name_le "" b.
Proof. unfold name_le, word_count. simpl. lia. Qed.

Lemma name_le_empty_inv a : name_le a "" → a = "".
Proof.
  unfold name_le, word_count. simpl. intros [?|[_ Hlen]]; [lia|].
  destruct a; [done|simpl in Hlen; lia].
Qed.

Lemma best_name_step_le best c :
  name_le best (best_name_step best c)
  ∧ name_le (fn c) (best_name_step best c)
  ∧ (best_name_step best c = best ∨ best_name_step best c = fn c).
Proof.
  unfold best_name_step.
  destruct (Py.truthy (fn c)) eqn:Hfn.
  - assert ((if Py.truthy best then length (Py.split best) else 0%nat)
            = word_count best) as ->.
    { unfold word_count. by destruct best. }
    fold (word_count (fn c)).
    destruct (word_count best <? word_count (fn c))%nat eqn:Hlt.
    { apply Nat.ltb_lt in Hlt. split; [by left|].
      split; [apply name_le_refl|by right]. }
    apply Nat.ltb_ge in Hlt.
    destruct (word_count (fn c) =? word_count best)%nat eqn:Heq.
    + apply Nat.eqb_eq in Heq.
      destruct (length best <? length (fn c))%nat eqn:Hlen; cbn [andb].
      * apply Nat.ltb_lt in Hlen. split; [right; lia|].
        split; [apply name_le_refl|by right].
      * apply Nat.ltb_ge in Hlen. split; [apply name_le_refl|].
        split; [right; lia|by left].
    + apply Nat.eqb_neq in Heq. cbn [andb]. split; [apply name_le_refl|].
      split; [left; lia|by left].
  - apply truthy_false in Hfn. rewrite Hfn. split; [apply name_le_refl|].
    split; [apply name_le_empty|by left].
Qed.

Lemma best_name_loop cs best seen :
  best_so_far best seen →
  best_so_far (fold_left best_name_step cs best) (seen ++ cs).
Proof.
  revert best seen. induction cs as [|c cs IH]; intros best seen Hinv.
  - by rewrite app_nil_r.
  - cbn [fold_left]. replace (seen ++ c :: cs) with ((seen ++ [c]) ++ cs)
      by by rewrite <- app_assoc.
    apply IH. destruct Hinv as [Hmem Hmax].
    destruct (best_name_step_le best c) as (Hb & Hc & Hcase). split.
    + destruct Hcase as [->| ->].
      * destruct Hmem as [->|Hmem]; [by left|right].
        rewrite map_app. apply elem_of_app. by left.
      * right. rewrite map_app. apply elem_of_app. right. left.
    + intros c' [Hc'|Hc']%elem_of_app.
      * eapply name_le_trans; [by apply Hmax|done].
      * apply list_elem_of_singleton in Hc' as ->. done.
Qed.

Lemma merge_loop_fn cs merged sources :
  fn (fold_left merge_step cs (merged, sources)).1 = fn merged.
Proof.
  revert merged sources. induction cs as [|c cs IH]; intros merged sources.
  - done.
  - cbn [fold_left]. unfold merge_step at 2. by rewrite IH.
Qed.

End DisplayName.

(** C9. For a non-empty list of contacts [merge_contacts] returns a contact
    whose display name is the duplicate-word cleanup
    ([normalize_display_name]) of a display name [w] of one of the contacts,
    and no contact has a display name with more words than [w], or with as
    many words and more characters. *)
Theorem merged_display_name (contacts : list VCardContact) :
  contacts ≠ [] →
  ∃ merged w,
    merge_contacts contacts = Ret (Some merged)
    ∧ w ∈ map fn contacts
    ∧ (∀ c, c ∈ contacts → name_le (fn c) w)
    ∧ fn merged = normalize_display_name w.
Proof.
  destruct contacts as [|c0 cs]; [done|]. intros _.
  unfold merge_contacts.
  pose proof (best_name_loop (c0 :: cs) "" []) as Hbest.
  rewrite app_nil_l in Hbest.
  set (best := fold_left best_name_step (c0 :: cs) "") in *.
  destruct Hbest as [Hmem Hmax].
  { split; [by left|]. intros c Hc. by apply elem_of_nil in Hc. }
  match goal with
  | |- context [fold_left merge_step ?l (?m, ?s)] =>
      pose proof (merge_loop_fn l m s) as Hfn;
      destruct (fold_left merge_step l (m, s)) as [merged sources]
  end.
  cbn [fst fn] in Hfn.
  eexists _, (or_else best (fn c0)). split; [reflexivity|].
  cbn [fn]. rewrite Hfn.
  destruct (Py.truthy best) eqn:Hb; unfold or_else; rewrite Hb.
  - split; [|split; [done|by rewrite Hb]].
    destruct Hmem as [->|?]; done.
  - apply truthy_false in Hb.
    assert (fn c0 = "") as H0.
    { apply name_le_empty_inv. rewrite <- Hb. apply Hmax. left. }
    split; [left|]. split; [|by rewrite H0].
    intros c Hc. rewrite H0, <- Hb. by apply Hmax.
Qed.

Lemma merged_display_name_witness :
  ∃ merged w,
    merge_contacts
      [contact_of "Bob Smith" [] [] ""; contact_of "Robert  A. A. Smith" [] [] "";
       contact_of "Rob Smith-Jones" [] [] ""]
    = Ret (Some merged)
    ∧ w ∈ map fn [contact_of "Bob Smith" [] [] "";
                  contact_of "Robert  A. A. Smith" [] [] "";
                  contact_of "Rob Smith-Jones" [] [] ""]
    ∧ (∀ c, c ∈ [contact_of "Bob Smith" [] [] "";
                 contact_of "Robert  A. A. Smith" [] [] "";
                 contact_of "Rob Smith-Jones" [] [] ""] → name_le (fn c) w)
    ∧ fn merged = normalize_display_name w.
Proof. apply merged_display_name. discriminate. Defined.

(** ** The confidence score *)

Section Score.

Variable ratio : str → str → Q.

Lemma email_points_range c1 c2 : (0 <= email_points c1 c2 <= 50)%Z.
Proof. unfold email_points. destruct (existsb _ _); lia. Qed.

Lemma phone_points_range c1 c2 : (0 <= phone_points c1 c2 <= 40)%Z.
Proof. unfold phone_points. destruct (existsb _ _); lia. Qed.

Lemma org_points_range c1 c2 : (0 <= org_points ratio c1 c2 <= 10)%Z.
Proof.
  unfold org_points. repeat (destruct (_ : bool); cbn [andb]); try lia.
  destruct (Qlt_le_dec _ _); lia.
Qed.

Lemma partial_score_nonneg a b : (0 <= partial_score ratio a b)%Z.
Proof.
  unfold partial_score. destruct (Qlt_le_dec _ _) as [Hlt|]; [|lia].
  change 0%Z with (Qfloor 0). apply Qfloor_resp_le.
  apply Qmult_le_0_compat; [|done].
  apply Qlt_le_weak. eapply Qlt_trans; [|exact Hlt]. done.
Qed.

Lemma name_points_nonneg c1 c2 : (0 <= name_points ratio c1 c2)%Z.
Proof.
  unfold name_points.
  destruct (get_parsed_name c1) as [[first1 last1] canonical1].
  destruct (get_parsed_name c2) as [[first2 last2] canonical2].
  repeat (destruct (_ : bool); cbn [andb orb]); try lia;
    apply partial_score_nonneg.
Qed.

End Score.

(** C3, as the code has it.  The name part of the score is decided by the
    first applicable of: equal non-empty canonical forms, 50; equal last
    names and equal nickname-resolved first names, 45; both last names
    non-empty with equal Soundex codes, 35 when the first names or their
    nickname resolutions are equal and nothing otherwise; in the remaining
    case, when both canonical forms are non-empty and their similarity
    exceeds 0.8, the floor of 30 times the similarity, and nothing
    otherwise.  The score returned is the sum of the e-mail, phone, name
    and organisation parts capped at 100, an integer between 0 and 100. *)
Theorem name_rules_and_cap (ratio : str → str → Q)
    (c1 c2 : VCardContact) (first1 last1 canonical1 first2 last2 canonical2 : str) :
  get_parsed_name c1 = (first1, last1, canonical1) →
  get_parsed_name c2 = (first2, last2, canonical2) →
  let exact := canonical1 ≠ "" ∧ canonical2 ≠ "" ∧ canonical1 = canonical2 in
  let nick_eq :=
    get_canonical_first_name first1 = get_canonical_first_name first2 in
  let nickname := last1 = last2 ∧ nick_eq in
  let phonetic := last1 ≠ "" ∧ last2 ≠ "" ∧ soundex last1 = soundex last2 in
  let sim := ratio canonical1 canonical2 in
  (exact → name_points ratio c1 c2 = 50%Z)
  ∧ (¬ exact → nickname → name_points ratio c1 c2 = 45%Z)
  ∧ (¬ exact → ¬ nickname → phonetic → first1 = first2 ∨ nick_eq →
       name_points ratio c1 c2 = 35%Z)
  ∧ (¬ exact → ¬ nickname → phonetic → ¬ (first1 = first2 ∨ nick_eq) →
       name_points ratio c1 c2 = 0%Z)
  ∧ (¬ exact → ¬ nickname → ¬ phonetic →
       canonical1 ≠ "" → canonical2 ≠ "" → (8 # 10 < sim)%Q →
       name_points ratio c1 c2 = Qfloor (sim * 30))
  ∧ (¬ exact → ¬ nickname → ¬ phonetic →
       ¬ (canonical1 ≠ "" ∧ canonical2 ≠ "" ∧ (8 # 10 < sim)%Q) →
       name_points ratio c1 c2 = 0%Z)
  ∧ calculate_match_confidence ratio c1 c2
    = ((email_points c1 c2 + phone_points c1 c2 + name_points ratio c1 c2
        + org_points ratio c1 c2) `min` 100)%Z
  ∧ (0 <= calculate_match_confidence ratio c1 c2 <= 100)%Z.
Proof.
  intros Hp1 Hp2 exact nick_eq nickname phonetic sim.
  assert (name_points ratio c1 c2
          = if Py.truthy canonical1 && Py.truthy canonical2
               && bool_decide (canonical1 = canonical2)
            then 50%Z
            else if bool_decide (last1 = last2) && bool_decide nick_eq
            then 45%Z
            else if Py.truthy last1 && Py.truthy last2
                    && bool_decide (soundex last1 = soundex last2)
            then (if bool_decide (first1 = first2) || bool_decide nick_eq
                  then 35%Z else 0%Z)
            else if Py.truthy canonical1 && Py.truthy canonical2
            then partial_score ratio canonical1 canonical2 else 0%Z) as Hnp.
  { unfold name_points. by rewrite Hp1, Hp2. }
  assert (Py.truthy canonical1 && Py.truthy canonical2
          && bool_decide (canonical1 = canonical2) = true ↔ exact) as Hexact.
  { rewrite !andb_true_iff, !truthy_true, bool_decide_eq_true. unfold exact. tauto. }
  assert (bool_decide (last1 = last2) && bool_decide nick_eq = true ↔ nickname)
    as Hnick.
  { rewrite andb_true_iff, !bool_decide_eq_true. done. }
  assert (Py.truthy last1 && Py.truthy last2
          && bool_decide (soundex last1 = soundex last2) = true ↔ phonetic)
    as Hphon.
  { rewrite !andb_true_iff, !truthy_true, bool_decide_eq_true. unfold phonetic. tauto. }
  assert (bool_decide (first1 = first2) || bool_decide nick_eq = true
          ↔ first1 = first2 ∨ nick_eq) as Hfirst.
  { rewrite orb_true_iff, !bool_decide_eq_true. done. }
  assert (∀ (b : bool) (P : Prop), (b = true ↔ P) → ¬ P → b = false) as Hoff.
  { intros b P Hb HP. destruct b; [|done]. exfalso. by apply HP, Hb. }
  rewrite Hnp. split_and!.
  - intros Hex. by rewrite (proj2 Hexact Hex).
  - intros Hex Hn. by rewrite (Hoff _ _ Hexact Hex), (proj2 Hnick Hn).
  - intros Hex Hn Hph Hf.
    by rewrite (Hoff _ _ Hexact Hex), (Hoff _ _ Hnick Hn), (proj2 Hphon Hph),
      (proj2 Hfirst Hf).
  - intros Hex Hn Hph Hf.
    by rewrite (Hoff _ _ Hexact Hex), (Hoff _ _ Hnick Hn), (proj2 Hphon Hph),
      (Hoff _ _ Hfirst Hf).
  - intros Hex Hn Hph Hk1%truthy_true Hk2%truthy_true Hsim.
    rewrite (Hoff _ _ Hexact Hex), (Hoff _ _ Hnick Hn), (Hoff _ _ Hphon Hph),
      Hk1, Hk2.
    cbn [andb]. unfold partial_score. fold sim.
    destruct (Qlt_le_dec (8 # 10) sim) as [|Hle]; [done|].
    exfalso. by eapply Qlt_not_le.
  - intros Hex Hn Hph Hno.
    rewrite (Hoff _ _ Hexact Hex), (Hoff _ _ Hnick Hn), (Hoff _ _ Hphon Hph).
    destruct (Py.truthy canonical1) eqn:Hk1; [|done].
    destruct (Py.truthy canonical2) eqn:Hk2; [|done].
    cbn [andb]. unfold partial_score. fold sim.
    destruct (Qlt_le_dec (8 # 10) sim) as [Hlt|]; [|done].
    exfalso. apply Hno. by rewrite <- !truthy_true.
  - rewrite <- Hnp. unfold calculate_match_confidence. cbv zeta.
    by rewrite Z.add_0_l.
  - unfold calculate_match_confidence. cbv zeta.
    pose proof (email_points_range c1 c2).
    pose proof (phone_points_range c1 c2).
    pose proof (name_points_nonneg ratio c1 c2).
    pose proof (org_points_range ratio c1 c2). lia.
  - unfold calculate_match_confidence. cbv zeta. lia.
Qed.

Lemma name_rules_and_cap_witness :
  name_points Difflib.ratio
    (contact_of "Bob Smith" [] [] "") (contact_of "Smith, Robert" [] [] "")
  = 45%Z.
Proof.
  refine (proj1 (proj2 (name_rules_and_cap Difflib.ratio
                   (contact_of "Bob Smith" [] [] "")
                   (contact_of "Smith, Robert" [] [] "")
                   "bob" "smith" "bob smith" "robert" "smith" "robert smith"
                   _ _)) _ _).
  - by vm_compute.
  - by vm_compute.
  - intros (_ & _ & Heq). discriminate Heq.
  - split; [reflexivity|by vm_compute].
Defined.

(** C3, as stated: when the Soundex codes of the last names agree but the
    first names do not, the similarity rule would still apply.  For
    "Jonathan Smith" and "Jonathon Smyth" (similarity 24/28) the statement
    gives 25 points, the code none. *)
Lemma similarity_is_not_a_fall_through :
  Difflib.ratio "jonathan smith" "jonathon smyth" == 24 # 28
  ∧ claimed_name_points Difflib.ratio
      (contact_of "Jonathan Smith" [] [] "")
      (contact_of "Jonathon Smyth" [] [] "") = 25%Z
  ∧ name_points Difflib.ratio
      (contact_of "Jonathan Smith" [] [] "")
      (contact_of "Jonathon Smyth" [] [] "") = 0%Z.
Proof. split; [|split]; by vm_compute. Qed.

(** ** Matching literal words *)

Section Regex.

Import Re.

Lemma lower_char_of_lower c : Py.is_lower c = true → Py.lower_char c = c.
Proof. by_cases_on_char c. Qed.

Lemma is_word_of_lower_char y :
  Py.is_lower (Py.lower_char y) = true → Py.is_word y = true.
Proof. by_cases_on_char y. Qed.

Lemma is_word_lower_char c : Py.is_word (Py.lower_char c) = Py.is_word c.
Proof. by_cases_on_char c. Qed.

Lemma is_space_lower_char c : Py.is_space (Py.lower_char c) = Py.is_space c.
Proof. by_cases_on_char c. Qed.

Lemma word_not_space c : Py.is_word c = true → Py.is_space c = false.
Proof. by_cases_on_char c. Qed.

Lemma chr_eq_letter c y :
  Py.is_lower c = true → chr_eq true c y = true →
  Py.is_word y = true ∧ Py.lower_char y = c.
Proof.
  intros Hc Heq. unfold chr_eq in Heq. apply bool_decide_eq_true in Heq.
  rewrite lower_char_of_lower in Heq by done. subst c.
  split; [by apply is_word_of_lower_char|done].
Qed.

Lemma rmatch_Lit_inv {A} w prev s (k : option ascii → str → option A) a :
  w ≠ [] →
  rmatch true (Lit w) prev s k = Some a →
  ∃ u rest x,
    s = u ++ rest ∧ Forall2 (λ c y, chr_eq true c y = true) w u
    ∧ k (Some x) rest = Some a.
Proof.
  revert prev s. induction w as [|c w IH]; intros prev s Hw; [done|].
  destruct w as [|c' w'].
  - cbn [Lit rmatch]. destruct s as [|y s']; [done|].
    destruct (chr_eq true c y) eqn:Hcy; [|done]. intros Hk.
    exists [y], s', y. split; [done|]. split; [|done]. by repeat constructor.
  - change (Lit (c :: c' :: w')) with (Seq (Chr c) (Lit (c' :: w'))).
    cbn [rmatch]. destruct s as [|y s']; [done|].
    destruct (chr_eq true c y) eqn:Hcy; [|done]. intros Hk.
    apply IH in Hk as (u & rest & x & -> & Hall & Hk); [|done].
    exists (y :: u), rest, x. split; [done|]. split; [|done].
    by constructor.
Qed.

Lemma rmatch_Words_inv {A} ws prev s (k : option ascii → str → option A) a :
  rmatch true (Words ws) prev s k = Some a →
  ∃ w, w ∈ ws ∧ rmatch true (Lit w) prev s k = Some a.
Proof.
  induction ws as [|w ws IH].
  - simpl. by destruct s.
  - destruct ws as [|w2 ws'].
    + intros Hm. exists w. split; [left|done].
    + change (Words (w :: w2 :: ws')) with (Alt (Lit w) (Words (w2 :: ws'))).
      cbn [rmatch].
      destruct (rmatch true (Lit w) prev s k) as [a'|] eqn:Hw.
      * intros [= ->]. exists w. split; [left|done].
      * intros (w' & Hin & Hm)%IH. exists w'. split; [by right|done].
Qed.

Lemma letters_matched w u :
  lower_letters w → Forall2 (λ c y, chr_eq true c y = true) w u →
  word_chars u ∧ Py.lower u = w.
Proof.
  intros Hw Hall. induction Hall as [|c y w u Hcy Hall IH].
  - split; [constructor|done].
  - apply Forall_cons in Hw as [Hc Hw].
    destruct (chr_eq_letter c y Hc Hcy) as [Hy <-].
    destruct (IH Hw) as [Hu <-]. split; [by constructor|done].
Qed.

Lemma word_prefix_split u X T rest :
  word_chars u → word_chars X → word_end T →
  X ++ T = u ++ rest →
  ∃ X2, X = u ++ X2 ∧ rest = X2 ++ T.
Proof.
  intros Hu. revert X. induction Hu as [|x u Hx Hu IH]; intros X HX HT Heq.
  - exists X. done.
  - destruct X as [|y X'].
    + simpl in Heq. subst T. simpl in HT. congruence.
    + injection Heq as -> Heq. apply Forall_cons in HX as [_ HX].
      destruct (IH X' HX HT Heq) as (X2 & -> & ->). by exists X2.
Qed.

(** An alternation of lower-case words fails in front of the word [X]
    (followed by [T]) when the continuation fails on every text that
    starts with a word character and, should [X] be one of the words, on
    [T] too. *)
Lemma words_then_fail {A} ws (k : option ascii → str → option A) prev X T :
  Forall (λ w, w ≠ [] ∧ lower_letters w) ws →
  word_chars X → word_end T →
  (∀ p c s', Py.is_word c = true → k p (c :: s') = None) →
  (Py.lower X ∈ ws → ∀ p, k p T = None) →
  rmatch true (Words ws) prev (X ++ T) k = None.
Proof.
  intros Hws HX HT Hkw HkT.
  destruct (rmatch true (Words ws) prev (X ++ T) k) as [a|] eqn:Hm; [|done].
  exfalso. apply rmatch_Words_inv in Hm as (w & Hin & Hm).
  rewrite Forall_forall in Hws. destruct (Hws w Hin) as [Hne Hlet].
  apply rmatch_Lit_inv in Hm as (u & rest & x & Heq & Hall & Hk); [|done].
  destruct (letters_matched w u Hlet Hall) as [Hu Hlow].
  destruct (word_prefix_split u X T rest Hu HX HT Heq) as (X2 & -> & ->).
  destruct X2 as [|c X2'].
  - rewrite app_nil_r in HkT. rewrite Hlow in HkT.
    rewrite (HkT Hin) in Hk. done.
  - apply Forall_app in HX as [_ HX]. apply Forall_cons in HX as [Hc _].
    simpl in Hk. rewrite (Hkw _ _ _ Hc) in Hk. done.
Qed.

Lemma titles_lower_letters :
  Forall (λ w, w ≠ [] ∧ lower_letters w) titles.
Proof. repeat constructor; done. Qed.

Lemma suffix_words_lower_letters :
  Forall (λ w, w ≠ [] ∧ lower_letters w) suffix_words.
Proof. repeat constructor; done. Qed.

(** [re.sub] leaves a text without a match unchanged. *)
Lemma sub_from_no_match ic r repl s prev :
  (∀ pre suf, s = pre ++ suf → suf ≠ [] →
     match_here ic r (last_or prev pre) suf = None) →
  sub_from ic r repl prev 0 s = s.
Proof.
  revert prev. induction s as [|c s IH]; intros prev Hno; [done|].
  cbn [sub_from].
  pose proof (Hno [] (c :: s) eq_refl ltac:(done)) as H0.
  change (last_or prev []) with prev in H0. rewrite H0.
  f_equal. apply IH. intros pre suf -> Hsuf.
  specialize (Hno (c :: pre) suf eq_refl Hsuf).
  unfold last_or in *. rewrite last_cons in Hno.
  by destruct (last pre).
Qed.

End Regex.

(** ** The three patterns of [parse_name_parts] on plain names *)

Section NamePatterns.

Import Re.

Abbreviation K0 := (λ (_ : option ascii) (rest : str), Some rest).

Lemma word_not_dot c : Py.is_word c = true → chr_eq true "." c = false.
Proof. by_cases_on_char c. Qed.

Lemma word_not_comma c : Py.is_word c = true → chr_eq true "," c = false.
Proof. by_cases_on_char c. Qed.

Lemma word_not_newline c :
  Py.is_word c = true → bool_decide (c = "010"%char) = false.
Proof. by_cases_on_char c. Qed.

Lemma word_not_comma_char c : Py.is_word c = true → c ≠ ","%char.
Proof. by_cases_on_char c. Qed.

Lemma title_tail_word p c s :
  Py.is_word c = true → rmatch true title_tail p (c :: s) K0 = None.
Proof.
  intros Hc. unfold title_tail, Plus. cbn [rmatch].
  by rewrite word_not_dot, word_not_space.
Qed.

Lemma title_tail_nil p : rmatch true title_tail p [] K0 = None.
Proof. reflexivity. Qed.

Lemma title_tail_comma p s : rmatch true title_tail p (","%char :: s) K0 = None.
Proof. reflexivity. Qed.

Lemma suffix_tail_word p c s :
  Py.is_word c = true → rmatch true suffix_tail p (c :: s) K0 = None.
Proof.
  intros Hc. unfold suffix_tail. cbn [rmatch star].
  rewrite word_not_dot, word_not_space by done.
  destruct s; [|done]. by rewrite word_not_newline.
Qed.

Lemma suffix_tail_space_word p c s :
  Py.is_word c = true → rmatch true suffix_tail p (" "%char :: c :: s) K0 = None.
Proof.
  intros Hc. unfold suffix_tail. cbn [rmatch star].
  change (chr_eq true "." " ") with false.
  change (Py.is_space " ") with true. cbv iota.
  rewrite word_not_space by done.
  destruct s; [|done]. by rewrite word_not_newline.
Qed.

Lemma suffix_tail_comma p c s :
  rmatch true suffix_tail p (","%char :: c :: s) K0 = None.
Proof. reflexivity. Qed.

Lemma not_word_empty ws :
  Forall (λ w : str, w ≠ [] ∧ lower_letters w) ws → Py.lower "" ∈ ws → False.
Proof.
  intros Hws Hin. rewrite Forall_forall in Hws.
  by destruct (Hws _ Hin) as [Hne _].
Qed.

(** The suffix pattern cannot start inside a word ... *)
Lemma boundary_fails_inside prev c s :
  word_at prev = true → Py.is_word c = true →
  rmatch true suffix_at_boundary prev (c :: s) K0 = None.
Proof.
  intros Hp Hc. unfold suffix_at_boundary. cbn [rmatch head].
  by rewrite Hp; cbn [word_at]; rewrite Hc.
Qed.

(** ... and at the start of a word [X] only when [X] is a suffix word
    and what follows lets the pattern end. *)
Lemma boundary_fails_word prev X T :
  word_chars X → word_end T →
  (Py.lower X ∈ suffix_words → ∀ p, rmatch true suffix_tail p T K0 = None) →
  rmatch true suffix_at_boundary prev (X ++ T) K0 = None.
Proof.
  intros HX HT Hcond. unfold suffix_at_boundary. cbn [rmatch].
  destruct (xorb _ _); [|done].
  apply words_then_fail; try done.
  - apply suffix_words_lower_letters.
  - intros p c s Hc. by apply suffix_tail_word.
Qed.

Lemma boundary_fails_nonword prev T :
  word_end T → rmatch true suffix_at_boundary prev T K0 = None.
Proof.
  intros HT. apply (boundary_fails_word prev [] T); [constructor|done|].
  intros Hin. destruct (not_word_empty _ suffix_words_lower_letters Hin).
Qed.

Lemma star_no_space {A} prev s (k : option ascii → str → option A) :
  match s with [] => True | c :: _ => Py.is_space c = false end →
  star Py.is_space prev s k = k prev s.
Proof. destruct s as [|c s]; [done|]. simpl. by intros ->. Qed.

(** The four kinds of position of the suffix pattern. *)
Lemma suffixes_fail_inside prev c s :
  word_at prev = true → Py.is_word c = true →
  match_here true suffixes prev (c :: s) = None.
Proof.
  intros Hp Hc. unfold match_here, suffixes. cbn [rmatch].
  rewrite word_not_comma by done.
  rewrite star_no_space by by apply word_not_space.
  by apply boundary_fails_inside.
Qed.

Lemma suffixes_fail_word prev X T :
  X ≠ [] → word_chars X → word_end T →
  (Py.lower X ∈ suffix_words → ∀ p, rmatch true suffix_tail p T K0 = None) →
  match_here true suffixes prev (X ++ T) = None.
Proof.
  intros Hne HX HT Hcond. unfold match_here, suffixes. cbn [rmatch].
  destruct X as [|c X']; [done|]. pose proof HX as HX'.
  apply Forall_cons in HX' as [Hc _]. cbn [app].
  rewrite word_not_comma by done.
  rewrite star_no_space by by apply word_not_space.
  by apply (boundary_fails_word prev (c :: X') T).
Qed.

Lemma spaces_then_boundary_fail prev X T :
  X ≠ [] → word_chars X → word_end T →
  (Py.lower X ∈ suffix_words → ∀ p, rmatch true suffix_tail p T K0 = None) →
  rmatch true (Seq (Star Py.is_space) suffix_at_boundary) prev
    (" "%char :: X ++ T) K0 = None.
Proof.
  intros Hne HX HT Hcond. cbn [rmatch star].
  change (Py.is_space " ") with true. cbv iota.
  destruct X as [|c X']; [done|]. pose proof HX as HX'.
  apply Forall_cons in HX' as [Hc _].
  rewrite star_no_space by by apply word_not_space.
  rewrite (boundary_fails_word (Some " "%char) (c :: X') T) by done.
  by apply boundary_fails_nonword.
Qed.

Lemma suffixes_fail_space prev X T :
  X ≠ [] → word_chars X → word_end T →
  (Py.lower X ∈ suffix_words → ∀ p, rmatch true suffix_tail p T K0 = None) →
  match_here true suffixes prev (" "%char :: X ++ T) = None.
Proof.
  intros Hne HX HT Hcond. unfold match_here, suffixes.
  cbn [rmatch]. change (chr_eq true "," " ") with false. cbv iota.
  by apply spaces_then_boundary_fail.
Qed.

Lemma suffixes_fail_comma prev X T :
  X ≠ [] → word_chars X → word_end T →
  (Py.lower X ∈ suffix_words → ∀ p, rmatch true suffix_tail p T K0 = None) →
  match_here true suffixes prev (","%char :: " "%char :: X ++ T) = None.
Proof.
  intros Hne HX HT Hcond. unfold match_here, suffixes.
  cbn [rmatch]. change (chr_eq true "," ",") with true. cbv iota.
  change (star Py.is_space (Some ","%char) (" "%char :: X ++ T)
            (λ prev' s', rmatch true suffix_at_boundary prev' s' K0))
    with (rmatch true (Seq (Star Py.is_space) suffix_at_boundary)
            (Some ","%char) (" "%char :: X ++ T) K0).
  rewrite spaces_then_boundary_fail by done.
  rewrite star_no_space by done.
  by apply boundary_fails_nonword.
Qed.

End NamePatterns.

Section PlainNames.

Import Re.

Abbreviation K0 := (λ (_ : option ascii) (rest : str), Some rest).

Lemma app_eq_app_cons (pre suf A : str) m B :
  pre ++ suf = A ++ m :: B →
  (∃ A2, A = pre ++ A2 ∧ suf = A2 ++ m :: B)
  ∨ (∃ B1, pre = A ++ m :: B1 ∧ B = B1 ++ suf).
Proof.
  revert A. induction pre as [|x pre IH]; intros A Heq.
  - left. by exists A.
  - destruct A as [|a A'].
    + injection Heq as -> <-. right. by exists pre.
    + injection Heq as -> Heq.
      destruct (IH A' Heq) as [(A2 & -> & ->)|(B1 & -> & ->)].
      * left. by exists A2.
      * right. by exists B1.
Qed.

Lemma last_or_app_cons prev A m B :
  last_or prev (A ++ m :: B) = last_or (Some m) B.
Proof.
  unfold last_or. rewrite last_app. rewrite last_cons.
  by destruct (last B).
Qed.

Lemma last_or_word prev pre :
  pre ≠ [] → word_chars pre → word_at (last_or prev pre) = true.
Proof.
  intros Hne Hw. unfold last_or.
  destruct (last pre) as [c|] eqn:Hlast.
  - apply last_Some in Hlast as (l' & ->).
    apply Forall_app in Hw as [_ Hw]. by apply Forall_cons in Hw as [? _].
  - by apply last_None in Hlast.
Qed.

Lemma last_or_some prev pre : pre ≠ [] → is_Some (last_or prev pre).
Proof.
  intros Hne. unfold last_or. destruct (last pre) eqn:Hlast; [done|].
  by apply last_None in Hlast.
Qed.

Lemma word_head_no_space X :
  word_chars X →
  match X with [] => True | c :: _ => Py.is_space c = false end.
Proof.
  destruct X as [|c X]; [done|]. intros [Hc _]%Forall_cons.
  by apply word_not_space.
Qed.

Context (F L : str).
Hypothesis F_nonempty : F ≠ [].
Hypothesis L_nonempty : L ≠ [].
Hypothesis F_word : word_chars F.
Hypothesis L_word : word_chars L.

(** *** "First Last" *)

Lemma titles_start_first_last :
  Py.lower F ∉ titles →
  sub true titles_start "" (F ++ " " ++ L) = F ++ " " ++ L.
Proof using F_word.
  intros HF. apply sub_from_no_match. intros pre suf Heq Hsuf.
  destruct pre as [|x pre].
  - simpl in Heq. subst suf. unfold match_here, titles_start.
    cbn [rmatch last_or last].
    apply words_then_fail; try done.
    + apply titles_lower_letters.
    + intros p c s Hc. by apply title_tail_word.
  - destruct (last_or_some None (x :: pre)) as [c Hc]; [done|].
    unfold match_here, titles_start. cbn [rmatch]. by rewrite Hc.
Qed.

Lemma no_comma_no_match (r : regex) repl s :
  Forall (λ c, chr_eq true "," c = false) s →
  sub true (Seq (Chr ",") r) repl s = s.
Proof.
  intros Hs. apply sub_from_no_match. intros pre suf -> Hsuf.
  apply Forall_app in Hs as [_ Hs]. destruct suf as [|c suf]; [done|].
  apply Forall_cons in Hs as [Hc _].
  unfold match_here. cbn [rmatch]. by rewrite Hc.
Qed.

Lemma titles_after_comma_first_last :
  sub true titles_after_comma ", " (F ++ " " ++ L) = F ++ " " ++ L.
Proof using F_word L_word.
  apply no_comma_no_match. apply Forall_app. split; [|constructor; [done|]].
  - eapply Forall_impl; [exact F_word|]. intros c. apply word_not_comma.
  - eapply Forall_impl; [exact L_word|]. intros c. apply word_not_comma.
Qed.

Lemma suffixes_first_last :
  Py.lower L ∉ suffix_words →
  sub true suffixes "" (F ++ " " ++ L) = F ++ " " ++ L.
Proof using All.
  intros HL. apply sub_from_no_match. intros pre suf Heq Hsuf.
  symmetry in Heq.
  apply (app_eq_app_cons pre suf F " "%char L) in Heq
    as [(A2 & HF & ->)|(B1 & -> & HL')].
  - destruct A2 as [|c A2].
    + rewrite <- (app_nil_r L). by apply (suffixes_fail_space _ L []).
    + destruct pre as [|x pre].
      * simpl in HF. subst F.
        change ((c :: A2) ++ " "%char :: L) with ((c :: A2) ++ (" "%char :: L)).
        apply suffixes_fail_word; try done.
        intros _ p. destruct L as [|l0 L']; [done|].
        apply Forall_cons in L_word as [Hl0 _].
        by apply suffix_tail_space_word.
      * subst F. apply Forall_app in F_word as [Hpre HA2].
        apply Forall_cons in HA2 as [Hc _].
        apply suffixes_fail_inside; [by apply last_or_word|done].
  - rewrite last_or_app_cons. subst L.
    apply Forall_app in L_word as [HB1 Hsuf'].
    destruct B1 as [|b B1].
    + rewrite <- (app_nil_r suf). by apply (suffixes_fail_word _ suf []).
    + destruct suf as [|c suf]; [done|].
      apply Forall_cons in Hsuf' as [Hc _].
      apply suffixes_fail_inside; [by apply last_or_word|done].
Qed.

(** *** "Last, First" *)

Lemma titles_start_last_first :
  sub true titles_start "" (L ++ ", " ++ F) = L ++ ", " ++ F.
Proof using L_word.
  apply sub_from_no_match. intros pre suf Heq Hsuf.
  destruct pre as [|x pre].
  - simpl in Heq. subst suf. unfold match_here, titles_start.
    cbn [rmatch last_or last].
    apply words_then_fail; try done.
    + apply titles_lower_letters.
    + intros p c s Hc. by apply title_tail_word.
  - destruct (last_or_some None (x :: pre)) as [c Hc]; [done|].
    unfold match_here, titles_start. cbn [rmatch]. by rewrite Hc.
Qed.

Lemma titles_after_comma_here prev :
  match_here true titles_after_comma prev (", " ++ F) = None.
Proof using F_nonempty F_word.
  unfold match_here, titles_after_comma. cbn [rmatch star app].
  change (chr_eq true "," ",") with true.
  change (Py.is_space " ") with true. cbv iota.
  rewrite star_no_space by by apply word_head_no_space.
  assert (∀ p c s, Py.is_word c = true →
            rmatch true title_tail p (c :: s) K0 = None) as Htail.
  { intros p c s Hc. by apply title_tail_word. }
  pose proof (words_then_fail titles
                (λ p s, rmatch true title_tail p s K0)
                (Some " "%char) F [] titles_lower_letters F_word I Htail
                (λ _ _, eq_refl)) as H1.
  rewrite app_nil_r in H1. rewrite H1.
  apply (words_then_fail titles _ (Some ","%char) [] (" "%char :: F));
    try done.
  - apply titles_lower_letters.
  - constructor.
  - intros Hin. destruct (not_word_empty _ titles_lower_letters Hin).
Qed.

Lemma titles_after_comma_last_first :
  sub true titles_after_comma ", " (L ++ ", " ++ F) = L ++ ", " ++ F.
Proof using All.
  apply sub_from_no_match. intros pre suf Heq Hsuf.
  symmetry in Heq.
  apply (app_eq_app_cons pre suf L ","%char (" " ++ F)) in Heq
    as [(A2 & HL & ->)|(B1 & -> & HF')].
  - destruct A2 as [|c A2]; [apply titles_after_comma_here|].
    subst L. apply Forall_app in L_word as [_ HA2].
    apply Forall_cons in HA2 as [Hc _].
    unfold match_here, titles_after_comma. cbn [rmatch app].
    by rewrite word_not_comma.
  - destruct B1 as [|b B1].
    + simpl in HF'. subst suf. reflexivity.
    + injection HF' as <- HF'. subst F.
      apply Forall_app in F_word as [_ Hsuf'].
      destruct suf as [|c suf]; [done|].
      apply Forall_cons in Hsuf' as [Hc _].
      unfold match_here, titles_after_comma. cbn [rmatch].
      by rewrite word_not_comma.
Qed.

Lemma suffixes_last_first :
  Py.lower F ∉ suffix_words →
  sub true suffixes "" (L ++ ", " ++ F) = L ++ ", " ++ F.
Proof using All.
  intros HF. apply sub_from_no_match. intros pre suf Heq Hsuf.
  symmetry in Heq.
  apply (app_eq_app_cons pre suf L ","%char (" " ++ F)) in Heq
    as [(A2 & HL & ->)|(B1 & -> & HF')].
  - destruct A2 as [|c A2].
    + rewrite <- (app_nil_r F). by apply (suffixes_fail_comma _ F []).
    + destruct pre as [|x pre].
      * simpl in HL. subst L.
        change ((c :: A2) ++ ","%char :: " " ++ F)
          with ((c :: A2) ++ (","%char :: " "%char :: F)).
        by apply suffixes_fail_word.
      * subst L. apply Forall_app in L_word as [Hpre HA2].
        apply Forall_cons in HA2 as [Hc _].
        apply suffixes_fail_inside; [by apply last_or_word|done].
  - rewrite last_or_app_cons.
    destruct B1 as [|b B1].
    + simpl in HF'. subst suf. rewrite <- (app_nil_r F).
      by apply (suffixes_fail_space _ F []).
    + injection HF' as <- HF'. subst F.
      rewrite (last_or_app_cons _ [] " "%char B1).
      apply Forall_app in F_word as [HB1 Hsuf'].
      destruct B1 as [|b B1].
      * rewrite <- (app_nil_r suf). by apply (suffixes_fail_word _ suf []).
      * destruct suf as [|c suf]; [done|].
        apply Forall_cons in Hsuf' as [Hc _].
        apply suffixes_fail_inside; [by apply last_or_word|done].
Qed.

End PlainNames.

(** ** Splitting and stripping plain words *)

Section Words.

Lemma word_chars_no_space X : word_chars X → no_space X.
Proof.
  intros HX. eapply Forall_impl; [exact HX|]. intros c. apply word_not_space.
Qed.

Lemma word_chars_lower X : word_chars X → word_chars (Py.lower X).
Proof.
  intros HX. apply Forall_fmap. eapply Forall_impl; [exact HX|].
  intros c Hc. simpl. by rewrite is_word_lower_char.
Qed.

Lemma split_app_space X s :
  X ≠ [] → no_space X →
  Py.split (X ++ " "%char :: s) = X :: Py.split s.
Proof.
  intros Hne HX. induction HX as [|c X Hc HX IH]; [done|].
  cbn [app Py.split]. rewrite Hc.
  destruct X as [|c' X'].
  - reflexivity.
  - apply Forall_cons in HX as [Hc' HX']. cbn [app]. rewrite Hc'.
    change (c' :: X' ++ " "%char :: s) with ((c' :: X') ++ " "%char :: s).
    rewrite IH by done. reflexivity.
Qed.

Lemma split_no_space X : X ≠ [] → no_space X → Py.split X = [X].
Proof.
  intros Hne HX. induction HX as [|c X Hc HX IH]; [done|].
  cbn [Py.split]. rewrite Hc.
  destruct X as [|c' X']; [done|].
  apply Forall_cons in HX as [Hc' HX']. rewrite Hc'.
  rewrite IH by done. reflexivity.
Qed.

Lemma lstrip_no_space X : no_space X → Py.lstrip X = X.
Proof. destruct 1 as [|c X Hc _]; [done|]. simpl. by rewrite Hc. Qed.

Lemma rstrip_no_space X : no_space X → Py.rstrip X = X.
Proof.
  intros HX. unfold Py.rstrip.
  rewrite lstrip_no_space; [apply reverse_involutive|].
  by apply Forall_reverse.
Qed.

Lemma strip_no_space X : no_space X → Py.strip X = X.
Proof.
  intros HX. unfold Py.strip. rewrite (lstrip_no_space X) by done.
  by apply rstrip_no_space.
Qed.

Lemma name_punctuation_word X :
  word_chars X → Re.sub false name_punctuation "" X = X.
Proof.
  intros HX. unfold name_punctuation. rewrite sub_class.
  induction HX as [|c X Hc HX IH]; [done|].
  rewrite filter_cons, IH, Hc. done.
Qed.

Lemma word_chars_no_comma X : word_chars X → ","%char ∉ X.
Proof.
  intros HX Hin. unfold word_chars in HX. rewrite Forall_forall in HX.
  by apply HX, word_not_comma_char in Hin.
Qed.

End Words.




(** ** The breadth-first traversal *)

Section Traversal.

Variable n : nat.
Variable G : Dict.dict nat (list (nat * Z)).
Hypothesis G_ok : graph_ok n G.

Lemma edge_sym u v : edge G u v → edge G v u.
Proof using G_ok.
  intros [c Hc]. exists c. by apply (proj1 G_ok) in Hc as (_ & _ & _ & ?).
Qed.

Lemma reach_sym u v : rtc (edge G) u v → rtc (edge G) v u.
Proof using G_ok.
  induction 1 as [|x y z Hxy _ IH]; [done|].
  eapply rtc_r; [exact IH|]. by apply edge_sym.
Qed.

Lemma visit_neighbor_spec start closed st cur v c :
  bfs_inv n G start closed st → cur ∈ visited st → (v, c) ∈ adj G cur →
  bfs_inv n G start closed (visit_neighbor st (v, c))
  ∧ v ∈ visited (visit_neighbor st (v, c))
  ∧ group_indices (visit_neighbor st (v, c)) = group_indices st
  ∧ (∀ x, x ∈ visited st → x ∈ visited (visit_neighbor st (v, c))).
Proof using G_ok.
  intros (Hvis & Hnd & Hstart & Hreach & Hclosed & Hlen & Hconf) Hcur Hvc.
  unfold visit_neighbor. case_bool_decide as Hnew; cbn.
  - split; [|split; [|split]].
    + destruct (proj1 G_ok _ _ _ Hvc) as (_ & Hv & Hc & _).
      split_and!; cbn.
      * rewrite Hvis. by rewrite <- app_assoc.
      * apply NoDup_app. split; [done|]. split; [|apply NoDup_singleton].
        intros x Hx ->%list_elem_of_singleton. done.
      * apply elem_of_app. by left.
      * intros x [Hx| ->%list_elem_of_singleton]%elem_of_app; [by apply Hreach|].
        split; [done|]. eapply rtc_r; [by apply Hreach|]. by exists c.
      * intros u x Hu Hux. apply elem_of_app. left. by eapply Hclosed.
      * rewrite !length_app. simpl. lia.
      * apply Forall_app. split; [done|]. by apply Forall_singleton.
    + apply elem_of_app. right. left.
    + done.
    + intros x Hx. apply elem_of_app. by left.
  - split; [done|]. split; [|done].
    first [done | by apply dec_stable in Hnew].
Qed.

Lemma visit_neighbors_spec start closed cur es st :
  bfs_inv n G start closed st → cur ∈ visited st →
  (∀ e, e ∈ es → e ∈ adj G cur) →
  bfs_inv n G start closed (fold_left visit_neighbor es st)
  ∧ (∀ v c, (v, c) ∈ es → v ∈ visited (fold_left visit_neighbor es st))
  ∧ group_indices (fold_left visit_neighbor es st) = group_indices st
  ∧ (∀ x, x ∈ visited st → x ∈ visited (fold_left visit_neighbor es st)).
Proof using G_ok.
  revert st. induction es as [|[v c] es IH]; intros st Hinv Hcur Hes.
  - split; [done|]. split; [|done]. intros v c Hin. by apply elem_of_nil in Hin.
  - cbn [fold_left].
    destruct (visit_neighbor_spec start closed st cur v c Hinv Hcur)
      as (Hinv1 & Hv1 & Hg1 & Hmono1); [apply Hes; left|].
    destruct (IH (visit_neighbor st (v, c)) Hinv1) as (Hinv2 & Hv2 & Hg2 & Hmono2).
    { by apply Hmono1. }
    { intros e He. apply Hes. by right. }
    split; [done|]. split; [|split].
    + intros v' c' [[= -> ->]|Hin]%elem_of_cons; [by apply Hmono2|by eapply Hv2].
    + by rewrite Hg2.
    + intros x Hx. by apply Hmono2, Hmono1.
Qed.

Lemma visited_bound start closed st :
  bfs_inv n G start closed st → (length (visited st) <= n)%nat.
Proof.
  intros (_ & Hnd & _ & Hreach & _).
  rewrite <- (length_seq n 0). apply submseteq_length, NoDup_submseteq; [done|].
  intros x Hx. apply elem_of_seq. destruct (Hreach x Hx). lia.
Qed.

(** The loop returns, with every index it reached in [group_indices]. *)
Lemma bfs_spec start fuel st :
  bfs_inv n G start (group_indices st) st →
  (n <= fuel + length (group_indices st))%nat →
  ∃ st', bfs fuel G st = Ret st'
         ∧ bfs_inv n G start (group_indices st') st'
         ∧ queue_bfs st' = [].
Proof using G_ok.
  revert st. induction fuel as [|fuel IH]; intros st Hinv Hfuel.
  - destruct (queue_bfs st) as [|cur q] eqn:Hq.
    + exists st. simpl. by rewrite Hq.
    + exfalso. pose proof (visited_bound _ _ _ Hinv) as Hb.
      destruct Hinv as (Hvis & _). rewrite Hvis, Hq, length_app in Hb.
      simpl in *. lia.
  - cbn [bfs]. destruct (queue_bfs st) as [|cur q] eqn:Hq.
    + exists st. by rewrite Hq.
    + set (st1 := {| queue_bfs := q; visited := visited st;
                     group_indices := group_indices st ++ [cur];
                     all_confidences := all_confidences st |}).
      pose proof Hinv as (Hvis & Hnd & Hstart & Hreach & Hclosed & Hlen & Hconf).
      assert (cur ∈ visited st) as Hcur.
      { rewrite Hvis, Hq. apply elem_of_app. right. left. }
      assert (bfs_inv n G start (group_indices st) st1) as Hinv1.
      { split_and!; try done. cbn. rewrite Hvis, Hq. by rewrite <- app_assoc. }
      destruct (visit_neighbors_spec start (group_indices st) cur
                  (adj G cur) st1 Hinv1 Hcur ltac:(done))
        as (Hinv2 & Hadj & Hg2 & Hmono).
      fold (adj G cur).
      set (st2 := fold_left visit_neighbor (adj G cur) st1) in *.
      apply IH.
      * destruct Hinv2 as (Hvis2 & Hnd2 & Hstart2 & Hreach2 & Hclosed2 & Hlen2 & Hconf2).
        split_and!; try done.
        intros u v Hu Huv. rewrite Hg2 in Hu. cbn in Hu.
        apply elem_of_app in Hu as [Hu| ->%list_elem_of_singleton].
        -- by eapply Hclosed2.
        -- destruct Huv as [c Hc]. by eapply Hadj.
      * rewrite Hg2. cbn. rewrite length_app. simpl. lia.
Qed.

(** The traversal from [start] collects the connected component of
    [start]. *)
Lemma bfs_from_start start :
  (start < n)%nat →
  ∃ st, bfs n G {| queue_bfs := [start]; visited := [start];
                   group_indices := []; all_confidences := [] |} = Ret st
        ∧ NoDup (group_indices st)
        ∧ (∀ v, v ∈ group_indices st ↔ rtc (edge G) start v)
        ∧ S (length (all_confidences st)) = length (group_indices st)
        ∧ Forall (λ c, (50 <= c <= 100)%Z) (all_confidences st).
Proof using G_ok.
  intros Hstart.
  destruct (bfs_spec start n
              {| queue_bfs := [start]; visited := [start];
                 group_indices := []; all_confidences := [] |})
    as (st & Hbfs & Hinv & Hq).
  { split_and!; cbn; try done.
    - apply NoDup_singleton.
    - left.
    - intros v ->%list_elem_of_singleton. done.
    - intros u v Hu. by apply elem_of_nil in Hu. }
  { cbn. lia. }
  exists st. split; [done|].
  destruct Hinv as (Hvis & Hnd & Hin & Hreach & Hclosed & Hlen & Hconf).
  rewrite Hq, app_nil_r in Hvis. rewrite Hvis in *.
  split_and!; try done.
  intros v. split; [by apply Hreach|]. revert v.
  apply (rtc_ind_r (λ v, v ∈ group_indices st) start); [done|].
  intros y z _ Hyz IH. by eapply Hclosed.
Qed.

End Traversal.

(** ** Extraction of the groups *)

Section Extraction.

Variable n : nat.
Variable G : Dict.dict nat (list (nat * Z)).
Hypothesis G_ok : graph_ok n G.

Lemma closed_reach (P : list nat) u v :
  (∀ u v, u ∈ P → edge G u v → v ∈ P) →
  u ∈ P → rtc (edge G) u v → v ∈ P.
Proof.
  intros Hclosed Hu Hr. induction Hr as [|x y z Hxy _ IH]; [done|].
  apply IH. by eapply Hclosed.
Qed.

Lemma sum_Z_bounds (l : list Z) :
  Forall (λ c, (50 <= c <= 100)%Z) l →
  (50 * Z.of_nat (length l) <= sum_Z l <= 100 * Z.of_nat (length l))%Z.
Proof.
  induction 1 as [|c l Hc _ IH]; [simpl; lia|].
  unfold sum_Z in *. cbn [foldr length]. lia.
Qed.

Lemma average_bounds (l : list Z) :
  l ≠ [] → Forall (λ c, (50 <= c <= 100)%Z) l →
  (50 <= sum_Z l / Z.of_nat (length l) <= 100)%Z.
Proof.
  intros Hne Hl. pose proof (sum_Z_bounds l Hl) as Hsum.
  assert (0 < Z.of_nat (length l))%Z as Hpos by (destruct l; [done|simpl; lia]).
  split.
  - apply Z.div_le_lower_bound; lia.
  - apply Z.div_le_upper_bound; lia.
Qed.

Lemma extract_groups_spec starts groups processed :
  extract_inv G groups processed →
  (∀ s, s ∈ starts → (s < n)%nat) →
  ∃ gs processed',
    extract_groups n G starts groups processed = Ret gs
    ∧ extract_inv G gs processed'
    ∧ (∀ u, u ∈ processed → u ∈ processed')
    ∧ (∀ s, s ∈ starts → s ∈ processed' ∨ Dict.get G s = None).
Proof using G_ok.
  revert groups processed.
  induction starts as [|s starts IH]; intros groups processed Hinv Hstarts.
  - exists groups, processed. split; [done|]. split; [done|]. split; [done|].
    intros s Hs. by apply elem_of_nil in Hs.
  - assert (∀ s', s' ∈ starts → (s' < n)%nat) as Hstarts'.
    { intros s' Hs'. apply Hstarts. by right. }
    cbn [extract_groups].
    destruct (bool_decide (s ∈ processed)
              || bool_decide (Dict.get G s = None)) eqn:Hskip.
    + destruct (IH groups processed Hinv Hstarts')
        as (gs & processed' & Hrun & Hinv' & Hmono & Hdone).
      exists gs, processed'. split; [done|]. split; [done|]. split; [done|].
      intros s' [->|Hs']%elem_of_cons; [|by apply Hdone].
      apply orb_true_iff in Hskip as [Hp%bool_decide_eq_true|Hk%bool_decide_eq_true].
      * left. by apply Hmono.
      * by right.
    + apply orb_false_iff in Hskip as [Hnp%bool_decide_eq_false _].
      destruct (bfs_from_start n G G_ok s) as (st & Hbfs & Hnd & Hcomp & Hlen & Hconf).
      { apply Hstarts. left. }
      rewrite Hbfs. cbn [mbind res_bind bind].
      set (R := group_indices st) in *.
      assert (s ∈ R) as HsR by by apply Hcomp.
      destruct Hinv as (Hclosed & Hgroups & Hnodup & Hdisj & Hcover).
      assert (∀ u v, u ∈ processed ++ R → edge G u v → v ∈ processed ++ R)
        as Hclosed2.
      { intros u v [Hu|Hu]%elem_of_app Huv; apply elem_of_app.
        - left. by eapply Hclosed.
        - right. apply Hcomp. eapply rtc_r; [by apply Hcomp|done]. }
      assert (∀ i, i ∈ R → i ∉ processed) as Hfresh.
      { intros i Hi Hip. apply Hnp.
        apply (closed_reach processed i s Hclosed Hip).
        by apply (reach_sym n G G_ok), Hcomp. }
      destruct (1 <? length R)%nat eqn:Hsize.
      * apply Nat.ltb_lt in Hsize.
        set (g := {| indices := R; confidence := _ |}).
        assert (g ∉ groups) as Hg.
        { intros Hin. apply (Hfresh s HsR).
          by apply (proj1 (Hgroups g Hin)). }
        destruct (IH (groups ++ [g]) (processed ++ R))
          as (gs & processed' & Hrun & Hinv' & Hmono & Hdone); [|done|].
        { split_and!.
          - done.
          - intros g' [Hg'| ->%list_elem_of_singleton]%elem_of_app.
            + destruct (Hgroups g' Hg') as (Hsub & Hrest).
              split; [|exact Hrest].
              intros i Hi. apply elem_of_app. left. by apply Hsub.
            + unfold g. cbn [indices confidence].
              split; [|split; [lia|split; [done|split; [|by exists s]]]].
              * intros i Hi. apply elem_of_app. by right.
              * destruct (all_confidences st) as [|c cs] eqn:Hcs; [lia|].
                by apply average_bounds.
          - apply NoDup_app. split; [done|]. split; [|apply NoDup_singleton].
            intros g' Hg' ->%list_elem_of_singleton. done.
          - intros g1 g2 i [Hg1| ->%list_elem_of_singleton]%elem_of_app
              [Hg2| ->%list_elem_of_singleton]%elem_of_app Hi1 Hi2.
            + by eapply Hdisj.
            + exfalso. apply (Hfresh i Hi2).
              by apply (proj1 (Hgroups g1 Hg1)).
            + exfalso. apply (Hfresh i Hi1).
              by apply (proj1 (Hgroups g2 Hg2)).
            + done.
          - intros u [Hu|Hu]%elem_of_app.
            + destruct (Hcover u Hu) as [(g' & Hg' & Hug')|Hloop]; [|by right].
              left. exists g'. split; [|done]. apply elem_of_app. by left.
            + left. exists g. split; [|done]. apply elem_of_app. right. left. }
        exists gs, processed'. split; [done|]. split; [done|]. split.
        -- intros u Hu. apply Hmono, elem_of_app. by left.
        -- intros s' [->|Hs']%elem_of_cons; [|by apply Hdone].
           left. apply Hmono, elem_of_app. by right.
      * apply Nat.ltb_ge in Hsize.
        assert (∀ x, x ∈ R → x = s) as Honly.
        { intros x Hx. destruct R as [|r0 [|r1 R']]; [by apply elem_of_nil in Hx| |simpl in Hsize; lia].
          apply list_elem_of_singleton in Hx, HsR. congruence. }
        destruct (IH groups (processed ++ R))
          as (gs & processed' & Hrun & Hinv' & Hmono & Hdone); [|done|].
        { split_and!; try done.
          - intros g' Hg'. destruct (Hgroups g' Hg') as (Hsub & Hrest).
            split; [|exact Hrest].
            intros i Hi. apply elem_of_app. left. by apply Hsub.
          - intros u [Hu|Hu]%elem_of_app; [by apply Hcover|].
            right. intros v Huv. apply Honly in Hu as ->.
            apply Honly, Hcomp. by apply rtc_once. }
        exists gs, processed'. split; [done|]. split; [done|]. split.
        -- intros u Hu. apply Hmono, elem_of_app. by left.
        -- intros s' [->|Hs']%elem_of_cons; [|by apply Hdone].
           left. apply Hmono, elem_of_app. by right.
Qed.

(** The groups found over the whole range of indices. *)
Lemma extract_all_groups :
  ∃ gs processed,
    extract_groups n G (seq 0 n) [] [] = Ret gs
    ∧ extract_inv G gs processed
    ∧ (∀ u v, edge G u v → u ≠ v → ∃ g, g ∈ gs ∧ u ∈ indices g).
Proof using G_ok.
  destruct (extract_groups_spec (seq 0 n) [] [])
    as (gs & processed & Hrun & Hinv & _ & Hdone).
  { split_and!.
    - intros u v Hu. by apply elem_of_nil in Hu.
    - intros g Hg. by apply elem_of_nil in Hg.
    - constructor.
    - intros g1 g2 i Hg1. by apply elem_of_nil in Hg1.
    - intros u Hu. by apply elem_of_nil in Hu. }
  { intros s Hs%elem_of_seq. lia. }
  exists gs, processed. split; [done|]. split; [done|].
  intros u v [c Hc] Hne.
  destruct (proj1 G_ok u v c Hc) as (Hu & _).
  destruct (Hdone u) as [Hp|Hk].
  { apply elem_of_seq. lia. }
  - destruct Hinv as (_ & _ & _ & _ & Hcover).
    destruct (Hcover u Hp) as [?|Hloop]; [done|].
    exfalso. apply Hne. symmetry. apply Hloop. by exists c.
  - unfold adj, Dict.get_default in Hc. rewrite Hk in Hc.
    by apply elem_of_nil in Hc.
Qed.

End Extraction.

(** ** Sorting the groups *)

Lemma insert_group_perm g gs : insert_group g gs ≡ₚ g :: gs.
Proof.
  induction gs as [|h gs IH]; [done|]. simpl.
  destruct (confidence h <=? confidence g)%Z; [done|].
  rewrite IH. apply Permutation_swap.
Qed.

Lemma sort_groups_perm gs : sort_groups gs ≡ₚ gs.
Proof.
  induction gs as [|g gs IH]; [done|]. unfold sort_groups in *. simpl.
  by rewrite insert_group_perm, IH.
Qed.

(** ** Dictionaries *)

Section DictFacts.

Context {K V : Type} `{EqDecision K}.
Implicit Types (d : Dict.dict K V) (k : K) (v : V).

Lemma dict_get_set_eq d k v : Dict.get (Dict.set k v d) k = Some v.
Proof.
  induction d as [|[k' v'] d IH]; simpl.
  - by rewrite decide_True.
  - destruct (decide (k' = k)) as [->|Hne]; simpl.
    + by rewrite decide_True.
    + by rewrite decide_False.
Qed.

Lemma dict_get_set_ne d k k' v :
  k ≠ k' → Dict.get (Dict.set k v d) k' = Dict.get d k'.
Proof.
  intros Hne. induction d as [|[k0 v0] d IH]; simpl.
  - by rewrite decide_False.
  - destruct (decide (k0 = k)) as [->|Hne0]; simpl.
    + by rewrite !decide_False.
    + destruct (decide (k0 = k')); [done|apply IH].
Qed.

Lemma dict_keys_set d k v :
  ∀ x, x ∈ Dict.keys (Dict.set k v d) ↔ x = k ∨ x ∈ Dict.keys d.
Proof.
  unfold Dict.keys. induction d as [|[k' v'] d IH]; intros x; simpl.
  - rewrite list_elem_of_singleton, elem_of_nil. tauto.
  - destruct (decide (k' = k)) as [->|Hne]; simpl.
    + rewrite !elem_of_cons. tauto.
    + rewrite !elem_of_cons, IH. tauto.
Qed.

Lemma dict_keys_set_NoDup d k v :
  NoDup (Dict.keys d) → NoDup (Dict.keys (Dict.set k v d)).
Proof.
  unfold Dict.keys. induction d as [|[k' v'] d IH]; simpl.
  - intros _. apply NoDup_singleton.
  - intros [Hk' Hd]%NoDup_cons.
    destruct (decide (k' = k)) as [->|Hne]; simpl.
    + by apply NoDup_cons.
    + apply NoDup_cons. split; [|by apply IH].
      intros [?|?]%dict_keys_set; [congruence|done].
Qed.

Lemma dict_get_None d k : Dict.get d k = None ↔ k ∉ Dict.keys d.
Proof.
  unfold Dict.keys. induction d as [|[k' v'] d IH]; simpl.
  - split; [intros _; apply not_elem_of_nil|done].
  - destruct (decide (k' = k)) as [->|Hne].
    + split; [done|]. intros Hn. exfalso. apply Hn. left.
    + rewrite IH, not_elem_of_cons.
      split; [intros ?; split; [congruence|done]|by intros [_ ?]].
Qed.

Lemma dict_values_get d v :
  NoDup (Dict.keys d) →
  v ∈ Dict.values d ↔ ∃ k, Dict.get d k = Some v.
Proof.
  unfold Dict.keys, Dict.values. induction d as [|[k' v'] d IH]; simpl.
  - intros _. rewrite elem_of_nil. split; [done|by intros [k ?]].
  - intros [Hk' Hd]%NoDup_cons. rewrite elem_of_cons, (IH Hd). split.
    + intros [->|[k Hk]].
      * exists k'. by rewrite decide_True.
      * exists k. rewrite decide_False; [done|]. intros ->.
        apply Hk'. fold (Dict.keys d). apply dec_stable. intros Hn.
        apply dict_get_None in Hn. congruence.
    + intros [k Hk]. destruct (decide (k' = k)); [left; congruence|].
      right. by exists k.
Qed.

End DictFacts.

Section BucketFacts.

Context {K V : Type} `{EqDecision K}.
Implicit Types (d : Dict.dict K (list V)) (k : K) (v : V).

Lemma bucket_append_eq d k v :
  bucket (bucket_append d k v) k = bucket d k ++ [v].
Proof.
  unfold bucket, bucket_append, Dict.get_default.
  by rewrite dict_get_set_eq.
Qed.

Lemma bucket_append_ne d k k' v :
  k ≠ k' → bucket (bucket_append d k v) k' = bucket d k'.
Proof.
  intros Hne. unfold bucket, bucket_append, Dict.get_default.
  by rewrite dict_get_set_ne.
Qed.

Lemma bucket_append_ok d k v : dict_ok d → dict_ok (bucket_append d k v).
Proof.
  intros [Hnd Hne]. split; [by apply dict_keys_set_NoDup|].
  intros k'. unfold bucket_append.
  destruct (decide (k = k')) as [->|Hkk'].
  - rewrite dict_get_set_eq. intros [= Heq]. by destruct (Dict.get_default _ _ _).
  - rewrite dict_get_set_ne by done. apply Hne.
Qed.

(** With no empty bucket, the buckets of a dictionary are the non-empty
    values of [bucket]. *)
Lemma dict_values_bucket d l :
  dict_ok d → l ∈ Dict.values d ↔ l ≠ [] ∧ ∃ k, bucket d k = l.
Proof.
  intros [Hnd Hne]. rewrite dict_values_get by done.
  unfold bucket, Dict.get_default. split.
  - intros [k Hk]. split; [intros ->; by apply (Hne k)|].
    exists k. by rewrite Hk.
  - intros [Hl [k Hk]]. exists k.
    destruct (Dict.get d k); [congruence|]. by subst l.
Qed.

Lemma dict_ok_nil : dict_ok (@nil (K * list V)).
Proof. split; [constructor|done]. Qed.

End BucketFacts.

(** ** Construction of the match graph *)

Section Graph.

Variable ratio : str → str → Q.
Variable cs : list VCardContact.

Lemma evaluate_pair_spec G i j ci cj :
  cs !! i = Some ci → cs !! j = Some cj →
  ∃ G', evaluate_pair ratio cs G (i, j) = Ret G'
        ∧ (dict_ok G → dict_ok G')
        ∧ ∀ u v c,
            (v, c) ∈ adj G' u ↔
            (v, c) ∈ adj G u ∨ pair_edge ratio cs [(i, j)] u v c.
Proof.
  intros Hi Hj. unfold evaluate_pair, index. rewrite Hi, Hj.
  cbn [mbind res_bind bind].
  assert (∀ u v c, pair_edge ratio cs [(i, j)] u v c ↔
            c = calculate_match_confidence ratio ci cj ∧ (50 <= c)%Z
            ∧ ((u = i ∧ v = j) ∨ (u = j ∧ v = i))) as Hpe.
  { intros u v c. split.
    - intros (i' & j' & ci' & cj' & [= <- <-]%list_elem_of_singleton
              & Hi' & Hj' & Hc & H50 & Huv).
      rewrite Hi in Hi'. rewrite Hj in Hj'.
      injection Hi' as <-. injection Hj' as <-. done.
    - intros (Hc & H50 & Huv). exists i, j, ci, cj.
      split; [by apply list_elem_of_singleton|done]. }
  destruct (50 <=? calculate_match_confidence ratio ci cj)%Z eqn:H50.
  - apply Z.leb_le in H50. eexists. split; [reflexivity|].
    split; [intros Hok; by do 2 apply bucket_append_ok|].
    intros u v c. rewrite Hpe.
    change (adj ?g u) with (bucket g u).
    destruct (decide (j = u)) as [->|Hju];
      [rewrite bucket_append_eq, elem_of_app, list_elem_of_singleton
      |rewrite bucket_append_ne by done];
      (destruct (decide (i = u)) as [->|Hiu];
       [rewrite bucket_append_eq, elem_of_app, list_elem_of_singleton
       |rewrite bucket_append_ne by done]).
    all: assert (∀ a b, (v, c) = (a, b) ↔ v = a ∧ c = b) as Hpair
      by (intros a b; split; [by intros [= -> ->]|by intros [-> ->]]).
    all: rewrite ?Hpair; clear Hpair Hpe; intuition congruence.
  - apply Z.leb_gt in H50. exists G. split; [done|]. split; [done|].
    intros u v c. rewrite Hpe. split; [eauto|].
    intros [?|(-> & ? & _)]; [done|lia].
Qed.

Lemma pair_edge_cons p ps u v c :
  pair_edge ratio cs (p :: ps) u v c ↔
  pair_edge ratio cs [p] u v c ∨ pair_edge ratio cs ps u v c.
Proof.
  unfold pair_edge. split.
  - intros (i & j & ci & cj & [Heq|Hin]%elem_of_cons & Hrest).
    + left. exists i, j, ci, cj. split; [by apply list_elem_of_singleton|done].
    + right. exists i, j, ci, cj. done.
  - intros [(i & j & ci & cj & Heq%list_elem_of_singleton & Hrest)
           |(i & j & ci & cj & Hin & Hrest)];
      exists i, j, ci, cj; (split; [|done]); [subst p; left|by right].
Qed.

Lemma build_graph_spec ps G :
  (∀ i j, (i, j) ∈ ps → (i < length cs)%nat ∧ (j < length cs)%nat) →
  ∃ G', build_graph ratio cs ps G = Ret G'
        ∧ (dict_ok G → dict_ok G')
        ∧ ∀ u v c,
            (v, c) ∈ adj G' u ↔ (v, c) ∈ adj G u ∨ pair_edge ratio cs ps u v c.
Proof.
  revert G. induction ps as [|[i j] ps IH]; intros G Hrange.
  - exists G. split; [done|]. split; [done|]. intros u v c. split; [eauto|].
    intros [?|(i & j & _ & _ & Hin & _)]; [done|by apply elem_of_nil in Hin].
  - destruct (Hrange i j) as [Hi Hj]; [left|].
    apply lookup_lt_is_Some in Hi as [ci Hi], Hj as [cj Hj].
    destruct (evaluate_pair_spec G i j ci cj Hi Hj) as (G1 & Hrun1 & Hok1 & Hadj1).
    destruct (IH G1) as (G2 & Hrun2 & Hok2 & Hadj2).
    { intros i' j' Hin. apply Hrange. by right. }
    exists G2. cbn [build_graph]. rewrite Hrun1. cbn [mbind res_bind bind].
    split; [done|]. split; [by intros ?; apply Hok2, Hok1|].
    intros u v c. rewrite Hadj2, Hadj1, (pair_edge_cons (i, j) ps). tauto.
Qed.

(** The graph built from a list of in-range pairs is a match graph. *)
Lemma build_graph_ok ps :
  (∀ i j, (i, j) ∈ ps → (i < length cs)%nat ∧ (j < length cs)%nat) →
  ∃ G, build_graph ratio cs ps [] = Ret G
       ∧ graph_ok (length cs) G
       ∧ ∀ u v c, (v, c) ∈ adj G u ↔ pair_edge ratio cs ps u v c.
Proof.
  intros Hrange. destruct (build_graph_spec ps [] Hrange) as (G & Hrun & Hok & Hadj).
  assert (∀ u v c, (v, c) ∈ adj G u ↔ pair_edge ratio cs ps u v c) as Hadj'.
  { intros u v c. rewrite Hadj. split; [|by right].
    intros [Hin|?]; [|done]. by apply elem_of_nil in Hin. }
  exists G. split; [done|]. split; [|done]. split.
  - intros u v c Hin. pose proof Hin as Hpe. apply Hadj' in Hpe.
    destruct Hpe as (i & j & ci & cj & Hp & Hi & Hj & Hc & H50 & Huv).
    destruct (Hrange i j Hp) as [Hin_i Hin_j].
    assert (c <= 100)%Z as H100.
    { subst c. unfold calculate_match_confidence. cbv zeta. lia. }
    assert ((u, c) ∈ adj G v) as Hsym.
    { apply Hadj'. exists i, j, ci, cj. split_and!; try done. tauto. }
    destruct Huv as [[-> ->]|[-> ->]]; done.
  - intros u Hu. by apply (proj2 (Hok dict_ok_nil) u).
Qed.

End Graph.

(** ** Phase 1: the buckets *)

Section Buckets.

Implicit Types (d : Dict.dict str (list nat)) (k : str).

Lemma append_keys_spec ks i d k :
  dict_ok d →
  dict_ok (fold_left (λ d k', bucket_append d k' i) ks d)
  ∧ bucket (fold_left (λ d k', bucket_append d k' i) ks d) k
    = bucket d k ++ replicate (length (filter (λ x, x = k) ks)) i.
Proof.
  revert d. induction ks as [|k0 ks IH]; intros d Hok; cbn [fold_left].
  - split; [done|]. by rewrite app_nil_r.
  - destruct (IH (bucket_append d k0 i)) as [Hok' Hb]; [by apply bucket_append_ok|].
    split; [done|]. rewrite Hb, filter_cons.
    destruct (decide (k0 = k)) as [->|Hne].
    + rewrite bucket_append_eq, <- app_assoc. done.
    + by rewrite bucket_append_ne.
Qed.

Lemma fill_spec keys ics d k :
  dict_ok d →
  dict_ok (fill keys ics d)
  ∧ bucket (fill keys ics d) k = bucket d k ++ filed keys k ics.
Proof.
  revert d. induction ics as [|[i c] ics IH]; intros d Hok.
  - split; [done|]. unfold filed. simpl. by rewrite app_nil_r.
  - unfold fill, filed in *. cbn [fold_left flat_map fst snd].
    destruct (append_keys_spec (keys c) i d k Hok) as [Hok1 Hb1].
    destruct (IH _ Hok1) as [Hok2 Hb2].
    split; [done|]. by rewrite Hb2, Hb1, <- app_assoc.
Qed.

Lemma fold_left_flat_map {A B C} (f : A → B → A) (g : C → list B) l a :
  fold_left f (flat_map g l) a
  = fold_left (λ a x, fold_left f (g x) a) l a.
Proof.
  revert a. induction l as [|x l IH]; intros a; [done|].
  simpl. by rewrite fold_left_app, IH.
Qed.

Lemma fold_left_filter {A B} (f : A → B → A) (P : B → bool) l a :
  fold_left f (filter (λ x, Is_true (P x)) l) a
  = fold_left (λ a x, if P x then f a x else a) l a.
Proof.
  revert a. induction l as [|x l IH]; intros a; [done|].
  rewrite filter_cons. simpl. destruct (P x); simpl; by rewrite IH.
Qed.

(** The loop body files the contact in each dictionary under its keys. *)
Lemma index_contact_bucket T b i c :
  bucket_of T (index_contact b (i, c))
  = fold_left (λ d k, bucket_append d k i) (bucket_keys T c) (bucket_of T b).
Proof.
  unfold index_contact, bucket_keys.
  destruct (get_parsed_name c) as [[first last] norm].
  destruct T; cbn [bucket_of].
  - rewrite fold_left_filter.
    by destruct (Py.truthy first && Py.truthy last).
  - rewrite fold_left_flat_map.
    assert (∀ l d,
      fold_left (λ d phone,
        let d0 := if (7 <=? length phone)%nat
                  then bucket_append d (Py.last_n 7 phone) i else d in
        if (10 <=? length phone)%nat
        then bucket_append d0 (Py.last_n 10 phone) i else d0) l d
      = fold_left (λ a x, fold_left (λ d k, bucket_append d k i)
                            (phone_keys x) a) l d) as Hphones.
    { induction l as [|p l IH]; intros d; [done|]. cbn [fold_left].
      rewrite IH. f_equal. unfold phone_keys.
      by destruct (7 <=? length p)%nat, (10 <=? length p)%nat. }
    rewrite <- Hphones.
    by destruct (Py.truthy first && Py.truthy last).
  - by destruct (Py.truthy first && Py.truthy last).
  - by destruct (Py.truthy first && Py.truthy last).
  - by destruct (Py.truthy first), (Py.truthy last),
      (Py.truthy (soundex first)), (Py.truthy (soundex last)).
  - by destruct (Py.truthy first), (Py.truthy last).
Qed.

Lemma build_buckets_fill T ics b :
  bucket_of T (fold_left index_contact ics b)
  = fill (bucket_keys T) ics (bucket_of T b).
Proof.
  revert b. induction ics as [|[i c] ics IH]; intros b; [done|].
  cbn [fold_left]. rewrite IH, index_contact_bucket. done.
Qed.

Lemma enumerate_lookup {A} (l : list A) i x :
  (i, x) ∈ enumerate l ↔ l !! i = Some x.
Proof.
  unfold enumerate. rewrite list_elem_of_lookup. split.
  - intros [j Hj]. rewrite list_lookup_imap in Hj.
    destruct (l !! j) as [y|] eqn:Hy; simpl in Hj; [|done].
    by injection Hj as -> ->.
  - intros Hi. exists i. by rewrite list_lookup_imap, Hi.
Qed.

Lemma enumerate_snd {A} (l : list A) : (enumerate l).*2 = l.
Proof.
  unfold enumerate. apply list_eq. intros i.
  rewrite list_lookup_fmap, list_lookup_imap. by destruct (l !! i).
Qed.

Lemma elem_of_filed keys k ics u :
  u ∈ filed keys k ics ↔ ∃ c, (u, c) ∈ ics ∧ k ∈ keys c.
Proof.
  unfold filed. rewrite list_elem_of_In, in_flat_map. split.
  - intros ([i c] & Hin & Hu). apply list_elem_of_In in Hin, Hu.
    apply elem_of_replicate in Hu as [-> Hlen]. exists c. split; [done|].
    cbn [snd] in Hlen. destruct (filter _ (keys c)) as [|x l] eqn:Hf; [done|].
    assert (x ∈ filter (λ x, x = k) (keys c)) as Hx by (rewrite Hf; left).
    by apply list_elem_of_filter in Hx as [-> ?].
  - intros (c & Hin & Hk). exists (u, c). split; [by apply list_elem_of_In|].
    apply list_elem_of_In, elem_of_replicate. split; [done|]. cbn [snd].
    assert (k ∈ filter (λ x, x = k) (keys c)) as Hx
      by by apply list_elem_of_filter.
    intros Hlen. destruct (filter _ (keys c)); [by apply elem_of_nil in Hx|done].
Qed.

Lemma length_filed keys k ics :
  length (filed keys k ics) = key_total keys k ics.*2.
Proof.
  unfold filed, key_total. induction ics as [|[i c] ics IH]; [done|].
  cbn [flat_map fmap list_fmap snd fst].
  rewrite length_app, length_replicate, IH.
  change (flat_map keys (c :: ics.*2)) with (keys c ++ flat_map keys ics.*2).
  by rewrite filter_app, length_app.
Qed.

(** The buckets of the dictionary of kind [T] over the contacts [cs]. *)
Lemma buckets_of_contacts T cs :
  dict_ok (bucket_of T (build_buckets cs))
  ∧ ∀ k, bucket (bucket_of T (build_buckets cs)) k
         = filed (bucket_keys T) k (enumerate cs).
Proof.
  unfold build_buckets.
  assert (bucket_of T no_buckets = []) as Hnil by by destruct T.
  split.
  - rewrite build_buckets_fill, Hnil. apply fill_spec, dict_ok_nil. exact "".
  - intros k. rewrite build_buckets_fill, Hnil.
    by rewrite (proj2 (fill_spec _ _ [] k dict_ok_nil)).
Qed.

End Buckets.

(** ** Phase 2: the candidate pairs *)

Section Candidates.

Lemma elem_of_pairs_of_cons a l p :
  p ∈ pairs_of (a :: l) ↔
  (∃ b, b ∈ l ∧ p = (a `min` b, a `max` b)) ∨ p ∈ pairs_of l.
Proof.
  cbn [pairs_of]. rewrite elem_of_app, list_elem_of_In, in_map_iff.
  split.
  - intros [(b & <- & Hb)|?]; [left|by right].
    exists b. by rewrite list_elem_of_In.
  - intros [(b & Hb & ->)|?]; [left|by right].
    exists b. by rewrite <- list_elem_of_In.
Qed.

Lemma pairs_of_members l x y :
  (x, y) ∈ pairs_of l → x ∈ l ∧ y ∈ l ∧ (x <= y)%nat.
Proof.
  induction l as [|a l IH]; [by intros ?%elem_of_nil|].
  intros [(b & Hb & [= -> ->])|Hin]%elem_of_pairs_of_cons.
  - split_and!; [..|lia].
    + destruct (Nat.min_spec a b) as [[_ ->]|[_ ->]]; [left|by right].
    + destruct (Nat.max_spec a b) as [[_ ->]|[_ ->]]; [by right|left].
  - destruct (IH Hin) as (? & ? & ?). split_and!; [by right..|done].
Qed.

Lemma pairs_of_distinct l u v :
  u ∈ l → v ∈ l → u ≠ v → (u `min` v, u `max` v) ∈ pairs_of l.
Proof.
  induction l as [|a l IH]; [by intros ?%elem_of_nil|].
  intros [->|Hu]%elem_of_cons [->|Hv]%elem_of_cons Hne;
    apply elem_of_pairs_of_cons.
  - done.
  - left. by exists v.
  - left. exists u. split; [done|]. by rewrite Nat.min_comm, Nat.max_comm.
  - right. by apply IH.
Qed.

Lemma elem_of_set_adds {A} `{EqDecision A} (xs s : list A) p :
  p ∈ fold_left set_add xs s ↔ p ∈ s ∨ p ∈ xs.
Proof.
  revert s. induction xs as [|x xs IH]; intros s; cbn [fold_left].
  - rewrite elem_of_nil. tauto.
  - rewrite IH, elem_of_cons. unfold set_add. case_bool_decide.
    + split; [tauto|]. intros [?|[->|?]]; tauto.
    + rewrite elem_of_app, list_elem_of_singleton. tauto.
Qed.

Lemma elem_of_add_bucket_pairs cap d ps p :
  p ∈ add_bucket_pairs cap d ps ↔
  p ∈ ps ∨ ∃ l, l ∈ Dict.values d ∧ size_ok cap (length l) ∧ p ∈ pairs_of l.
Proof.
  unfold add_bucket_pairs. generalize (Dict.values d). clear d.
  intros ls. revert ps. induction ls as [|l ls IH]; intros ps; cbn [fold_left].
  - split; [by left|]. intros [?|(l & Hl & _)]; [done|by apply elem_of_nil in Hl].
  - rewrite IH.
    assert ((1 <? length l)%nat
            && match cap with
               | Some m => (length l <=? m)%nat
               | None => true
               end = true ↔ size_ok cap (length l)) as Hsize.
    { unfold size_ok. rewrite andb_true_iff, Nat.ltb_lt.
      destruct cap; [by rewrite Nat.leb_le|tauto]. }
    destruct (_ && _).
    + rewrite elem_of_set_adds. split.
      * intros [[?|?]|(l' & Hl' & ?)]; [by left| |].
        -- right. exists l. split; [left|]. split; [by apply Hsize|done].
        -- right. exists l'. split; [by right|done].
      * intros [?|(l' & [->|Hl']%elem_of_cons & Hs & Hp)]; [tauto|tauto|].
        right. by exists l'.
    + split.
      * intros [?|(l' & Hl' & ?)]; [by left|].
        right. exists l'. split; [by right|done].
      * intros [?|(l' & [->|Hl']%elem_of_cons & Hs & Hp)]; [by left| |].
        -- apply Hsize in Hs. done.
        -- right. by exists l'.
Qed.

Lemma elem_of_candidate_pairs b p :
  p ∈ candidate_pairs_of b ↔
  ∃ T l, l ∈ Dict.values (bucket_of T b)
         ∧ size_ok (bucket_cap T) (length l) ∧ p ∈ pairs_of l.
Proof.
  unfold candidate_pairs_of. cbv zeta.
  rewrite !elem_of_add_bucket_pairs, elem_of_nil. split.
  - intros [[[[[[[]|Hl]|Hl]|Hl]|Hl]|Hl]|Hl];
      [exists EmailBucket|exists PhoneBucket|exists CanonicalBucket
      |exists NicknameBucket|exists SoundexBucket|exists LastNameBucket];
      exact Hl.
  - intros ([] & Hl); cbn [bucket_of bucket_cap] in Hl; tauto.
Qed.

Variable cs : list VCardContact.

Lemma filed_in_range T k u :
  u ∈ filed (bucket_keys T) k (enumerate cs) ↔
  ∃ c, cs !! u = Some c ∧ k ∈ bucket_keys T c.
Proof.
  rewrite elem_of_filed. by setoid_rewrite enumerate_lookup.
Qed.

(** A bucket that phase 2 expands, seen from the contacts. *)
Lemma expanded_bucket T l :
  l ∈ Dict.values (bucket_of T (build_buckets cs))
  ∧ size_ok (bucket_cap T) (length l) ↔
  ∃ k, l = filed (bucket_keys T) k (enumerate cs)
       ∧ size_ok (bucket_cap T) (key_total (bucket_keys T) k cs).
Proof.
  destruct (buckets_of_contacts T cs) as [Hok Hb].
  rewrite dict_values_bucket by done. split.
  - intros [[Hne [k Hk]] Hsize]. exists k. rewrite Hb in Hk. subst l.
    split; [done|]. by rewrite length_filed, enumerate_snd in Hsize.
  - intros (k & -> & Hsize). rewrite <- (enumerate_snd cs) in Hsize at 1.
    rewrite <- length_filed in Hsize. split; [|done]. split.
    + intros Hnil. rewrite Hnil in Hsize. destruct Hsize as [Hlt _].
      simpl in Hlt. lia.
    + exists k. apply Hb.
Qed.

Lemma candidate_pairs_range i j :
  (i, j) ∈ candidate_pairs_of (build_buckets cs) →
  (i < length cs)%nat ∧ (j < length cs)%nat ∧ (i <= j)%nat.
Proof.
  intros (T & l & Hl & Hsize & Hp)%elem_of_candidate_pairs.
  destruct (proj1 (expanded_bucket T l) (conj Hl Hsize)) as (k & -> & _).
  apply pairs_of_members in Hp as (Hi & Hj & Hle).
  apply filed_in_range in Hi as (ci & Hi & _), Hj as (cj & Hj & _).
  apply lookup_lt_Some in Hi, Hj. done.
Qed.

(** Two different contacts form a candidate pair exactly when they share
    a bucket that phase 2 expands. *)
Lemma candidate_pairs_linked u v :
  u ≠ v →
  (u `min` v, u `max` v) ∈ candidate_pairs_of (build_buckets cs) ↔
  ∃ cu cv, cs !! u = Some cu ∧ cs !! v = Some cv ∧ linked cs cu cv.
Proof.
  intros Hne. rewrite elem_of_candidate_pairs. split.
  - intros (T & l & Hl & Hsize & Hp).
    destruct (proj1 (expanded_bucket T l) (conj Hl Hsize)) as (k & -> & Hsize').
    apply pairs_of_members in Hp as (Hi & Hj & _).
    assert (u ∈ filed (bucket_keys T) k (enumerate cs)
            ∧ v ∈ filed (bucket_keys T) k (enumerate cs)) as [Hu Hv].
    { destruct (Nat.min_spec u v) as [[_ Hmin]|[_ Hmin]],
        (Nat.max_spec u v) as [[_ Hmax]|[_ Hmax]];
        rewrite Hmin in Hi; rewrite Hmax in Hj; try done; lia. }
    apply filed_in_range in Hu as (cu & Hu & Hku), Hv as (cv & Hv & Hkv).
    exists cu, cv. split; [done|]. split; [done|]. by exists T, k.
  - intros (cu & cv & Hu & Hv & T & k & Hku & Hkv & Hsize).
    exists T, (filed (bucket_keys T) k (enumerate cs)).
    assert (u ∈ filed (bucket_keys T) k (enumerate cs)) as Hu'
      by (apply filed_in_range; eauto).
    assert (v ∈ filed (bucket_keys T) k (enumerate cs)) as Hv'
      by (apply filed_in_range; eauto).
    assert (filed (bucket_keys T) k (enumerate cs)
              ∈ Dict.values (bucket_of T (build_buckets cs))
            ∧ size_ok (bucket_cap T)
                (length (filed (bucket_keys T) k (enumerate cs))))
      as [Hl Hs] by (apply expanded_bucket; by exists k).
    split; [done|]. split; [done|]. by apply pairs_of_distinct.
Qed.

End Candidates.

(** ** The clustering pass as a whole *)

Section Clustering.

Variable ratio : str → str → Q.
Variable set_order : list (nat * nat) → list (nat * nat).
Hypothesis set_order_enum : enumeration set_order.

(** The run of [find_similar_groups]: the graph, the groups before they
    are sorted, and what relates them. *)
Lemma find_similar_groups_run cs :
  ∃ G gs processed,
    graph_ok (length cs) G
    ∧ (∀ u v c,
         (v, c) ∈ adj G u ↔
         pair_edge ratio cs (candidate_pairs_of (build_buckets cs)) u v c)
    ∧ extract_inv G gs processed
    ∧ (∀ u v, edge G u v → u ≠ v → ∃ g, g ∈ gs ∧ u ∈ indices g)
    ∧ find_similar_groups ratio set_order cs = Ret (sort_groups gs).
Proof using set_order_enum.
  set (cand := candidate_pairs_of (build_buckets cs)).
  assert (∀ p, p ∈ set_order cand ↔ p ∈ cand) as Hmem.
  { intros p. by rewrite (set_order_enum cand). }
  destruct (build_graph_ok ratio cs (set_order cand)) as (G & Hrun & Hok & Hadj).
  { intros i j Hin%Hmem. apply candidate_pairs_range in Hin. tauto. }
  destruct (extract_all_groups (length cs) G Hok)
    as (gs & processed & Hext & Hinv & Hcover).
  exists G, gs, processed. split; [done|]. split; [|split; [done|split; [done|]]].
  - intros u v c. rewrite Hadj. unfold pair_edge.
    split; intros (i & j & ci & cj & Hin & Hrest);
      exists i, j, ci, cj; (split; [by apply Hmem|done]).
  - unfold find_similar_groups. fold cand. rewrite Hrun.
    cbn [mbind res_bind bind]. rewrite Hext. done.
Qed.

End Clustering.

(** C2. For every list of contacts [find_similar_groups] returns, and of
    the groups it returns each has at least two member indices and a
    confidence between 50 and 100, and no index is a member of two groups
    (two different positions of the returned list). *)
Theorem groups_well_formed (ratio : str → str → Q)
    (set_order : list (nat * nat) → list (nat * nat))
    (contacts : list VCardContact) :
  enumeration set_order →
  ∃ groups,
    find_similar_groups ratio set_order contacts = Ret groups
    ∧ (∀ g, g ∈ groups →
         (2 <= length (indices g))%nat ∧ (50 <= confidence g <= 100)%Z)
    ∧ (∀ a b ga gb i,
         groups !! a = Some ga → groups !! b = Some gb → a ≠ b →
         i ∈ indices ga → i ∉ indices gb).
Proof.
  intros Henum.
  destruct (find_similar_groups_run ratio set_order Henum contacts)
    as (G & gs & processed & _ & _ & Hinv & _ & Hrun).
  destruct Hinv as (_ & Hgroups & Hnodup & Hdisj & _).
  exists (sort_groups gs). split; [done|]. split.
  - intros g Hg. rewrite sort_groups_perm in Hg.
    destruct (Hgroups g Hg) as (_ & ? & _ & ? & _). done.
  - intros a b ga gb i Ha Hb Hab Hia Hib. apply Hab.
    assert (NoDup (sort_groups gs)) as Hnd by by rewrite sort_groups_perm.
    assert (ga = gb) as ->.
    { apply (Hdisj ga gb i); try done.
      - rewrite <- sort_groups_perm. by eapply list_elem_of_lookup_2.
      - rewrite <- sort_groups_perm. by eapply list_elem_of_lookup_2. }
    by eapply NoDup_lookup.
Qed.

Lemma groups_well_formed_witness :
  ∃ groups,
    find_similar_groups Difflib.ratio id
      [contact_of "John Smith" ["john@x.com"] [] "";
       contact_of "Zed Q" [] [] "";
       contact_of "Smith, John" [] [] "";
       contact_of "Bob Jones" ["b@j.com"] ["650-555-1234"] "Acme";
       contact_of "Robert Jones" [] ["555-1234"] "Acme";
       contact_of "Jon Smith" ["John@x.com"] [] ""] = Ret groups
    ∧ (∀ g, g ∈ groups →
         (2 <= length (indices g))%nat ∧ (50 <= confidence g <= 100)%Z)
    ∧ (∀ a b ga gb i,
         groups !! a = Some ga → groups !! b = Some gb → a ≠ b →
         i ∈ indices ga → i ∉ indices gb).
Proof. apply groups_well_formed. by intros l. Defined.

(** ** Clustering a permuted list *)

Section Permuted.

Variable ratio : str → str → Q.

Lemma key_total_perm keys k cs cs' :
  cs ≡ₚ cs' → key_total keys k cs = key_total keys k cs'.
Proof.
  unfold key_total. induction 1 as [|c l l' _ IH|c1 c2 l|l1 l2 l3 _ IH1 _ IH2].
  - done.
  - cbn [flat_map]. rewrite !filter_app, !length_app. by rewrite IH.
  - cbn [flat_map]. rewrite !filter_app, !length_app. lia.
  - by rewrite IH1.
Qed.

Lemma linked_perm cs cs' c1 c2 :
  cs ≡ₚ cs' → linked cs c1 c2 → linked cs' c1 c2.
Proof.
  intros Hperm (T & k & H1 & H2 & Hsize). exists T, k.
  by rewrite <- (key_total_perm _ _ cs cs').
Qed.

Lemma verdict_symmetric_perm cs cs' :
  cs ≡ₚ cs' → verdict_symmetric ratio cs → verdict_symmetric ratio cs'.
Proof.
  intros Hperm Hsym c1 c2 H1 H2. apply Hsym; by rewrite Hperm.
Qed.

Lemma elem_of_records cs g c :
  c ∈ records cs g ↔ ∃ i, i ∈ indices g ∧ cs !! i = Some c.
Proof. unfold records. apply list_elem_of_omap. Qed.

(** An edge between two different indices, seen from the records. *)
Lemma edge_matched cs G gs u v :
  clustered ratio cs G gs → verdict_symmetric ratio cs → u ≠ v →
  edge G u v ↔
  ∃ cu cv, cs !! u = Some cu ∧ cs !! v = Some cv ∧ matched ratio cs cu cv.
Proof.
  intros (_ & Hadj & _) Hsym Hne. unfold edge. split.
  - intros (c & (i & j & ci & cj & Hin & Hi & Hj & -> & H50 & Huv)%Hadj).
    pose proof (candidate_pairs_range cs i j Hin) as (_ & _ & Hle).
    assert (ci ∈ cs ∧ cj ∈ cs) as [Hci Hcj]
      by (split; by eapply list_elem_of_lookup_2).
    assert ((u `min` v, u `max` v) = (i, j)) as Hmm.
    { destruct Huv as [[-> ->]|[-> ->]]; f_equal; lia. }
    rewrite <- Hmm in Hin.
    apply candidate_pairs_linked in Hin as (cu & cv & Hu & Hv & Hl); [|done].
    exists cu, cv. split; [done|]. split; [done|]. split; [done|].
    destruct Huv as [[-> ->]|[-> ->]].
    + rewrite Hi in Hu. rewrite Hj in Hv. by simplify_eq.
    + rewrite Hj in Hu. rewrite Hi in Hv. simplify_eq. by apply Hsym.
  - intros (cu & cv & Hu & Hv & Hl & H50).
    assert (cu ∈ cs ∧ cv ∈ cs) as [Hcu Hcv]
      by (split; by eapply list_elem_of_lookup_2).
    assert ((u `min` v, u `max` v) ∈ candidate_pairs_of (build_buckets cs))
      as Hin by (apply candidate_pairs_linked; eauto).
    destruct (decide (u < v)%nat) as [Hlt|Hge].
    + exists (calculate_match_confidence ratio cu cv). apply Hadj.
      exists u, v, cu, cv.
      replace (u `min` v)%nat with u in Hin by lia.
      replace (u `max` v)%nat with v in Hin by lia.
      split_and!; try done. by left.
    + exists (calculate_match_confidence ratio cv cu). apply Hadj.
      exists v, u, cv, cu.
      replace (u `min` v)%nat with v in Hin by lia.
      replace (u `max` v)%nat with u in Hin by lia.
      split_and!; try done; [by apply Hsym|by right].
Qed.

Section Transport.

Variables (cs cs' : list VCardContact).
Variables (G G' : Dict.dict nat (list (nat * Z))) (gs gs' : list group).
Variable f : nat → nat.
Hypothesis Hperm : cs ≡ₚ cs'.
Hypothesis Hsym : verdict_symmetric ratio cs.
Hypothesis Hrun : clustered ratio cs G gs.
Hypothesis Hrun' : clustered ratio cs' G' gs'.
Hypothesis f_inj : Inj (=) (=) f.
Hypothesis f_lookup : ∀ i, cs !! i = cs' !! f i.

Lemma edge_transport u v :
  edge G u v → u ≠ v → edge G' (f u) (f v).
Proof using All.
  intros Huv Hne.
  apply (edge_matched cs G gs u v Hrun Hsym Hne) in Huv
    as (cu & cv & Hu & Hv & Hl & H50).
  apply (edge_matched cs' G' gs' (f u) (f v) Hrun').
  - by apply (verdict_symmetric_perm cs).
  - intros Heq. by apply Hne, f_inj.
  - exists cu, cv. rewrite <- !f_lookup. split; [done|]. split; [done|].
    split; [by apply (linked_perm cs)|done].
Qed.

Lemma reach_transport u v :
  rtc (edge G) u v → rtc (edge G') (f u) (f v).
Proof using All.
  induction 1 as [|x y z Hxy _ IH]; [done|].
  destruct (decide (x = y)) as [->|Hne]; [done|].
  eapply rtc_l; [|exact IH]. by apply edge_transport.
Qed.

End Transport.

(** Two indices that hold the same record lie in one component as soon
    as one of them has a neighbour other than itself. *)
Lemma same_record_connected cs G gs s t y c :
  clustered ratio cs G gs → verdict_symmetric ratio cs →
  cs !! s = Some c → cs !! t = Some c →
  edge G s y → s ≠ y → rtc (edge G) s t.
Proof.
  intros Hrun Hsym Hs Ht Hsy Hne.
  destruct (decide (t = y)) as [->|Hty]; [by apply rtc_once|].
  eapply rtc_l; [exact Hsy|]. apply rtc_once.
  apply (edge_sym (length cs) G (proj1 Hrun)).
  apply (edge_matched cs G gs s y Hrun Hsym Hne) in Hsy
    as (cu & cv & Hu & Hv & Hm).
  apply (edge_matched cs G gs t y Hrun Hsym Hty).
  exists cu, cv. rewrite Hs in Hu. by simplify_eq.
Qed.

(** A component of two or more indices has an edge that leaves its
    starting index. *)
Lemma first_step_out G s w :
  rtc (edge G) s w → s ≠ w → ∃ y, edge G s y ∧ s ≠ y.
Proof.
  induction 1 as [|x y z Hxy Hyz IH]; [done|]. intros Hne.
  destruct (decide (x = y)) as [->|Hxy']; [by apply IH|].
  by exists y.
Qed.

Lemma groups_transport cs cs' G G' gs gs' :
  cs ≡ₚ cs' → verdict_symmetric ratio cs →
  clustered ratio cs G gs → clustered ratio cs' G' gs' →
  groups_included cs gs cs' gs'.
Proof.
  intros Hperm Hsym Hrun Hrun' g Hg.
  pose proof (verdict_symmetric_perm cs cs' Hperm Hsym) as Hsym'.
  destruct (proj1 (Permutation_inj cs cs') Hperm) as (_ & f & f_inj & f_lookup).
  assert (cs' ≡ₚ cs) as Hperm' by done.
  destruct (proj1 (Permutation_inj cs' cs) Hperm') as (_ & h & h_inj & h_lookup).
  pose proof Hrun as (HG & _ & (processed & Hinv) & _).
  pose proof Hrun' as (HG' & _ & (processed' & Hinv') & Hcover').
  destruct Hinv as (_ & Hgroups & _).
  destruct (Hgroups g Hg) as (_ & Hlen & Hnd & _ & s & Hcomp).
  assert (∃ w, w ∈ indices g ∧ s ≠ w) as (w & Hw & Hsw).
  { destruct (indices g) as [|a [|b l]] eqn:Hi; [simpl in Hlen; lia..|].
    destruct (decide (s = a)) as [->|?].
    - exists b. split; [right; left|]. intros ->.
      apply NoDup_cons in Hnd as [Hnd _]. apply Hnd. left.
    - exists a. split; [left|done]. }
  destruct (first_step_out G s w) as (y & Hsy & Hne); [by apply Hcomp|done|].
  assert (edge G' (f s) (f y)) as Hsy'
    by by apply (edge_transport cs cs' G G' gs gs' f).
  destruct (Hcover' (f s) (f y) Hsy') as (g' & Hg' & Hfs).
  { intros Heq. by apply Hne, f_inj. }
  exists g'. split; [done|].
  destruct Hinv' as (_ & Hgroups' & _).
  destruct (Hgroups' g' Hg') as (_ & _ & _ & _ & s' & Hcomp').
  assert (∀ v, v ∈ indices g' ↔ rtc (edge G') (f s) v) as Hcomp''.
  { intros v. rewrite Hcomp'. apply Hcomp' in Hfs. split; intros Hr.
    - etrans; [|exact Hr]. by apply (reach_sym (length cs') G' HG').
    - by etrans. }
  intros c. rewrite !elem_of_records. split.
  - intros (i & Hi & Hc). exists (f i). split; [|by rewrite <- f_lookup].
    apply Hcomp''. apply (reach_transport cs cs' G G' gs gs' f); try done.
    by apply Hcomp.
  - intros (j & Hj & Hc). exists (h j). split; [|by rewrite <- h_lookup].
    apply Hcomp. etrans.
    + apply (same_record_connected cs G gs s (h (f s)) y) with (c := default c (cs !! s));
        try done.
      * destruct (cs !! s) as [cs0|] eqn:Hs; [done|].
        destruct Hsy as [c0 Hc0]. apply (proj1 HG) in Hc0 as (Hlt & _).
        apply lookup_lt_is_Some in Hlt as [? ?]. congruence.
      * rewrite <- h_lookup, <- f_lookup.
        destruct (cs !! s) as [cs0|] eqn:Hs; [done|].
        destruct Hsy as [c0 Hc0]. apply (proj1 HG) in Hc0 as (Hlt & _).
        apply lookup_lt_is_Some in Hlt as [? ?]. congruence.
    + apply (reach_transport cs' cs G' G gs' gs h); try done.
      by apply Hcomp''.
Qed.

End Permuted.

Lemma find_similar_groups_clustered ratio set_order cs :
  enumeration set_order →
  ∃ G gs, clustered ratio cs G gs
          ∧ find_similar_groups ratio set_order cs = Ret (sort_groups gs).
Proof.
  intros Henum.
  destruct (find_similar_groups_run ratio set_order Henum cs)
    as (G & gs & processed & HG & Hadj & Hinv & Hcover & Hrun).
  exists G, gs. split; [|done]. split; [done|]. split; [done|].
  split; [by exists processed|done].
Qed.

Lemma groups_included_sorted cs gs cs' gs' :
  groups_included cs gs cs' gs' →
  groups_included cs (sort_groups gs) cs' (sort_groups gs').
Proof.
  intros Hincl g Hg. rewrite sort_groups_perm in Hg.
  destruct (Hincl g Hg) as (g' & Hg' & Hsame). exists g'.
  by rewrite sort_groups_perm.
Qed.

Lemma verdict_symmetric_check ratio cs :
  forallb
    (λ c1, forallb
       (λ c2, implb (50 <=? calculate_match_confidence ratio c1 c2)%Z
                    (50 <=? calculate_match_confidence ratio c2 c1)%Z) cs) cs
  = true →
  verdict_symmetric ratio cs.
Proof.
  intros Hall c1 c2 H1 H2 H50. rewrite forallb_forall in Hall.
  apply list_elem_of_In, Hall in H1. rewrite forallb_forall in H1.
  apply list_elem_of_In, H1 in H2. apply Z.leb_le in H50.
  rewrite H50 in H2. by apply Z.leb_le.
Qed.

(** C4, as the code has it.  When, for every two contacts of the list, the
    score reaches the floor of 50 in one order of the two arguments exactly
    when it does in the other, [find_similar_groups] returns for the list
    and for each of its permutations the same groups, a group being viewed
    as the set of its contact records: every group of one run has the
    records of a group of the other run. *)
Theorem groups_of_permuted_list (ratio : str → str → Q)
    (set_order set_order' : list (nat * nat) → list (nat * nat))
    (contacts contacts' : list VCardContact) :
  enumeration set_order → enumeration set_order' →
  contacts ≡ₚ contacts' →
  verdict_symmetric ratio contacts →
  ∃ groups groups',
    find_similar_groups ratio set_order contacts = Ret groups
    ∧ find_similar_groups ratio set_order' contacts' = Ret groups'
    ∧ same_groups contacts groups contacts' groups'.
Proof.
  intros Henum Henum' Hperm Hsym.
  destruct (find_similar_groups_clustered ratio set_order contacts Henum)
    as (G & gs & Hrun & Hfind).
  destruct (find_similar_groups_clustered ratio set_order' contacts' Henum')
    as (G' & gs' & Hrun' & Hfind').
  exists (sort_groups gs), (sort_groups gs').
  split; [done|]. split; [done|]. split.
  - apply groups_included_sorted.
    by apply (groups_transport ratio contacts contacts' G G').
  - apply groups_included_sorted.
    apply (groups_transport ratio contacts' contacts G' G); try done.
    by apply (verdict_symmetric_perm ratio contacts).
Qed.

Lemma groups_of_permuted_list_witness :
  ∃ groups groups',
    find_similar_groups Difflib.ratio id
      [contact_of "John Smith" ["john@x.com"] [] "";
       contact_of "Zed Q" [] [] "";
       contact_of "Smith, John" [] [] "";
       contact_of "Jon Smith" ["John@x.com"] [] ""] = Ret groups
    ∧ find_similar_groups Difflib.ratio id
        [contact_of "Jon Smith" ["John@x.com"] [] "";
         contact_of "Smith, John" [] [] "";
         contact_of "John Smith" ["john@x.com"] [] "";
         contact_of "Zed Q" [] [] ""] = Ret groups'
    ∧ same_groups
        [contact_of "John Smith" ["john@x.com"] [] "";
         contact_of "Zed Q" [] [] "";
         contact_of "Smith, John" [] [] "";
         contact_of "Jon Smith" ["John@x.com"] [] ""] groups
        [contact_of "Jon Smith" ["John@x.com"] [] "";
         contact_of "Smith, John" [] [] "";
         contact_of "John Smith" ["john@x.com"] [] "";
         contact_of "Zed Q" [] [] ""] groups'.
Proof.
  apply groups_of_permuted_list.
  - by intros l.
  - by intros l.
  - apply (proj2 (Permutation_inj _ _)). split; [reflexivity|].
    exists (λ i, match i with 0 => 2 | 1 => 3 | 2 => 1 | 3 => 0 | _ => i end)%nat.
    split.
    + intros [|[|[|[|i]]]] [|[|[|[|j]]]]; simpl; intros; lia.
    + by intros [|[|[|[|i]]]].
  - apply verdict_symmetric_check. vm_compute. reflexivity.
Defined.

(** C4, as stated: the groups would be the same for every list and every
    permutation of it.  Two contacts that share the nickname bucket score
    45 for the name; the organisations "Centre Corporation" and "United
    Corporation" have similarity 26/36 in this order and 30/36 in the
    other, so the pair reaches 50 only with the second contact first. *)
Lemma permutation_changes_groups :
  [contact_of "Robert Smith" [] [] "United Corporation";
   contact_of "Bob Smith" [] [] "Centre Corporation"]
  ≡ₚ [contact_of "Bob Smith" [] [] "Centre Corporation";
      contact_of "Robert Smith" [] [] "United Corporation"]
  ∧ Difflib.ratio "centre corporation" "united corporation" = 26 # 36
  ∧ Difflib.ratio "united corporation" "centre corporation" = 30 # 36
  ∧ find_similar_groups Difflib.ratio id
      [contact_of "Bob Smith" [] [] "Centre Corporation";
       contact_of "Robert Smith" [] [] "United Corporation"] = Ret []
  ∧ find_similar_groups Difflib.ratio id
      [contact_of "Robert Smith" [] [] "United Corporation";
       contact_of "Bob Smith" [] [] "Centre Corporation"]
    = Ret [{| indices := [0; 1]%nat; confidence := 50 |}]
  ∧ ¬ same_groups
        [contact_of "Bob Smith" [] [] "Centre Corporation";
         contact_of "Robert Smith" [] [] "United Corporation"] []
        [contact_of "Robert Smith" [] [] "United Corporation";
         contact_of "Bob Smith" [] [] "Centre Corporation"]
        [{| indices := [0; 1]%nat; confidence := 50 |}].
Proof.
  split; [apply Permutation_swap|].
  do 4 (split; [by vm_compute|]).
  intros [_ Hincl]. destruct (Hincl _ ltac:(left)) as (g & Hg & _).
  by apply elem_of_nil in Hg.
Qed.

(** ** The model of difflib never exhausts its iteration budget *)

Section DifflibTotal.

Import Difflib.

Variables a b : str.

Lemma scan_row_within alo blo bhi i j2len js newj2len bst :
  (alo <= i)%nat →
  row_ok alo blo i j2len →
  row_ok alo blo (S i) newj2len →
  best_within alo (S i) blo bhi bst →
  row_ok alo blo (S i) (scan_row blo bhi i j2len js (newj2len, bst)).1
  ∧ best_within alo (S i) blo bhi
      (scan_row blo bhi i j2len js (newj2len, bst)).2.
Proof.
  intros Hi Hprev. revert newj2len bst.
  induction js as [|j js IH]; intros newj2len bst Hnew Hbst; [done|].
  cbn [scan_row]. destruct (j <? blo)%nat eqn:Hjlo; [by apply IH|].
  destruct (bhi <=? j)%nat eqn:Hjhi; [done|].
  apply Nat.ltb_ge in Hjlo. apply Nat.leb_gt in Hjhi.
  set (k := S match j with
             | O => 0%nat
             | S j' => Dict.get_default j2len j' 0%nat
             end).
  assert (k <= S j - blo ∧ k <= S i - alo)%nat as [Hkj Hki].
  { subst k. destruct j as [|j']; [lia|].
    unfold Dict.get_default.
    destruct (Dict.get j2len j') as [k0|] eqn:Hget; [|lia].
    destruct (Hprev j' k0 Hget). lia. }
  apply IH.
  - intros j0 k0. destruct (decide (j = j0)) as [->|Hne].
    + rewrite dict_get_set_eq. by intros [= <-].
    + rewrite dict_get_set_ne by done. apply Hnew.
  - destruct (bestsize bst <? k)%nat; [|done].
    unfold best_within. cbn. lia.
Qed.

Lemma scan_within alo blo bhi n i j2len bst :
  (alo <= i)%nat →
  row_ok alo blo i j2len → best_within alo i blo bhi bst →
  best_within alo (i + n) blo bhi (scan a b blo bhi n i j2len bst).
Proof.
  revert i j2len bst. induction n as [|n IH]; intros i j2len bst Hi Hrow Hbst.
  - by rewrite Nat.add_0_r.
  - cbn [scan].
    pose proof (scan_row_within alo blo bhi i j2len
                  (match a !! i with Some x => b2j b x | None => [] end)
                  [] bst Hi Hrow) as Hstep.
    destruct (scan_row _ _ _ _ _ _) as [newj2len bst'].
    destruct Hstep as [Hrow' Hbst'].
    { intros j k Hget. done. }
    { unfold best_within in *. lia. }
    replace (i + S n)%nat with (S i + n)%nat by lia.
    apply IH; [lia|done|done].
Qed.

Lemma extend_left_within alo ahi blo bhi n bst :
  best_within alo ahi blo bhi bst →
  best_within alo ahi blo bhi (extend_left a b alo blo n bst).
Proof.
  revert bst. induction n as [|n IH]; intros bst Hbst; [done|].
  cbn [extend_left].
  destruct (_ && _ && _) eqn:Hguard; [|done].
  apply andb_prop in Hguard as [[Hi%Nat.ltb_lt Hj%Nat.ltb_lt]%andb_prop _].
  apply IH. unfold best_within in *. cbn. lia.
Qed.

Lemma extend_right_within alo ahi blo bhi n bst :
  best_within alo ahi blo bhi bst →
  best_within alo ahi blo bhi (extend_right a b ahi bhi n bst).
Proof.
  revert bst. induction n as [|n IH]; intros bst Hbst; [done|].
  cbn [extend_right].
  destruct (_ && _ && _) eqn:Hguard; [|done].
  apply andb_prop in Hguard as [[Hi%Nat.ltb_lt Hj%Nat.ltb_lt]%andb_prop _].
  apply IH. unfold best_within in *. cbn. lia.
Qed.

(** The block that [find_longest_match] returns lies in its window. *)
Lemma find_longest_match_within alo ahi blo bhi :
  (alo <= ahi)%nat → (blo <= bhi)%nat →
  best_within alo ahi blo bhi (find_longest_match a b alo ahi blo bhi).
Proof.
  intros Ha Hb. unfold find_longest_match.
  apply extend_right_within, extend_left_within.
  replace ahi with (alo + (ahi - alo))%nat at 1 by lia.
  apply scan_within; [done|done|].
  unfold best_within. cbn. lia.
Qed.

Lemma blocks_loop_total fuel queue acc :
  Forall (window_ok a b) queue →
  (queue_cost queue <= fuel)%nat →
  is_Some (blocks_loop fuel a b queue acc).
Proof.
  revert queue acc. induction fuel as [|fuel IH]; intros queue acc Hok Hcost.
  - destruct queue as [|[[[alo ahi] blo] bhi] queue]; [done|].
    unfold queue_cost in Hcost. simpl in Hcost. lia.
  - destruct queue as [|[[[alo ahi] blo] bhi] queue]; [done|].
    apply Forall_cons in Hok as [[[Ha1 Ha2] [Hb1 Hb2]] Hok].
    unfold queue_cost in Hcost. cbn [foldr window_cost] in Hcost.
    fold (queue_cost queue) in Hcost.
    cbn [blocks_loop].
    pose proof (find_longest_match_within alo ahi blo bhi Ha1 Hb1)
      as (Hi1 & Hi2 & Hj1 & Hj2).
    set (x := find_longest_match a b alo ahi blo bhi) in *.
    destruct (0 <? bestsize x)%nat eqn:Hk; [|apply IH; [done|lia]].
    apply Nat.ltb_lt in Hk. apply IH.
    + destruct (_ && _); destruct (_ && _);
        repeat (apply Forall_cons; split); try done;
        unfold window_ok; lia.
    + destruct (_ && _); destruct (_ && _);
        unfold queue_cost in *; cbn [foldr window_cost]; lia.
Qed.

End DifflibTotal.

(** The budget of [get_matching_blocks] is never exhausted, so [matches]
    always is the sum of the blocks found. *)
Lemma get_matching_blocks_total (a b : str) :
  is_Some (Difflib.get_matching_blocks a b).
Proof.
  apply blocks_loop_total.
  - apply Forall_singleton. unfold window_ok. lia.
  - unfold queue_cost. cbn [foldr window_cost]. lia.
Qed.

(** ** vCard text: export and parse *)

Section VCardText.

Lemma split_on_absent sep (s : str) : sep ∉ s → Py.split_on sep s = [s].
Proof.
  induction s as [|c s IH]; [done|].
  intros [Hne Hnot]%not_elem_of_cons. cbn [Py.split_on].
  rewrite bool_decide_eq_false_2 by done. by rewrite IH.
Qed.

Lemma split_on_app sep (a b : str) :
  sep ∉ a → Py.split_on sep (a ++ sep :: b) = a :: Py.split_on sep b.
Proof.
  induction a as [|c a IH]; intros Hnot.
  - cbn. by rewrite bool_decide_eq_true_2.
  - apply not_elem_of_cons in Hnot as [Hne Hnot].
    cbn [app Py.split_on]. rewrite bool_decide_eq_false_2 by done.
    by rewrite IH.
Qed.

(** [sep.join(ls).split(sep)] gives [ls] back. *)
Lemma split_on_join sep (ls : list str) :
  ls ≠ [] → Forall (λ l, sep ∉ l) ls →
  Py.split_on sep (Py.join [sep] ls) = ls.
Proof.
  induction ls as [|l ls IH]; [done|]. intros _ [Hl Hls]%Forall_cons.
  destruct ls as [|l' ls].
  - by apply split_on_absent.
  - change (Py.join [sep] (l :: l' :: ls))
      with (l ++ sep :: Py.join [sep] (l' :: ls)).
    rewrite split_on_app by done. by rewrite IH.
Qed.

Lemma unfold_plain_lines (ls : list str) self current :
  Forall plain ls → Py.truthy current = true →
  (let '(s, c) := fold_left unfold_step ls (self, current) in
   if Py.truthy c then _process_line s c else s)
  = fold_left _process_line (current :: ls) self.
Proof.
  revert self current. induction ls as [|l ls IH]; intros self current Hls Hc.
  - cbn. by rewrite Hc.
  - apply Forall_cons in Hls as [[Hl1 Hl2] Hls].
    cbn [fold_left]. unfold unfold_step at 2. rewrite Hl2, Hc.
    by rewrite IH.
Qed.

Lemma parse_plain_lines (ls : list str) self :
  ls ≠ [] → Forall plain ls → Forall (λ l, LF ∉ l) ls →
  parse_vcard self (Py.join [LF] ls)
  = fold_left _process_line ls (set_raw_vcard (Py.join [LF] ls) self).
Proof.
  intros Hne Hplain Hlf. unfold parse_vcard.
  rewrite split_on_join by done.
  destruct ls as [|l ls]; [done|].
  apply Forall_cons in Hplain as [[Hl1 Hl2] Hplain].
  cbn [fold_left]. unfold unfold_step at 2. rewrite Hl2. cbn [Py.truthy].
  by apply unfold_plain_lines.
Qed.

End VCardText.

Section Fields.

Lemma contains_middle c (a b : str) : Py.contains c (a ++ c :: b) = true.
Proof. apply bool_decide_eq_true_2, elem_of_app. right. left. Qed.

Lemma split1_field (name value : str) :
  ":"%char ∉ name → Py.split1 ":" (name ++ ":" ++ value) = [name; value].
Proof.
  intros Hname. unfold Py.split1.
  change (":" ++ value) with (":"%char :: value).
  by rewrite (cut_app ":" name value).
Qed.

Ltac field_line :=
  intros;
  match goal with
  | |- _process_line _ (?name ++ ?v) = _ =>
      let n := eval cbv in (take (length name - 1) name) in
      change (name ++ v) with (n ++ ":" ++ v)
  end;
  unfold _process_line;
  match goal with
  | |- context [Py.contains _ (?name ++ ":" ++ ?value)] =>
      change (":" ++ value) with (":"%char :: value);
      rewrite (contains_middle ":" name value);
      change (":"%char :: value) with (":" ++ value);
      rewrite (split1_field name value) by not_in_closed_list
  end;
  reflexivity.

Lemma process_fn self v :
  _process_line self ("FN:" ++ v)
  = if negb (Py.truthy (Py.strip v)) then self
    else set_fn (Py.strip v) self.
Proof. field_line. Qed.

Lemma process_n self v :
  _process_line self ("N:" ++ v)
  = if negb (Py.truthy (Py.strip v)) then self
    else set_n_parts (Py.split_on ";" (Py.strip v)) self.
Proof. field_line. Qed.

Lemma process_email self v :
  _process_line self ("EMAIL:" ++ v)
  = if negb (Py.truthy (Py.strip v)) then self
    else if bool_decide
              (Py.lower (Py.strip v) ∉ map Py.lower (emails self))
    then set_emails (emails self ++ [Py.strip v]) self
    else self.
Proof. field_line. Qed.

Lemma process_tel self v :
  _process_line self ("TEL:" ++ v)
  = if negb (Py.truthy (Py.strip v)) then self
    else set_phones (append_new (Py.strip v) (phones self)) self.
Proof. field_line. Qed.

Lemma process_adr self v :
  _process_line self ("ADR:" ++ v)
  = if negb (Py.truthy (Py.strip v)) then self
    else set_addresses (append_new (Py.strip v) (addresses self)) self.
Proof. field_line. Qed.

Lemma process_note self v :
  _process_line self ("NOTE:" ++ v)
  = if negb (Py.truthy (Py.strip v)) then self
    else set_notes (append_new (Py.strip v) (notes self)) self.
Proof. field_line. Qed.

Lemma process_org self v :
  _process_line self ("ORG:" ++ v)
  = if negb (Py.truthy (Py.strip v)) then self
    else set_org (Py.strip v) self.
Proof. field_line. Qed.

Lemma process_title self v :
  _process_line self ("TITLE:" ++ v)
  = if negb (Py.truthy (Py.strip v)) then self
    else set_title (Py.strip v) self.
Proof. field_line. Qed.

Lemma process_bday self v :
  _process_line self ("BDAY:" ++ v)
  = if negb (Py.truthy (Py.strip v)) then self
    else set_birthday (Py.strip v) self.
Proof. field_line. Qed.

Lemma process_url self v :
  _process_line self ("URL:" ++ v)
  = if negb (Py.truthy (Py.strip v)) then self
    else set_url (Py.strip v) self.
Proof. field_line. Qed.

(** The three lines that frame a card change nothing. *)
Lemma process_frame self line :
  line ∈ ["BEGIN:VCARD"; "VERSION:3.0"; "END:VCARD"] →
  _process_line self line = self.
Proof.
  intros Hin. repeat (apply elem_of_cons in Hin as [->|Hin]; [done|]).
  by apply elem_of_nil in Hin.
Qed.

End Fields.

Section RoundTrip.

Lemma to_vcard_lines c : to_vcard c = Py.join [LF] (vcard_lines c).
Proof.
  unfold to_vcard, vcard_lines, optional_line.
  destruct (Py.truthy (fn c)), (n_parts c), (Py.truthy (org c)),
    (Py.truthy (title c)), (Py.truthy (birthday c)), (Py.truthy (url c));
    by rewrite <- ?app_assoc, ?app_nil_r.
Qed.

Lemma plain_cons c (s : str) : c ≠ " "%char → c ≠ TAB → plain (c :: s).
Proof.
  intros H1 H2. split; [done|]. cbn.
  by rewrite !bool_decide_eq_false_2 by done.
Qed.

Lemma truthy_entry v : entry v → Py.truthy v = true.
Proof. intros [_ Hv]. by destruct v. Qed.

Lemma emails_loop es : ∀ self,
  Forall entry es → NoDup (map Py.lower (emails self ++ es)) →
  fold_left _process_line (map (λ email, "EMAIL:" ++ email) es) self
  = set_emails (emails self ++ es) self.
Proof.
  induction es as [|e es IH]; intros self Hes Hdup.
  - rewrite app_nil_r. by destruct self.
  - apply Forall_cons in Hes as [He Hes].
    cbn [map fold_left]. rewrite process_email.
    pose proof (truthy_entry e He) as Ht. destruct He as [[_ Hs] _].
    rewrite Hs, Ht. cbn [negb].
    assert (Py.lower e ∉ map Py.lower (emails self)) as Hnew.
    { rewrite map_app in Hdup. apply NoDup_app in Hdup as (_ & Hnew & _).
      intros Hin. apply (Hnew _ Hin). left. }
    rewrite bool_decide_eq_true_2 by done.
    rewrite IH; [|done|].
    + cbn. by rewrite <- app_assoc.
    + cbn. by rewrite <- app_assoc.
Qed.

Lemma append_new_fresh v (l : list str) : v ∉ l → append_new v l = l ++ [v].
Proof. intros Hv. unfold append_new. by rewrite bool_decide_eq_true_2. Qed.

Lemma fresh_entry (l : list str) e es : NoDup (l ++ e :: es) → e ∉ l.
Proof.
  intros (_ & Hnew & _)%NoDup_app Hin. apply (Hnew _ Hin). left.
Qed.

Lemma phones_loop ps : ∀ self,
  Forall entry ps → NoDup (phones self ++ ps) →
  fold_left _process_line (map (λ phone, "TEL:" ++ phone) ps) self
  = set_phones (phones self ++ ps) self.
Proof.
  induction ps as [|e es IH]; intros self Hes Hdup.
  - rewrite app_nil_r. by destruct self.
  - apply Forall_cons in Hes as [He Hes].
    cbn [map fold_left]. rewrite process_tel.
    pose proof (truthy_entry e He) as Ht. destruct He as [[_ Hs] _].
    rewrite Hs, Ht. cbn [negb].
    rewrite append_new_fresh by by eapply fresh_entry.
    rewrite IH; [|done|]; cbn; by rewrite <- app_assoc.
Qed.

Lemma addresses_loop ps : ∀ self,
  Forall entry ps → NoDup (addresses self ++ ps) →
  fold_left _process_line (map (λ addr, "ADR:" ++ addr) ps) self
  = set_addresses (addresses self ++ ps) self.
Proof.
  induction ps as [|e es IH]; intros self Hes Hdup.
  - rewrite app_nil_r. by destruct self.
  - apply Forall_cons in Hes as [He Hes].
    cbn [map fold_left]. rewrite process_adr.
    pose proof (truthy_entry e He) as Ht. destruct He as [[_ Hs] _].
    rewrite Hs, Ht. cbn [negb].
    rewrite append_new_fresh by by eapply fresh_entry.
    rewrite IH; [|done|]; cbn; by rewrite <- app_assoc.
Qed.

Lemma notes_loop ps : ∀ self,
  Forall entry ps → NoDup (notes self ++ ps) →
  fold_left _process_line (map (λ note, "NOTE:" ++ note) ps) self
  = set_notes (notes self ++ ps) self.
Proof.
  induction ps as [|e es IH]; intros self Hes Hdup.
  - rewrite app_nil_r. by destruct self.
  - apply Forall_cons in Hes as [He Hes].
    cbn [map fold_left]. rewrite process_note.
    pose proof (truthy_entry e He) as Ht. destruct He as [[_ Hs] _].
    rewrite Hs, Ht. cbn [negb].
    rewrite append_new_fresh by by eapply fresh_entry.
    rewrite IH; [|done|]; cbn; by rewrite <- app_assoc.
Qed.

(** A scalar field: the line is there when the value is not empty. *)
Lemma optional_loop name v (set : str → VCardContact → VCardContact) self :
  (∀ v self, _process_line self (name ++ v)
             = if negb (Py.truthy (Py.strip v)) then self
               else set (Py.strip v) self) →
  clean v →
  fold_left _process_line (optional_line name v) self
  = if Py.truthy v then set v self else self.
Proof.
  intros Hline [_ Hstrip]. unfold optional_line.
  destruct (Py.truthy v) eqn:Hv; [|done].
  cbn [fold_left]. by rewrite Hline, Hstrip, Hv.
Qed.

Lemma lf_free_field (name v : str) : LF ∉ name → LF ∉ v → LF ∉ name ++ v.
Proof. intros H1 H2 [H|H]%elem_of_app; tauto. Qed.

Lemma optional_lines_ok name v c0 name' :
  name = c0 :: name' → c0 ≠ " "%char → c0 ≠ TAB → LF ∉ name → clean v →
  Forall (λ l, plain l ∧ LF ∉ l) (optional_line name v).
Proof.
  intros -> H1 H2 Hname [Hv _]. unfold optional_line.
  destruct (Py.truthy v); [|done].
  apply Forall_singleton. split; [by apply plain_cons|].
  by apply lf_free_field.
Qed.

Lemma mapped_lines_ok name vs c0 name' :
  name = c0 :: name' → c0 ≠ " "%char → c0 ≠ TAB → LF ∉ name →
  Forall entry vs →
  Forall (λ l, plain l ∧ LF ∉ l) (map (λ v, name ++ v) vs).
Proof.
  intros -> H1 H2 Hname Hvs. apply Forall_map.
  eapply Forall_impl; [exact Hvs|]. intros v [[Hv _] _].
  split; [by apply plain_cons|]. by apply lf_free_field.
Qed.

Ltac field_name_ok :=
  first [reflexivity | discriminate | not_in_closed_list].

Lemma vcard_lines_ok c :
  exportable c → Forall (λ l, plain l ∧ LF ∉ l) (vcard_lines c).
Proof.
  intros (Hfn & Horg & Htitle & Hbday & Hurl & Hn & Hem & _ & Hph & _
          & Hadr & _ & Hnote & _).
  unfold vcard_lines. repeat apply Forall_app_2.
  - repeat constructor; not_in_closed_list.
  - eapply optional_lines_ok; [field_name_ok..|done].
  - destruct (n_parts c) as [|p ps] eqn:Hparts; [done|].
    destruct Hn as [[[Hlf _] _] _]; [done|].
    apply Forall_singleton. split; [by apply plain_cons|].
    apply lf_free_field; [not_in_closed_list|done].
  - eapply mapped_lines_ok; [field_name_ok..|done].
  - eapply mapped_lines_ok; [field_name_ok..|done].
  - eapply mapped_lines_ok; [field_name_ok..|done].
  - eapply optional_lines_ok; [field_name_ok..|done].
  - eapply optional_lines_ok; [field_name_ok..|done].
  - eapply optional_lines_ok; [field_name_ok..|done].
  - eapply optional_lines_ok; [field_name_ok..|done].
  - eapply mapped_lines_ok; [field_name_ok..|done].
  - repeat constructor; not_in_closed_list.
Qed.

Lemma n_parts_line c self :
  exportable c →
  fold_left _process_line
    match n_parts c with
    | [] => []
    | _ => ["N:" ++ Py.join ";" (n_parts c)]
    end self
  = match n_parts c with [] => self | _ => set_n_parts (n_parts c) self end.
Proof.
  intros (_ & _ & _ & _ & _ & Hn & _).
  destruct (n_parts c) as [|p ps] eqn:Hparts; [done|].
  destruct Hn as [[[_ Hstrip] Hne] Hsemi]; [done|].
  cbn [fold_left]. rewrite process_n, Hstrip.
  destruct (Py.join ";" (p :: ps)) eqn:Hjoin; [done|].
  cbn [Py.truthy negb]. rewrite <- Hjoin.
  by rewrite (split_on_join ";"%char (p :: ps)).
Qed.

Lemma parsed_exported c :
  exportable c →
  parse_vcard empty_contact (to_vcard c) = reimported "" c.
Proof.
  intros Hc. pose proof (vcard_lines_ok c Hc) as Hlines.
  rewrite to_vcard_lines at 1.
  rewrite parse_plain_lines.
  2:{ done. }
  2:{ eapply Forall_impl; [exact Hlines|]. by intros l [? ?]. }
  2:{ eapply Forall_impl; [exact Hlines|]. by intros l [? ?]. }
  rewrite <- to_vcard_lines. unfold reimported.
  generalize (to_vcard c). intros text.
  destruct Hc as (Hfn & Horg & Htitle & Hbday & Hurl & Hn & Hem & Hemd
                  & Hph & Hphd & Hadr & Hadrd & Hnote & Hnoted).
  unfold vcard_lines. rewrite !fold_left_app.
  cbn [fold_left].
  rewrite (process_frame _ "BEGIN:VCARD") by left.
  rewrite (process_frame _ "VERSION:3.0") by (right; left).
  rewrite (process_frame _ "END:VCARD") by (right; right; left).
  rewrite (optional_loop "FN:" (fn c) set_fn) by (done || apply process_fn).
  rewrite n_parts_line by done.
  rewrite emails_loop by (done || by destruct (Py.truthy (fn c)), (n_parts c)).
  rewrite phones_loop by (done || by destruct (Py.truthy (fn c)), (n_parts c)).
  rewrite addresses_loop
    by (done || by destruct (Py.truthy (fn c)), (n_parts c)).
  rewrite (optional_loop "ORG:" (org c) set_org)
    by (done || apply process_org).
  rewrite (optional_loop "TITLE:" (title c) set_title)
    by (done || apply process_title).
  rewrite (optional_loop "BDAY:" (birthday c) set_birthday)
    by (done || apply process_bday).
  rewrite (optional_loop "URL:" (url c) set_url)
    by (done || apply process_url).
  rewrite notes_loop.
  - destruct c as [fn0 n0 em0 ph0 ad0 no0 org0 ti0 bd0 url0 raw0 src0].
    cbn. by destruct fn0, n0, org0, ti0, bd0, url0.
  - done.
  - destruct c as [fn0 n0 em0 ph0 ad0 no0 org0 ti0 bd0 url0 raw0 src0].
    cbn in *. by destruct fn0, n0, org0, ti0, bd0, url0.
Qed.

End RoundTrip.

(** ** Stripped strings *)

Section StripFacts.

Lemma lstrip_head (s : str) c t :
  Py.lstrip s = c :: t → Py.is_space c = false.
Proof.
  induction s as [|x s IH]; [done|]. cbn [Py.lstrip].
  destruct (Py.is_space x) eqn:Hx; [done|]. by intros [= <- _].
Qed.

Lemma lstrip_fixed (s : str) :
  (∀ c t, s = c :: t → Py.is_space c = false) → Py.lstrip s = s.
Proof.
  destruct s as [|c t]; [done|]. intros H. cbn. by rewrite (H c t).
Qed.

Lemma lstrip_idemp (s : str) : Py.lstrip (Py.lstrip s) = Py.lstrip s.
Proof.
  apply lstrip_fixed. intros c t Hs. by eapply lstrip_head.
Qed.

Lemma lstrip_suffix (s : str) : ∃ p, s = p ++ Py.lstrip s.
Proof.
  induction s as [|c s [p IH]]; [by exists []|]. cbn [Py.lstrip].
  destruct (Py.is_space c).
  - exists (c :: p). cbn. by rewrite <- IH.
  - by exists [].
Qed.

Lemma rstrip_prefix (s : str) : ∃ q, s = Py.rstrip s ++ q.
Proof.
  unfold Py.rstrip. destruct (lstrip_suffix (reverse s)) as [p Hp].
  exists (reverse p).
  by rewrite <- reverse_app, <- Hp, reverse_involutive.
Qed.

Lemma rstrip_idemp (s : str) : Py.rstrip (Py.rstrip s) = Py.rstrip s.
Proof.
  unfold Py.rstrip. by rewrite reverse_involutive, lstrip_idemp.
Qed.

Lemma strip_idemp (s : str) : Py.strip (Py.strip s) = Py.strip s.
Proof.
  unfold Py.strip at 1.
  assert (Py.lstrip (Py.strip s) = Py.strip s) as ->.
  { apply lstrip_fixed. intros c t Ht. unfold Py.strip in Ht.
    destruct (rstrip_prefix (Py.lstrip s)) as [q Hq].
    rewrite Ht in Hq. by eapply lstrip_head. }
  apply rstrip_idemp.
Qed.

Lemma elem_of_lstrip (s : str) c : c ∈ Py.lstrip s → c ∈ s.
Proof.
  destruct (lstrip_suffix s) as [p Hp]. intros Hc.
  rewrite Hp. apply elem_of_app. by right.
Qed.

Lemma elem_of_strip (s : str) c : c ∈ Py.strip s → c ∈ s.
Proof.
  intros Hc. apply elem_of_lstrip. unfold Py.strip in Hc.
  destruct (rstrip_prefix (Py.lstrip s)) as [q Hq].
  rewrite Hq. apply elem_of_app. by left.
Qed.

(** A stripped string does not end in whitespace. *)
Lemma stripped_last (s t : str) c :
  Py.strip s = s → s = t ++ [c] → Py.is_space c = false.
Proof.
  intros Hs ->. unfold Py.strip, Py.rstrip in Hs.
  apply (f_equal reverse) in Hs.
  rewrite reverse_involutive, (reverse_app t [c]), reverse_singleton in Hs.
  by eapply lstrip_head.
Qed.

Lemma clean_strip (v : str) : LF ∉ v → clean (Py.strip v).
Proof.
  intros Hv. split; [|apply strip_idemp].
  intros Hin. by apply Hv, elem_of_strip.
Qed.

Lemma entry_strip (v : str) :
  LF ∉ v → Py.truthy (Py.strip v) = true → entry (Py.strip v).
Proof.
  intros Hv Ht. split; [by apply clean_strip|]. by destruct (Py.strip v).
Qed.

End StripFacts.

(** ** What the parser stores *)

Section Stored.

Lemma join_split_on sep (s : str) :
  Py.join [sep] (Py.split_on sep s) = s.
Proof.
  induction s as [|c s IH]; [done|]. cbn [Py.split_on].
  case_bool_decide as Hc.
  - subst c. destruct (Py.split_on sep s) as [|w ws] eqn:Hsplit.
    + by destruct s; [|cbn in Hsplit; repeat case_match].
    + change (Py.join [sep] ([] :: w :: ws))
        with (sep :: Py.join [sep] (w :: ws)).
      by rewrite IH.
  - destruct (Py.split_on sep s) as [|w ws] eqn:Hsplit.
    + by destruct s; [|cbn in Hsplit; repeat case_match].
    + destruct ws as [|w' ws]; cbn in *; by rewrite IH.
Qed.

Lemma split_on_pieces sep (s : str) :
  Py.split_on sep s ≠ [] ∧ Forall (λ p, sep ∉ p) (Py.split_on sep s).
Proof.
  induction s as [|c s [IH1 IH2]].
  - split; [done|]. apply Forall_singleton, not_elem_of_nil.
  - cbn [Py.split_on]. case_bool_decide as Hc.
    + split; [done|]. apply Forall_cons. split; [apply not_elem_of_nil|done].
    + destruct (Py.split_on sep s) as [|w ws]; [done|].
      apply Forall_cons in IH2 as [Hw Hws]. split; [done|].
      apply Forall_cons. split; [|done].
      by apply not_elem_of_cons.
Qed.

Lemma value_of_line x (line field value : str) :
  x ∉ line → Py.split1 ":" line = [field; value] → x ∉ value.
Proof.
  intros Hline. unfold Py.split1.
  destruct (Py.cut ":" line) as [a [b|]] eqn:Hcut; [|done].
  intros [= <- <-] Hin. apply Hline. clear Hline.
  revert a Hcut. induction line as [|c line IH]; intros a Hcut; [done|].
  cbn in Hcut. case_bool_decide.
  - injection Hcut as <- <-. by right.
  - destruct (Py.cut ":" line) as [a' b'] eqn:Hcut'.
    injection Hcut as <- ->. right. by eapply IH.
Qed.

Lemma NoDup_snoc_fresh {A} (l : list A) x : NoDup l → x ∉ l → NoDup (l ++ [x]).
Proof.
  intros Hl Hx. apply NoDup_app. split_and!; [done| |apply NoDup_singleton].
  intros y Hy ->%list_elem_of_singleton. done.
Qed.

Lemma append_new_ok v (l : list str) :
  entry v → Forall entry l → NoDup l →
  Forall entry (append_new v l) ∧ NoDup (append_new v l).
Proof.
  intros Hv Hl Hdup. unfold append_new. case_bool_decide; [|done].
  split; [by apply Forall_app_2; [|apply Forall_singleton]|].
  by apply NoDup_snoc_fresh.
Qed.

(** [_process_line] keeps a contact exportable. *)
Lemma process_line_exportable self line :
  LF ∉ line → exportable self → exportable (_process_line self line).
Proof.
  intros Hline Hself. unfold _process_line.
  destruct (negb (Py.contains ":" line)); [done|].
  destruct (Py.split1 ":" line) as [|field [|value [|? ?]]] eqn:Hsplit;
    try done.
  pose proof (value_of_line LF _ _ _ Hline Hsplit) as Hvalue.
  destruct (Py.truthy (Py.strip value)) eqn:Htruthy; [|done]. cbn [negb].
  pose proof (entry_strip value Hvalue Htruthy) as Hentry.
  pose proof (proj1 Hentry) as Hclean.
  destruct Hself as (Hfn & Horg & Htitle & Hbday & Hurl & Hn & Hem & Hemd
                     & Hph & Hphd & Hadr & Hadrd & Hnote & Hnoted).
  repeat lazymatch goal with
  | |- exportable (if ?b then _ else _) => destruct b eqn:?
  end; unfold exportable; cbn; split_and!; try done.
  - intros _. rewrite (join_split_on ";"%char). split; [done|].
    apply split_on_pieces.
  - apply Forall_app_2; [done|by apply Forall_singleton].
  - rewrite map_app. apply NoDup_snoc_fresh; [done|].
    by eapply bool_decide_eq_true_1.
  - by apply append_new_ok.
  - by apply append_new_ok.
  - by apply append_new_ok.
  - by apply append_new_ok.
  - by apply append_new_ok.
  - by apply append_new_ok.
Qed.

Lemma lf_free_pieces (s : str) : Forall (λ l, LF ∉ l) (Py.split_on LF s).
Proof. apply split_on_pieces. Qed.

Lemma unfold_step_exportable st line :
  LF ∉ line → exportable st.1 → LF ∉ st.2 →
  exportable (unfold_step st line).1 ∧ LF ∉ (unfold_step st line).2.
Proof.
  destruct st as [self current]. cbn [fst snd]. intros Hline Hself Hcur.
  unfold unfold_step.
  destruct (Py.startswith " " line || Py.startswith [TAB] line).
  - split; [done|]. cbn [snd]. intros [Hin|Hin]%elem_of_app; [done|].
    apply Hline. destruct line; [done|]. by right.
  - split; [|done]. cbn [fst].
    destruct (Py.truthy current); [|done].
    by apply process_line_exportable.
Qed.

Lemma parse_vcard_exportable self text :
  exportable self → exportable (parse_vcard self text).
Proof.
  intros Hself. unfold parse_vcard.
  assert (exportable (fold_left unfold_step (Py.split_on LF text)
                        (set_raw_vcard text self, "")).1
          ∧ LF ∉ (fold_left unfold_step (Py.split_on LF text)
                    (set_raw_vcard text self, "")).2) as [H1 H2].
  { pose proof (lf_free_pieces text) as Hlines.
    assert (exportable (set_raw_vcard text self, ([] : str)).1
            ∧ LF ∉ (set_raw_vcard text self, ([] : str)).2) as Hinit.
    { split; [done|apply not_elem_of_nil]. }
    revert Hinit. generalize (set_raw_vcard text self, ([] : str)).
    induction Hlines as [|l ls Hl Hls IH]; intros st [Hst1 Hst2]; [done|].
    cbn [fold_left]. apply IH. by apply unfold_step_exportable. }
  destruct (fold_left _ _ _) as [s c]. cbn [fst snd] in *.
  destruct (Py.truthy c); [|done]. by apply process_line_exportable.
Qed.

Lemma empty_contact_exportable : exportable empty_contact.
Proof.
  unfold exportable, clean. cbn.
  split_and!; try done; try apply not_elem_of_nil; constructor.
Qed.

End Stored.

(** ** vCard files: export and import *)

Section Files.

Lemma lines_from_line (l : str) : ∀ current rest,
  LF ∉ l →
  lines_from current (l ++ LF :: rest)
  = (current ++ l ++ [LF]) :: lines_from [] rest.
Proof.
  induction l as [|c l IH]; intros current rest Hl.
  - cbn. by rewrite bool_decide_eq_true_2.
  - apply not_elem_of_cons in Hl as [Hc Hl]. cbn [app lines_from].
    rewrite bool_decide_eq_false_2 by done.
    rewrite IH by done. by rewrite <- app_assoc.
Qed.

Lemma lines_from_join (ls : list str) rest :
  ls ≠ [] → Forall (λ l, LF ∉ l) ls →
  lines_from [] (Py.join [LF] ls ++ LF :: rest)
  = map (λ l, l ++ [LF]) ls ++ lines_from [] rest.
Proof.
  induction ls as [|l ls IH]; [done|]. intros _ [Hl Hls]%Forall_cons.
  destruct ls as [|l' ls].
  - cbn [Py.join map]. by rewrite lines_from_line.
  - change (Py.join [LF] (l :: l' :: ls))
      with (l ++ LF :: Py.join [LF] (l' :: ls)).
    rewrite <- app_assoc. cbn [app].
    rewrite lines_from_line by done. rewrite IH by done. done.
Qed.

Lemma rstrip_line (l : str) :
  (∀ t c, l = t ++ [c] → Py.is_space c = false) →
  rstrip_chars [LF; CR] (l ++ [LF]) = l.
Proof.
  intros Hlast. unfold rstrip_chars. rewrite reverse_app, reverse_singleton.
  cbn [app lstrip_chars]. rewrite bool_decide_eq_true_2 by left.
  destruct (reverse l) as [|c t] eqn:Hrev.
  - apply (f_equal reverse) in Hrev. by rewrite reverse_involutive in Hrev.
  - cbn [lstrip_chars].
    assert (l = reverse t ++ [c]) as Hl.
    { apply (f_equal reverse) in Hrev.
      by rewrite reverse_involutive, reverse_cons in Hrev. }
    specialize (Hlast _ _ Hl).
    rewrite bool_decide_eq_false_2.
    + by rewrite <- Hrev, reverse_involutive.
    + intros [->|[->|Hin]%elem_of_cons]%elem_of_cons; try done.
      by apply elem_of_nil in Hin.
Qed.

Lemma rstrip_field (name v : str) :
  entry v → rstrip_chars [LF; CR] ((name ++ v) ++ [LF]) = name ++ v.
Proof.
  intros [[_ Hv] Hne]. apply rstrip_line. intros t c Ht.
  destruct (exists_last Hne) as (v' & c' & ->).
  rewrite app_assoc in Ht. apply app_inj_tail in Ht as [_ <-].
  by eapply stripped_last.
Qed.

Ltac body_field :=
  split; [by apply rstrip_field|split; reflexivity].

Lemma optional_body name v :
  clean v →
  (∀ v, Py.startswith "BEGIN:VCARD" (Py.upper (name ++ v)) = false) →
  (∀ v, Py.startswith "END:VCARD" (Py.upper (name ++ v)) = false) →
  Forall body_line (optional_line name v).
Proof.
  intros Hv H1 H2. unfold optional_line.
  destruct (Py.truthy v) eqn:Ht; [|done].
  apply Forall_singleton. split; [|by split].
  apply rstrip_field. split; [done|]. by destruct v.
Qed.

Lemma mapped_body name vs :
  Forall entry vs →
  (∀ v, Py.startswith "BEGIN:VCARD" (Py.upper (name ++ v)) = false) →
  (∀ v, Py.startswith "END:VCARD" (Py.upper (name ++ v)) = false) →
  Forall body_line (map (λ v, name ++ v) vs).
Proof.
  intros Hvs H1 H2. apply Forall_map.
  eapply Forall_impl; [exact Hvs|]. intros v Hv.
  split; [by apply rstrip_field|by split].
Qed.

(** The lines of a card: the first, the body, the last. *)
Lemma vcard_lines_body c :
  exportable c →
  ∃ body, vcard_lines c = "BEGIN:VCARD" :: body ++ ["END:VCARD"]
          ∧ Forall body_line body.
Proof.
  intros (Hfn & Horg & Htitle & Hbday & Hurl & Hn & Hem & _ & Hph & _
          & Hadr & _ & Hnote & _).
  exists ("VERSION:3.0"
          :: optional_line "FN:" (fn c)
          ++ match n_parts c with
             | [] => []
             | _ => ["N:" ++ Py.join ";" (n_parts c)]
             end
          ++ map (λ email, "EMAIL:" ++ email) (emails c)
          ++ map (λ phone, "TEL:" ++ phone) (phones c)
          ++ map (λ addr, "ADR:" ++ addr) (addresses c)
          ++ optional_line "ORG:" (org c)
          ++ optional_line "TITLE:" (title c)
          ++ optional_line "BDAY:" (birthday c)
          ++ optional_line "URL:" (url c)
          ++ map (λ note, "NOTE:" ++ note) (notes c)).
  split.
  - unfold vcard_lines.
    rewrite <- !app_comm_cons, <- !app_assoc. reflexivity.
  - apply Forall_cons. split; [by vm_compute|].
    repeat apply Forall_app_2.
    + by apply optional_body.
    + destruct (n_parts c) as [|p ps] eqn:Hparts; [done|].
      destruct Hn as [Hjoin _]; [done|].
      apply Forall_singleton. split; [by apply rstrip_field|by split].
    + by apply mapped_body.
    + by apply mapped_body.
    + by apply mapped_body.
    + by apply optional_body.
    + by apply optional_body.
    + by apply optional_body.
    + by apply optional_body.
    + by apply mapped_body.
Qed.

Lemma read_body name (ls : list str) : ∀ st,
  Forall body_line ls → in_vcard st = true →
  fold_left (read_line name) (map (λ l, l ++ [LF]) ls) st
  = {| contacts_read := contacts_read st;
       current_vcard := current_vcard st ++ ls;
       in_vcard := true |}.
Proof.
  induction ls as [|l ls IH]; intros st Hls Hin.
  - rewrite app_nil_r. destruct st. cbn in *. by subst.
  - apply Forall_cons in Hls as [(Hl1 & Hl2 & Hl3) Hls].
    cbn [map fold_left]. unfold read_line at 2.
    rewrite Hl1, Hl2, Hl3, Hin. rewrite IH by done.
    cbn. by rewrite <- app_assoc.
Qed.

Lemma read_card name c st :
  exportable c →
  fold_left (read_line name)
    (map (λ l, l ++ [LF]) (vcard_lines c) ++ [[LF]]) st
  = {| contacts_read :=
         contacts_read st
         ++ (if identified c then [reimported name c] else []);
       current_vcard := [];
       in_vcard := false |}.
Proof.
  intros Hc. destruct (vcard_lines_body c Hc) as (body & Hlines & Hbody).
  pose proof (to_vcard_lines c) as Htext.
  pose proof (parsed_exported c Hc) as Hparsed.
  rewrite Hlines in *. clear Hlines.
  rewrite fold_left_app. cbn [map fold_left].
  rewrite map_app, fold_left_app. cbn [map fold_left].
  change (read_line name st ("BEGIN:VCARD" ++ [LF]))
    with {| contacts_read := contacts_read st;
            current_vcard := ["BEGIN:VCARD"]; in_vcard := true |}.
  rewrite read_body by done. cbn [contacts_read current_vcard in_vcard].
  unfold read_line at 2.
  change (rstrip_chars [LF; CR] ("END:VCARD" ++ [LF])) with "END:VCARD".
  change (Py.startswith "BEGIN:VCARD" (Py.upper "END:VCARD")) with false.
  change (Py.startswith "END:VCARD" (Py.upper "END:VCARD")) with true.
  cbn [in_vcard current_vcard contacts_read].
  change (["BEGIN:VCARD"] ++ body) with ("BEGIN:VCARD" :: body).
  change (("BEGIN:VCARD" :: body) ++ ["END:VCARD"])
    with ("BEGIN:VCARD" :: body ++ ["END:VCARD"]).
  rewrite <- Htext, Hparsed.
  unfold read_line.
  change (rstrip_chars [LF; CR] [LF]) with ([] : str).
  cbn [Py.upper map Py.startswith in_vcard].
  unfold identified, reimported.
  destruct c as [fn0 n0 em0 ph0 ad0 no0 org0 ti0 bd0 url0 raw0 src0].
  cbn. destruct (Py.truthy fn0), em0, ph0; cbn; by rewrite ?app_nil_r.
Qed.

Lemma translate_cr_free (text : str) :
  CR ∉ text → translate_newlines false text = text.
Proof.
  induction text as [|c text IH]; [done|].
  intros [Hc Htext]%not_elem_of_cons. cbn [translate_newlines].
  rewrite bool_decide_eq_false_2 by done.
  case_bool_decide as Hlf; [subst c|]; by rewrite IH.
Qed.

Lemma lines_exported c (rest : str) :
  exportable c →
  lines_from [] ((to_vcard c ++ [LF; LF]) ++ rest)
  = (map (λ l, l ++ [LF]) (vcard_lines c) ++ [[LF]]) ++ lines_from [] rest.
Proof.
  intros Hc. rewrite to_vcard_lines, <- !app_assoc. cbn [app].
  pose proof (vcard_lines_ok c Hc) as Hlines.
  rewrite lines_from_join.
  - cbn [lines_from]. rewrite bool_decide_eq_true_2 by done. done.
  - by unfold vcard_lines.
  - eapply Forall_impl; [exact Hlines|]. by intros l [? ?].
Qed.

Lemma exported_then_parsed name cs : ∀ st,
  Forall exportable cs →
  fold_left (read_line name) (lines_from [] (exported_text cs)) st
  = {| contacts_read :=
         contacts_read st ++ map (reimported name) (filter identified cs);
       current_vcard := match cs with [] => current_vcard st | _ => [] end;
       in_vcard := match cs with [] => in_vcard st | _ => false end |}.
Proof.
  induction cs as [|c cs IH]; intros st Hcs.
  - cbn. rewrite app_nil_r. by destruct st.
  - apply Forall_cons in Hcs as [Hc Hcs].
    unfold exported_text. cbn [flat_map]. fold (exported_text cs).
    rewrite lines_exported, fold_left_app by done.
    rewrite read_card by done. rewrite IH by done.
    cbn [contacts_read current_vcard in_vcard].
    destruct (decide (identified c)) as [Hid|Hid].
    + rewrite filter_cons_True by done. apply Is_true_true in Hid.
      rewrite Hid. cbn [map]. rewrite <- app_assoc. cbn [app].
      by destruct cs.
    + rewrite filter_cons_False by done. apply Is_true_false in Hid.
      rewrite Hid, app_nil_r. by destruct cs.
Qed.

Lemma import_exported name cs :
  Forall exportable cs → CR ∉ exported_text cs →
  parse_vcard_file (file_lines (exported_text cs)) name
  = map (reimported name) (filter identified cs).
Proof.
  intros Hcs Hcr. unfold parse_vcard_file, file_lines.
  rewrite translate_cr_free by done.
  by rewrite exported_then_parsed.
Qed.

End Files.

Section Imported.

Lemma process_line_source self line :
  source_file (_process_line self line) = source_file self.
Proof.
  unfold _process_line.
  repeat lazymatch goal with
  | |- source_file (if ?b then _ else _) = _ => destruct b
  | |- source_file (match ?l with [] => _ | _ => _ end) = _ => destruct l
  end; done.
Qed.

Lemma parse_vcard_source self text :
  source_file (parse_vcard self text) = source_file self.
Proof.
  unfold parse_vcard.
  assert (∀ ls st, source_file (fold_left unfold_step ls st).1
                   = source_file st.1) as Hloop.
  { induction ls as [|l ls IH]; intros [s cur]; [done|].
    cbn [fold_left]. rewrite IH. unfold unfold_step.
    destruct (_ || _); [done|]. cbn [fst].
    destruct (Py.truthy cur); [|done]. apply process_line_source. }
  specialize (Hloop (Py.split_on LF text) (set_raw_vcard text self, "")).
  destruct (fold_left _ _ _) as [s cur]. cbn [fst] in Hloop.
  destruct (Py.truthy cur); [|done].
  by rewrite process_line_source.
Qed.

Lemma read_line_imported name st line :
  Forall (imported name) (contacts_read st) →
  Forall (imported name) (contacts_read (read_line name st line)).
Proof.
  intros Hst. unfold read_line.
  destruct (Py.startswith "BEGIN:VCARD" _); [done|].
  destruct (Py.startswith "END:VCARD" _); [|by destruct (in_vcard st)].
  destruct (in_vcard st); [|done]. cbn [contacts_read].
  set (c := set_source_file name _).
  fold (identified c). destruct (identified c) eqn:Hid; [|done].
  apply Forall_app_2; [done|]. apply Forall_singleton.
  split_and!; [done|done|].
  apply (parse_vcard_exportable empty_contact), empty_contact_exportable.
Qed.

Lemma parse_vcard_file_imported file name :
  Forall (imported name) (parse_vcard_file file name).
Proof.
  unfold parse_vcard_file.
  assert (Forall (imported name)
            (contacts_read {| contacts_read := []; current_vcard := [];
                              in_vcard := false |})) as Hinit by done.
  revert Hinit. generalize {| contacts_read := []; current_vcard := [];
                              in_vcard := false |}.
  induction file as [|l file IH]; intros st Hst; [done|].
  cbn [fold_left]. by apply IH, read_line_imported.
Qed.

End Imported.

(** ** Carriage returns *)

Section CarriageReturns.

Lemma split_on_chars x sep (s : str) :
  x ∉ s → Forall (λ p, x ∉ p) (Py.split_on sep s).
Proof.
  induction s as [|c s IH]; intros Hs.
  - apply Forall_singleton, not_elem_of_nil.
  - apply not_elem_of_cons in Hs as [Hc Hs]. specialize (IH Hs).
    cbn [Py.split_on]. case_bool_decide.
    + apply Forall_cons. split; [apply not_elem_of_nil|done].
    + destruct (Py.split_on sep s) as [|w ws].
      * apply Forall_singleton, not_elem_of_cons.
        split; [done|apply not_elem_of_nil].
      * apply Forall_cons in IH as [Hw Hws]. apply Forall_cons.
        split; [|done]. by apply not_elem_of_cons.
Qed.

Lemma join_chars x (sep : str) (ls : list str) :
  x ∉ sep → Forall (λ l, x ∉ l) ls → x ∉ Py.join sep ls.
Proof.
  intros Hsep. induction 1 as [|l ls Hl Hls IH]; [apply not_elem_of_nil|].
  destruct ls as [|l' ls]; [done|].
  change (Py.join sep (l :: l' :: ls))
    with (l ++ sep ++ Py.join sep (l' :: ls)).
  intros [?|[?|?]%elem_of_app]%elem_of_app; tauto.
Qed.

Lemma strip_chars x (s : str) : x ∉ s → x ∉ Py.strip s.
Proof. intros Hs Hin. by apply Hs, elem_of_strip. Qed.

Lemma append_new_chars x v (l : list str) :
  x ∉ v → Forall (λ v, x ∉ v) l → Forall (λ v, x ∉ v) (append_new v l).
Proof.
  intros Hv Hl. unfold append_new. case_bool_decide; [|done].
  apply Forall_app_2; [done|by apply Forall_singleton].
Qed.

Lemma process_line_cr_free self line :
  CR ∉ line → cr_free self → cr_free (_process_line self line).
Proof.
  intros Hline Hself. unfold _process_line.
  destruct (negb (Py.contains ":" line)); [done|].
  destruct (Py.split1 ":" line) as [|field [|value [|? ?]]] eqn:Hsplit;
    try done.
  pose proof (strip_chars _ _ (value_of_line CR _ _ _ Hline Hsplit))
    as Hvalue.
  destruct (negb (Py.truthy (Py.strip value))); [done|].
  destruct Hself as (Hfn & Horg & Htitle & Hbday & Hurl & Hn & Hem & Hph
                     & Hadr & Hnote).
  repeat lazymatch goal with
  | |- cr_free (if ?b then _ else _) => destruct b eqn:?
  end; unfold cr_free; cbn; split_and!; try done.
  - by apply split_on_chars.
  - apply Forall_app_2; [done|by apply Forall_singleton].
  - by apply append_new_chars.
  - by apply append_new_chars.
  - by apply append_new_chars.
Qed.

Lemma parse_vcard_cr_free self text :
  CR ∉ text → cr_free self → cr_free (parse_vcard self text).
Proof.
  intros Htext Hself. unfold parse_vcard.
  assert (cr_free (fold_left unfold_step (Py.split_on LF text)
                     (set_raw_vcard text self, "")).1
          ∧ CR ∉ (fold_left unfold_step (Py.split_on LF text)
                    (set_raw_vcard text self, "")).2) as [H1 H2].
  { pose proof (split_on_chars CR LF text Htext) as Hlines.
    assert (cr_free (set_raw_vcard text self, ([] : str)).1
            ∧ CR ∉ (set_raw_vcard text self, ([] : str)).2) as Hinit.
    { split; [done|apply not_elem_of_nil]. }
    revert Hinit. generalize (set_raw_vcard text self, ([] : str)).
    induction Hlines as [|l ls Hl Hls IH]; intros [s cur] [Hst1 Hst2];
      [done|].
    cbn [fold_left]. apply IH. cbn [fst snd] in *. unfold unfold_step.
    destruct (_ || _).
    - split; [done|]. cbn [snd]. intros [Hin|Hin]%elem_of_app; [done|].
      apply Hl. destruct l; [done|]. by right.
    - split; [|done]. cbn [fst].
      destruct (Py.truthy cur); [|done]. by apply process_line_cr_free. }
  destruct (fold_left _ _ _) as [s c]. cbn [fst snd] in *.
  destruct (Py.truthy c); [|done]. by apply process_line_cr_free.
Qed.

Lemma mapped_lines_chars x (name : str) (vs : list str) :
  x ∉ name → Forall (λ v, x ∉ v) vs →
  Forall (λ l, x ∉ l) (map (λ v, name ++ v) vs).
Proof.
  intros Hname Hvs. apply Forall_map. eapply Forall_impl; [exact Hvs|].
  intros v Hv. cbn in *. intros [?|?]%elem_of_app; done.
Qed.

Lemma optional_line_chars x (name v : str) :
  x ∉ name → x ∉ v → Forall (λ l, x ∉ l) (optional_line name v).
Proof.
  intros Hname Hv. unfold optional_line. destruct (Py.truthy v); [|done].
  apply Forall_singleton. intros [?|?]%elem_of_app; done.
Qed.

Lemma to_vcard_cr_free c : cr_free c → CR ∉ to_vcard c.
Proof.
  intros (Hfn & Horg & Htitle & Hbday & Hurl & Hn & Hem & Hph & Hadr
          & Hnote).
  rewrite to_vcard_lines. apply join_chars; [not_in_closed_list|].
  unfold vcard_lines. repeat apply Forall_app_2.
  - repeat constructor; not_in_closed_list.
  - apply optional_line_chars; [not_in_closed_list|done].
  - destruct (n_parts c) as [|p ps] eqn:Hparts; [done|].
    apply Forall_singleton. intros [Hin|Hin]%elem_of_app.
    + revert Hin. not_in_closed_list.
    + revert Hin. apply join_chars; [not_in_closed_list|done].
  - apply mapped_lines_chars; [not_in_closed_list|done].
  - apply mapped_lines_chars; [not_in_closed_list|done].
  - apply mapped_lines_chars; [not_in_closed_list|done].
  - apply optional_line_chars; [not_in_closed_list|done].
  - apply optional_line_chars; [not_in_closed_list|done].
  - apply optional_line_chars; [not_in_closed_list|done].
  - apply optional_line_chars; [not_in_closed_list|done].
  - apply mapped_lines_chars; [not_in_closed_list|done].
  - repeat constructor; not_in_closed_list.
Qed.

Lemma exported_text_cr_free cs : Forall cr_free cs → CR ∉ exported_text cs.
Proof.
  induction 1 as [|c cs Hc Hcs IH]; [apply not_elem_of_nil|].
  unfold exported_text. cbn [flat_map]. fold (exported_text cs).
  intros [[Hin|Hin]%elem_of_app|Hin]%elem_of_app; [|revert Hin|done].
  - by apply (to_vcard_cr_free c).
  - not_in_closed_list.
Qed.

Lemma translate_no_cr (text : str) : ∀ after_cr,
  CR ∉ translate_newlines after_cr text.
Proof.
  induction text as [|c text IH]; intros after_cr; [apply not_elem_of_nil|].
  cbn [translate_newlines]. case_bool_decide as Hcr.
  - apply not_elem_of_cons. split; [done|apply IH].
  - case_bool_decide as Hlf.
    + destruct after_cr; [apply IH|].
      apply not_elem_of_cons. split; [done|apply IH].
    + apply not_elem_of_cons. split; [congruence|apply IH].
Qed.

Lemma lines_from_chars x (text : str) : ∀ current,
  x ∉ current → x ∉ text → Forall (λ l, x ∉ l) (lines_from current text).
Proof.
  induction text as [|c text IH]; intros current Hcur Htext.
  - cbn. destruct current; [done|]. by apply Forall_singleton.
  - apply not_elem_of_cons in Htext as [Hc Htext].
    assert (x ∉ current ++ [c]) as Hcur'.
    { intros [?|Hin%list_elem_of_singleton]%elem_of_app; [done|].
      by subst. }
    cbn [lines_from]. case_bool_decide.
    + apply Forall_cons. split; [done|].
      apply IH; [apply not_elem_of_nil|done].
    + by apply IH.
Qed.

Lemma lstrip_chars_chars x chars (l : str) :
  x ∉ l → x ∉ lstrip_chars chars l.
Proof.
  induction l as [|c l IH]; [done|].
  intros Hl. cbn [lstrip_chars]. case_bool_decide; [|done].
  apply IH. by apply not_elem_of_cons in Hl as [_ ?].
Qed.

Lemma rstrip_chars_chars x chars (l : str) :
  x ∉ l → x ∉ rstrip_chars chars l.
Proof.
  intros Hl. unfold rstrip_chars. rewrite elem_of_reverse.
  apply lstrip_chars_chars. by rewrite elem_of_reverse.
Qed.

Lemma empty_contact_cr_free : cr_free empty_contact.
Proof.
  unfold cr_free. cbn. split_and!; try apply not_elem_of_nil; constructor.
Qed.

Lemma read_line_cr_free name st line :
  CR ∉ line →
  Forall (λ l, CR ∉ l) (current_vcard st) ∧ Forall cr_free (contacts_read st) →
  Forall (λ l, CR ∉ l) (current_vcard (read_line name st line))
  ∧ Forall cr_free (contacts_read (read_line name st line)).
Proof.
  intros Hline [Hcur Hst]. unfold read_line.
  pose proof (rstrip_chars_chars CR [LF; CR] line Hline) as Hl.
  destruct (Py.startswith "BEGIN:VCARD" _).
  { split; [by apply Forall_singleton|done]. }
  destruct (Py.startswith "END:VCARD" _).
  - destruct (in_vcard st); [|done]. cbn [contacts_read current_vcard].
    split; [done|].
    destruct (_ || _); [|done].
    apply Forall_app_2; [done|]. apply Forall_singleton.
    apply (parse_vcard_cr_free empty_contact);
      [|apply empty_contact_cr_free].
    apply join_chars; [not_in_closed_list|].
    apply Forall_app_2; [done|by apply Forall_singleton].
  - destruct (in_vcard st); [|done]. cbn [contacts_read current_vcard].
    split; [|done]. apply Forall_app_2; [done|by apply Forall_singleton].
Qed.

Lemma parse_vcard_file_cr_free file name :
  Forall (λ l, CR ∉ l) file → Forall cr_free (parse_vcard_file file name).
Proof.
  intros Hfile. unfold parse_vcard_file.
  assert (Forall (λ l, CR ∉ l) (current_vcard
            {| contacts_read := []; current_vcard := [];
               in_vcard := false |})
          ∧ Forall cr_free (contacts_read
            {| contacts_read := []; current_vcard := [];
               in_vcard := false |})) as Hinit by done.
  revert Hinit. generalize {| contacts_read := []; current_vcard := [];
                              in_vcard := false |}.
  induction Hfile as [|l file Hl Hfile IH]; intros st Hst; [by destruct Hst|].
  cbn [fold_left]. by apply IH, read_line_cr_free.
Qed.

Lemma reimported_imported name c :
  imported name c → reimported name c = set_raw_vcard (to_vcard c) c.
Proof. intros [<- _]. by destruct c. Qed.

Lemma filter_all {A} (P : A → Prop) `{∀ x, Decision (P x)} (l : list A) :
  Forall P l → filter P l = l.
Proof.
  induction 1 as [|x l Hx Hl IH]; [done|].
  by rewrite filter_cons_True, IH.
Qed.

Lemma reimport_stable text name :
  let cs := parse_vcard_file (file_lines text) name in
  parse_vcard_file (file_lines (exported_text cs)) name
  = map (λ c, set_raw_vcard (to_vcard c) c) cs.
Proof.
  intros cs.
  pose proof (parse_vcard_file_imported (file_lines text) name) as Himp.
  fold cs in Himp.
  assert (Forall cr_free cs) as Hcr.
  { apply parse_vcard_file_cr_free, lines_from_chars;
      [apply not_elem_of_nil|apply translate_no_cr]. }
  rewrite import_exported.
  - rewrite filter_all.
    + apply Forall_fmap_ext_1. eapply Forall_impl; [exact Himp|].
      intros c Hc. by apply reimported_imported.
    + eapply Forall_impl; [exact Himp|]. intros c (_ & Hid & _).
      by apply Is_true_true.
  - eapply Forall_impl; [exact Himp|]. by intros c (_ & _ & ?).
  - by apply exported_text_cr_free.
Qed.

End CarriageReturns.

(** ** Export and import of vCard text *)

Ltac closed_value :=
  cbn beta;
  lazymatch goal with
  | |- clean _ => split; [not_in_closed_list|reflexivity]
  | |- entry _ => split; [split; [not_in_closed_list|reflexivity]|discriminate]
  | |- _ ∉ _ => not_in_closed_list
  | |- Forall _ _ =>
      repeat (apply Forall_cons_2; [closed_value|]); apply Forall_nil_2
  | |- NoDup ?l =>
      let l' := eval vm_compute in l in
      change (NoDup l');
      repeat (apply NoDup_cons_2; [not_in_closed_list|]); apply NoDup_nil_2
  | |- _ → _ =>
      let H := fresh in
      first [intros H; exfalso; by apply H | intros _; split; closed_value]
  end.

Ltac closed_exportable :=
  unfold exportable; cbn [fn n_parts emails phones addresses notes org title
                          birthday url];
  split_and!; closed_value.

(** X1. A contact whose values are clean survives an export: parsing the
    text of [to_vcard] into a fresh contact gives every field back, with
    [raw_vcard] holding the text and an empty [source_file].  The contact
    is [exportable]: no value holds a line feed or has whitespace at its
    ends, no entry of a list field is empty, e-mail addresses differ
    beyond case, phones, addresses and notes hold no entry twice, and the
    name parts hold no semicolon and do not join to an empty text. *)
Theorem export_then_parse (c : VCardContact) :
  exportable c →
  parse_vcard empty_contact (to_vcard c)
  = set_source_file "" (set_raw_vcard (to_vcard c) c).
Proof. apply parsed_exported. Qed.

Lemma export_then_parse_witness :
  let c := {| fn := "Ann Lee"; n_parts := ["Lee"; "Ann"; ""; ""; ""];
              emails := ["ann@x.com"; "A.Lee@y.org"];
              phones := ["+1 650 555 1234"];
              addresses := [";;1 Main St;Town"];
              notes := ["met: 2019"]; org := "Acme"; title := "";
              birthday := "1990-01-01"; url := "";
              raw_vcard := "old"; source_file := "a.vcf" |} in
  parse_vcard empty_contact (to_vcard c)
  = set_source_file "" (set_raw_vcard (to_vcard c) c).
Proof.
  intros c. apply (export_then_parse c). closed_exportable.
Defined.

(** X2. Whatever text [parse_vcard] reads into a fresh contact, the contact
    it leaves is exportable, and exporting it and parsing the export again
    gives the same contact, up to [raw_vcard]. *)
Theorem parse_then_export (text : str) :
  let c := parse_vcard empty_contact text in
  exportable c
  ∧ parse_vcard empty_contact (to_vcard c) = set_raw_vcard (to_vcard c) c.
Proof.
  intros c.
  assert (exportable c) as Hc.
  { apply parse_vcard_exportable, empty_contact_exportable. }
  split; [done|]. rewrite parsed_exported by done.
  unfold reimported.
  pose proof (parse_vcard_source empty_contact text) as Hsrc. fold c in Hsrc.
  destruct c. cbn in *. by subst.
Qed.

(** X3. Reading back the text that the export loop writes returns, in
    order, the exported contacts that have a name, an e-mail address or a
    phone, each with the source name and with its exported text as
    [raw_vcard]; the other contacts are dropped.  The contacts are
    exportable and the text holds no carriage return. *)
Theorem import_of_export (cs : list VCardContact) (source_name : str) :
  Forall exportable cs → CR ∉ exported_text cs →
  parse_vcard_file (file_lines (exported_text cs)) source_name
  = map (λ c, set_source_file source_name (set_raw_vcard (to_vcard c) c))
      (filter identified cs).
Proof. apply import_exported. Qed.

Lemma import_of_export_witness :
  let cs := [contact_of "Ann Lee" ["ann@x.com"] ["555 1234"] "Acme";
             contact_of "" [] [] "Nameless Ltd";
             contact_of "Bo" [] [] ""] in
  parse_vcard_file (file_lines (exported_text cs)) "merged.vcf"
  = map (λ c, set_source_file "merged.vcf" (set_raw_vcard (to_vcard c) c))
      (filter identified cs).
Proof.
  intros cs. apply (import_of_export cs).
  - unfold cs.
    repeat (apply Forall_cons_2; [unfold contact_of; closed_exportable|]).
    apply Forall_nil_2.
  - let t := eval vm_compute in (exported_text cs) in
    change (exported_text cs) with t.
    not_in_closed_list.
Defined.

(** X4. Every contact that [parse_vcard_file] returns carries the source
    name, has a name, an e-mail address or a phone, and is exportable. *)
Theorem imported_contacts (file : list str) (source_name : str) :
  Forall (λ c, source_file c = source_name ∧ identified c = true
               ∧ exportable c)
    (parse_vcard_file file source_name).
Proof. apply parse_vcard_file_imported. Qed.

(** X5. Import, export, import: the contacts read from a text file, written
    by the export loop and read again are the same contacts, up to
    [raw_vcard]. *)
Theorem import_export_import (text : str) (source_name : str) :
  let cs := parse_vcard_file (file_lines text) source_name in
  parse_vcard_file (file_lines (exported_text cs)) source_name
  = map (λ c, set_raw_vcard (to_vcard c) c) cs.
Proof. apply reimport_stable. Qed.

(** ** The list fields of a merged contact *)

Section Keyed.

Variable key : str → str.
Variable ok : str → bool.

Lemma add_keyed_NoDup merged x :
  NoDup (map key merged) → NoDup (map key (add_keyed key ok merged x)).
Proof.
  intros Hdup. unfold add_keyed.
  destruct (ok x); cbn [andb]; [|done].
  case_bool_decide as Hx; [|done].
  rewrite map_app. by apply NoDup_snoc_fresh.
Qed.

Lemma keyed_NoDup xs : ∀ merged,
  NoDup (map key merged) →
  NoDup (map key (fold_left (add_keyed key ok) xs merged)).
Proof.
  induction xs as [|x xs IH]; intros merged Hdup; [done|].
  cbn [fold_left]. by apply IH, add_keyed_NoDup.
Qed.

(** Nothing is invented. *)
Lemma keyed_origin xs : ∀ merged y,
  y ∈ fold_left (add_keyed key ok) xs merged →
  y ∈ merged ∨ (y ∈ xs ∧ ok y = true).
Proof.
  induction xs as [|x xs IH]; intros merged y Hy; [by left|].
  cbn [fold_left] in Hy. apply IH in Hy as [Hy|[Hy Hok]].
  - unfold add_keyed in Hy. destruct (ok x) eqn:Hx; cbn [andb] in Hy.
    + case_bool_decide; [|by left].
      apply elem_of_app in Hy as [Hy|Hy%list_elem_of_singleton];
        [by left|].
      subst y. right. split; [left|done].
    + by left.
  - right. split; [by right|done].
Qed.

(** Nothing kept is dropped later. *)
Lemma keyed_kept xs : ∀ merged y,
  y ∈ merged → y ∈ fold_left (add_keyed key ok) xs merged.
Proof.
  induction xs as [|x xs IH]; intros merged y Hy; [done|].
  cbn [fold_left]. apply IH. unfold add_keyed.
  destruct (_ && _); [|done]. apply elem_of_app. by left.
Qed.

(** Every admissible value is represented by its key. *)
Lemma keyed_covered xs : ∀ merged y,
  y ∈ xs → ok y = true →
  key y ∈ map key (fold_left (add_keyed key ok) xs merged).
Proof.
  induction xs as [|x xs IH]; intros merged y Hy Hok.
  - by apply elem_of_nil in Hy.
  - cbn [fold_left]. apply elem_of_cons in Hy as [->|Hy]; [|by apply IH].
    assert (key x ∈ map key (add_keyed key ok merged x)) as Hin.
    { unfold add_keyed. rewrite Hok. cbn [andb].
      destruct (decide (key x ∈ map key merged)) as [Hx|Hx].
      - by rewrite bool_decide_eq_false_2 by by intros ?.
      - rewrite bool_decide_eq_true_2 by done.
        rewrite map_app. apply elem_of_app. right. left. }
    apply list_elem_of_fmap in Hin as (z & Hz & Hin). rewrite Hz.
    apply list_elem_of_fmap_2. by apply keyed_kept.
Qed.

End Keyed.

Section MergedFields.

Lemma merge_emails_keyed merged es :
  merge_emails merged es
  = fold_left (add_keyed Py.lower (λ _, true)) es merged.
Proof. done. Qed.

Lemma merge_phones_keyed merged ps :
  merge_phones merged ps
  = fold_left
      (add_keyed normalize_phone (λ p, Py.truthy (normalize_phone p)))
      ps merged.
Proof. done. Qed.

Lemma merge_exact_keyed merged xs :
  merge_exact merged xs = fold_left (add_keyed id (λ _, true)) xs merged.
Proof.
  revert merged. induction xs as [|x xs IH]; intros merged; [done|].
  unfold merge_exact in *. cbn [fold_left]. rewrite IH.
  unfold add_keyed. cbn [andb]. by rewrite map_id.
Qed.

Lemma first_truthy_single v : first_truthy [v] = v.
Proof. by destruct v. Qed.

Lemma first_truthy_or_else a b vs :
  first_truthy (or_else a b :: vs) = first_truthy (a :: b :: vs).
Proof. unfold or_else. cbn. by destruct a, b. Qed.

(** The fields of the contact after the second loop of
    [merge_contacts]. *)
Lemma merge_loop_fields cs : ∀ merged sources,
  let m := (fold_left merge_step cs (merged, sources)).1 in
  emails m
  = fold_left (add_keyed Py.lower (λ _, true)) (flat_map emails cs)
      (emails merged)
  ∧ phones m
    = fold_left
        (add_keyed normalize_phone (λ p, Py.truthy (normalize_phone p)))
        (flat_map phones cs) (phones merged)
  ∧ addresses m
    = fold_left (add_keyed id (λ _, true)) (flat_map addresses cs)
        (addresses merged)
  ∧ notes m
    = fold_left (add_keyed id (λ _, true)) (flat_map notes cs)
        (notes merged)
  ∧ org m = first_truthy (org merged :: map org cs)
  ∧ title m = first_truthy (title merged :: map title cs)
  ∧ birthday m = first_truthy (birthday merged :: map birthday cs)
  ∧ url m = first_truthy (url merged :: map url cs)
  ∧ n_parts m = n_parts merged
  ∧ raw_vcard m = raw_vcard merged.
Proof.
  induction cs as [|c cs IH]; intros merged sources.
  - cbn [fold_left flat_map map fst]. cbv zeta.
    by rewrite !first_truthy_single.
  - cbn [fold_left flat_map map]. cbv zeta.
    destruct (merge_step (merged, sources) c) as [m' s'] eqn:Hstep.
    specialize (IH m' s'). cbv zeta in IH.
    destruct IH as (H1 & H2 & H3 & H4 & H5 & H6 & H7 & H8 & H9 & H10).
    rewrite H1, H2, H3, H4, H5, H6, H7, H8, H9, H10.
    unfold merge_step in Hstep. injection Hstep as <- <-.
    cbn [emails phones addresses notes org title birthday url n_parts
         raw_vcard].
    rewrite !fold_left_app, merge_emails_keyed, merge_phones_keyed,
      !merge_exact_keyed.
    by rewrite !first_truthy_or_else.
Qed.

End MergedFields.

Section MergedContact.

Lemma elem_of_flat_map {A B} (f : A → list B) (l : list A) x :
  x ∈ flat_map f l ↔ ∃ c, c ∈ l ∧ x ∈ f c.
Proof.
  rewrite list_elem_of_In, in_flat_map. split.
  - intros (c & Hc & Hx). exists c. by rewrite !list_elem_of_In.
  - intros (c & Hc & Hx). exists c. by rewrite <- !list_elem_of_In.
Qed.

Lemma keyed_sublist key ok xs : ∀ merged,
  sublist (fold_left (add_keyed key ok) xs merged) (merged ++ xs).
Proof.
  induction xs as [|x xs IH]; intros merged.
  - by rewrite app_nil_r.
  - cbn [fold_left]. etrans; [apply IH|].
    unfold add_keyed. destruct (_ && _).
    + by rewrite <- app_assoc.
    + apply sublist_app; [done|]. by apply sublist_cons.
Qed.

Lemma first_truthy_twice a vs :
  first_truthy (a :: a :: vs) = first_truthy (a :: vs).
Proof. cbn. by destruct a. Qed.

(** The contact that [merge_contacts] returns, field by field. *)
Lemma merge_contacts_fields c0 cs :
  ∃ m, merge_contacts (c0 :: cs) = Ret (Some m)
    ∧ emails m
      = fold_left (add_keyed Py.lower (λ _, true))
          (flat_map emails (c0 :: cs)) []
    ∧ phones m
      = fold_left
          (add_keyed normalize_phone (λ p, Py.truthy (normalize_phone p)))
          (flat_map phones (c0 :: cs)) []
    ∧ addresses m
      = fold_left (add_keyed id (λ _, true))
          (flat_map addresses (c0 :: cs)) []
    ∧ notes m
      = fold_left (add_keyed id (λ _, true)) (flat_map notes (c0 :: cs)) []
    ∧ org m = first_truthy (map org (c0 :: cs))
    ∧ title m = first_truthy (map title (c0 :: cs))
    ∧ birthday m = first_truthy (map birthday (c0 :: cs))
    ∧ url m = first_truthy (map url (c0 :: cs))
    ∧ n_parts m = n_parts c0
    ∧ raw_vcard m = "".
Proof.
  unfold merge_contacts.
  match goal with
  | |- context [fold_left merge_step ?l (?m, ?s)] =>
      pose proof (merge_loop_fields l m s) as Hloop;
      destruct (fold_left merge_step l (m, s)) as [merged sources]
  end.
  cbv zeta in Hloop.
  cbn [fst emails phones addresses notes org title birthday url n_parts
       raw_vcard] in Hloop.
  destruct Hloop as (H1 & H2 & H3 & H4 & H5 & H6 & H7 & H8 & H9 & H10).
  eexists. split; [reflexivity|].
  cbn [emails phones addresses notes org title birthday url n_parts
       raw_vcard].
  rewrite H5, H6, H7, H8. cbn [map]. rewrite !first_truthy_twice.
  by split_and!.
Qed.

End MergedContact.

(** ** The sources of a merged contact *)

Section Sources.

Lemma code_inj a b : Py.code a = Py.code b → a = b.
Proof.
  unfold Py.code. intros H.
  by rewrite <- (ascii_nat_embedding a), <- (ascii_nat_embedding b), H.
Qed.

Lemma str_leb_total a : ∀ b, str_leb a b = false → str_leb b a = true.
Proof.
  induction a as [|x a IH]; intros [|y b]; cbn [str_leb]; try done.
  destruct (Py.code x <? Py.code y)%nat eqn:H1; [done|].
  destruct (Py.code y <? Py.code x)%nat eqn:H2; [done|]. apply IH.
Qed.

Lemma str_leb_antisym a : ∀ b,
  str_leb a b = true → str_leb b a = true → a = b.
Proof.
  induction a as [|x a IH]; intros [|y b]; cbn [str_leb]; try done.
  destruct (Py.code x <? Py.code y)%nat eqn:H1;
    destruct (Py.code y <? Py.code x)%nat eqn:H2; try done.
  { apply Nat.ltb_lt in H1, H2. lia. }
  apply Nat.ltb_ge in H1, H2. intros Hab Hba.
  f_equal; [apply code_inj; lia|by apply IH].
Qed.

Lemma str_leb_trans a : ∀ b c,
  str_leb a b = true → str_leb b c = true → str_leb a c = true.
Proof.
  induction a as [|x a IH]; intros [|y b] [|z c]; cbn [str_leb]; try done.
  destruct (Py.code x <? Py.code y)%nat eqn:H1;
    destruct (Py.code y <? Py.code z)%nat eqn:H2;
    destruct (Py.code x <? Py.code z)%nat eqn:H3;
    destruct (Py.code y <? Py.code x)%nat eqn:H4;
    destruct (Py.code z <? Py.code y)%nat eqn:H5;
    destruct (Py.code z <? Py.code x)%nat eqn:H6;
    try done;
    repeat match goal with
           | H : (_ <? _)%nat = true |- _ => apply Nat.ltb_lt in H
           | H : (_ <? _)%nat = false |- _ => apply Nat.ltb_ge in H
           end; try lia.
  apply IH.
Qed.

Lemma str_lt_trans a b c : str_leb a b = true → str_lt b c → str_lt a c.
Proof.
  intros Hab [Hbc Hne]. split; [by eapply str_leb_trans|].
  intros ->. apply Hne. by apply str_leb_antisym.
Qed.

Lemma sorted_insert_spec x l :
  ascending l →
  ascending (sorted_insert x l)
  ∧ ∀ y, y ∈ sorted_insert x l ↔ y = x ∨ y ∈ l.
Proof.
  induction l as [|z l IH]; intros Hl.
  - split; [by split|]. intros y. cbn. rewrite list_elem_of_singleton.
    split; [by left|]. intros [?|?%elem_of_nil]; done.
  - destruct Hl as [Hz Hl]. destruct (IH Hl) as [IH1 IH2]. clear IH.
    cbn [sorted_insert]. case_bool_decide as Hxz.
    { subst z. split; [by split|]. intros y. split; [by right|].
      intros [->|?]; [left|done]. }
    destruct (str_leb x z) eqn:Hleb.
    + split.
      * split; [|by split]. apply Forall_cons. split; [by split|].
        eapply Forall_impl; [exact Hz|]. intros w Hw.
        by eapply str_lt_trans.
      * intros y. by rewrite elem_of_cons.
    + apply str_leb_total in Hleb. split.
      * split; [|done]. apply Forall_forall. intros w Hw.
        apply IH2 in Hw as [->|Hw]; [by split|].
        rewrite Forall_forall in Hz. by apply Hz.
      * intros y. rewrite !elem_of_cons, IH2. tauto.
Qed.

Lemma merge_loop_sources cs : ∀ merged sources,
  ascending sources →
  let S := (fold_left merge_step cs (merged, sources)).2 in
  ascending S
  ∧ (∀ s, s ∈ S ↔ s ∈ sources ∨ (s ≠ "" ∧ s ∈ map source_file cs))
  ∧ source_file (fold_left merge_step cs (merged, sources)).1
    = source_file merged.
Proof.
  induction cs as [|c cs IH]; intros merged sources Hsrc.
  - cbn. split; [done|]. split; [|done]. intros s. split; [by left|].
    intros [?|[_ ?%elem_of_nil]]; done.
  - cbn [fold_left map]. cbv zeta.
    destruct (merge_step (merged, sources) c) as [m' s'] eqn:Hstep.
    unfold merge_step in Hstep. injection Hstep as <- <-.
    match goal with
    | |- context [fold_left merge_step cs (?m', ?s')] =>
        specialize (IH m' s')
    end.
    cbv zeta in IH. destruct IH as (H1 & H2 & H3).
    { destruct (Py.truthy (source_file c)); [|done].
      by apply sorted_insert_spec. }
    split; [done|]. split; [|by rewrite H3].
    intros s. rewrite H2, elem_of_cons.
    destruct (Py.truthy (source_file c)) eqn:Htruthy.
    + rewrite (proj2 (sorted_insert_spec (source_file c) sources Hsrc)).
      apply truthy_true in Htruthy. split.
      * intros [[->|?]|[? ?]]; [right|left|right]; by auto.
      * intros [?|[? [->|?]]]; by auto.
    + apply truthy_false in Htruthy. split.
      * intros [?|[? ?]]; [left|right]; by auto.
      * intros [?|[? [->|?]]]; [by auto|done|by auto].
Qed.

Lemma merge_contacts_sources c0 cs :
  ∃ m S, merge_contacts (c0 :: cs) = Ret (Some m)
    ∧ source_file m = Py.join ", " S
    ∧ ascending S
    ∧ ∀ s, s ∈ S ↔ s ≠ "" ∧ s ∈ map source_file (c0 :: cs).
Proof.
  unfold merge_contacts.
  match goal with
  | |- context [fold_left merge_step ?l (?m, ?s)] =>
      pose proof (merge_loop_sources l m s I) as Hloop;
      destruct (fold_left merge_step l (m, s)) as [merged sources]
  end.
  cbv zeta in Hloop. cbn [fst snd source_file] in Hloop.
  destruct Hloop as (H1 & H2 & H3).
  eexists _, sources. split; [reflexivity|]. cbn [source_file].
  split; [by rewrite H3; destruct sources|]. split; [done|].
  intros s. rewrite H2. split; [|by right].
  intros [?%elem_of_nil|?]; done.
Qed.

End Sources.

(** ** What a merge keeps *)

(** X6. The e-mail addresses of a merged contact: no two of them are equal
    up to case; they are addresses of the merged contacts, in the order of
    the contacts and of their lists; and every address of every contact is
    there up to case. *)
Theorem merged_emails (c0 : VCardContact) (cs : list VCardContact) :
  ∃ m, merge_contacts (c0 :: cs) = Ret (Some m)
    ∧ NoDup (map Py.lower (emails m))
    ∧ sublist (emails m) (flat_map emails (c0 :: cs))
    ∧ ∀ c e, c ∈ c0 :: cs → e ∈ emails c →
        Py.lower e ∈ map Py.lower (emails m).
Proof.
  destruct (merge_contacts_fields c0 cs) as (m & Hm & He & _).
  exists m. split; [done|]. rewrite He. split_and!.
  - apply keyed_NoDup. constructor.
  - apply (keyed_sublist _ _ _ []).
  - intros c e Hc Hin. apply keyed_covered; [|done].
    apply elem_of_flat_map. by exists c.
Qed.

(** X7. The phones of a merged contact: no two of them have the same
    normal form and none has an empty normal form; they are phones of the
    merged contacts, in order; and every phone of every contact whose
    normal form is not empty is there up to its normal form. *)
Theorem merged_phones (c0 : VCardContact) (cs : list VCardContact) :
  ∃ m, merge_contacts (c0 :: cs) = Ret (Some m)
    ∧ NoDup (map normalize_phone (phones m))
    ∧ Forall (λ p, normalize_phone p ≠ "") (phones m)
    ∧ sublist (phones m) (flat_map phones (c0 :: cs))
    ∧ ∀ c p, c ∈ c0 :: cs → p ∈ phones c → normalize_phone p ≠ "" →
        normalize_phone p ∈ map normalize_phone (phones m).
Proof.
  destruct (merge_contacts_fields c0 cs) as (m & Hm & _ & Hp & _).
  exists m. split; [done|]. rewrite Hp. split_and!.
  - apply keyed_NoDup. constructor.
  - apply Forall_forall. intros p Hin.
    apply keyed_origin in Hin as [Hin|[_ Hok]]; [by apply elem_of_nil in Hin|].
    by apply truthy_true.
  - apply (keyed_sublist _ _ _ []).
  - intros c p Hc Hin Hne. apply keyed_covered; [|by apply truthy_true].
    apply elem_of_flat_map. by exists c.
Qed.

(** X8. The addresses and the notes of a merged contact hold no entry
    twice, and they hold exactly the addresses and the notes of the merged
    contacts. *)
Theorem merged_addresses_and_notes (c0 : VCardContact)
    (cs : list VCardContact) :
  ∃ m, merge_contacts (c0 :: cs) = Ret (Some m)
    ∧ NoDup (addresses m)
    ∧ (∀ a, a ∈ addresses m ↔ ∃ c, c ∈ c0 :: cs ∧ a ∈ addresses c)
    ∧ NoDup (notes m)
    ∧ (∀ n, n ∈ notes m ↔ ∃ c, c ∈ c0 :: cs ∧ n ∈ notes c).
Proof.
  destruct (merge_contacts_fields c0 cs) as (m & Hm & _ & _ & Ha & Hn & _).
  exists m. split; [done|]. rewrite Ha, Hn.
  assert (∀ xs, NoDup (fold_left (add_keyed id (λ _, true)) xs [])) as Hdup.
  { intros xs. rewrite <- (map_id (fold_left _ _ _)).
    apply keyed_NoDup. constructor. }
  assert (∀ (f : VCardContact → list str) x,
            x ∈ fold_left (add_keyed id (λ _, true))
                  (flat_map f (c0 :: cs)) []
            ↔ ∃ c, c ∈ c0 :: cs ∧ x ∈ f c) as Hmem.
  { intros f x. split.
    - intros [Hin|[Hin _]]%keyed_origin; [by apply elem_of_nil in Hin|].
      by apply elem_of_flat_map in Hin.
    - intros (c & Hc & Hin).
      assert (x ∈ flat_map f (c0 :: cs)) as Hx.
      { apply elem_of_flat_map. by exists c. }
      pose proof (keyed_covered id (λ _, true) _ [] x Hx eq_refl) as Hcov.
      by rewrite map_id in Hcov. }
  split_and!; [apply Hdup|apply Hmem|apply Hdup|apply Hmem].
Qed.

(** X9. The organisation, the title, the birthday and the URL of a merged
    contact are those of the first contact, in the order of the list, in
    which the field is not empty (and empty when there is none); the name
    parts are those of the first contact. *)
Theorem merged_single_fields (c0 : VCardContact) (cs : list VCardContact) :
  ∃ m, merge_contacts (c0 :: cs) = Ret (Some m)
    ∧ org m = first_truthy (map org (c0 :: cs))
    ∧ title m = first_truthy (map title (c0 :: cs))
    ∧ birthday m = first_truthy (map birthday (c0 :: cs))
    ∧ url m = first_truthy (map url (c0 :: cs))
    ∧ n_parts m = n_parts c0.
Proof.
  destruct (merge_contacts_fields c0 cs)
    as (m & Hm & _ & _ & _ & _ & H1 & H2 & H3 & H4 & H5 & _).
  by exists m.
Qed.

(** X10. The [source_file] of a merged contact lists, joined by a comma
    and a space, the source files of the merged contacts that are not
    empty, each once, in ascending order. *)
Theorem merged_sources (c0 : VCardContact) (cs : list VCardContact) :
  ∃ m S, merge_contacts (c0 :: cs) = Ret (Some m)
    ∧ source_file m = Py.join ", " S
    ∧ ascending S
    ∧ ∀ s, s ∈ S ↔ s ≠ "" ∧ s ∈ map source_file (c0 :: cs).
Proof. apply merge_contacts_sources. Qed.

(** ** Words and display names *)

Section DisplayWords.

Lemma split_words (s : str) : Forall is_a_word (Py.split s).
Proof.
  induction s as [|c s IH]; [constructor|]. cbn [Py.split].
  destruct (Py.is_space c) eqn:Hc; [done|].
  destruct s as [|c' s'].
  { apply Forall_singleton. split; [done|by apply Forall_singleton]. }
  destruct (Py.is_space c') eqn:Hc'.
  - apply Forall_cons. split; [|done].
    split; [done|by apply Forall_singleton].
  - destruct (Py.split (c' :: s')) as [|w ws].
    + apply Forall_singleton. split; [done|by apply Forall_singleton].
    + apply Forall_cons in IH as [[Hw1 Hw2] Hws].
      apply Forall_cons. split; [|done]. split; [done|].
      by apply Forall_cons.
Qed.

Lemma split_join (ws : list str) :
  Forall is_a_word ws → Py.split (Py.join " " ws) = ws.
Proof.
  induction 1 as [|w ws [Hw1 Hw2] Hws IH]; [done|].
  destruct ws as [|w' ws].
  - by apply split_no_space.
  - change (Py.join " " (w :: w' :: ws))
      with (w ++ " "%char :: Py.join " " (w' :: ws)).
    by rewrite split_app_space, IH.
Qed.

Lemma drop_repeats_no_repeats ws : ∀ prev,
  no_repeats prev (drop_repeats prev ws).
Proof.
  induction ws as [|w ws IH]; intros prev; [done|].
  cbn [drop_repeats]. destruct prev as [p|].
  - case_bool_decide as Hw; [|apply IH]. split; [done|apply IH].
  - split; [done|apply IH].
Qed.

Lemma drop_repeats_fixed ws : ∀ prev,
  no_repeats prev ws → drop_repeats prev ws = ws.
Proof.
  induction ws as [|w ws IH]; intros prev Hws; [done|].
  destruct Hws as [Hw Hws]. cbn [drop_repeats]. destruct prev as [p|].
  - rewrite bool_decide_eq_true_2 by done. by rewrite IH.
  - by rewrite IH.
Qed.

Lemma drop_repeats_sublist ws : ∀ prev, sublist (drop_repeats prev ws) ws.
Proof.
  induction ws as [|w ws IH]; intros prev; [done|].
  cbn [drop_repeats]. destruct prev as [p|].
  - case_bool_decide; [by apply sublist_skip|by apply sublist_cons].
  - by apply sublist_skip.
Qed.

Lemma Forall_sublist {A} (P : A → Prop) (l k : list A) :
  sublist l k → Forall P k → Forall P l.
Proof.
  intros Hsub Hk. apply Forall_forall. intros x Hx.
  rewrite Forall_forall in Hk. by eapply Hk, elem_of_sublist.
Qed.

Lemma drop_repeats_first w ws :
  drop_repeats None (w :: ws) = w :: drop_repeats (Some w) ws.
Proof. done. Qed.

(** The words of the cleaned name are the words of the name without the
    repeats. *)
Lemma normalize_display_name_words name :
  Py.split (normalize_display_name name)
  = drop_repeats None (Py.split name).
Proof.
  unfold normalize_display_name.
  destruct (Py.truthy name) eqn:Hname; cbn [negb].
  2:{ by destruct name. }
  destruct (length (Py.split name) <=? 1)%nat eqn:Hlen.
  - apply Nat.leb_le in Hlen.
    destruct (Py.split name) as [|w [|w' ws]]; [done|done|cbn in Hlen; lia].
  - apply split_join.
    eapply Forall_sublist; [apply drop_repeats_sublist|apply split_words].
Qed.

Lemma normalize_display_name_idemp name :
  normalize_display_name (normalize_display_name name)
  = normalize_display_name name.
Proof.
  pose proof (normalize_display_name_words name) as Hwords.
  unfold normalize_display_name at 2 3.
  destruct (Py.truthy name) eqn:Hname; cbn [negb]; [|by destruct name].
  destruct (length (Py.split name) <=? 1)%nat eqn:Hlen.
  { unfold normalize_display_name. by rewrite Hname, Hlen. }
  unfold normalize_display_name in Hwords. rewrite Hname, Hlen in Hwords.
  cbn [negb] in Hwords.
  set (r := Py.join " " (drop_repeats None (Py.split name))) in *.
  unfold normalize_display_name. rewrite Hwords.
  destruct (negb (Py.truthy r)); [done|].
  destruct (length (drop_repeats None (Py.split name)) <=? 1)%nat; [done|].
  rewrite drop_repeats_fixed; [done|]. apply drop_repeats_no_repeats.
Qed.

Lemma normalize_display_name_truthy name :
  Py.truthy name = true → Py.truthy (normalize_display_name name) = true.
Proof.
  intros Hname. unfold normalize_display_name. rewrite Hname. cbn [negb].
  destruct (length (Py.split name) <=? 1)%nat eqn:Hlen; [done|].
  apply Nat.leb_gt in Hlen. pose proof (split_words name) as Hwords.
  destruct (Py.split name) as [|w ws]; [cbn in Hlen; lia|].
  apply Forall_cons in Hwords as [[Hw _] _].
  rewrite drop_repeats_first.
  destruct w; [done|]. by destruct (drop_repeats _ ws).
Qed.

End DisplayWords.

Section MergedExport.

Lemma strip_ends (s : str) :
  (∀ c t, s = c :: t → Py.is_space c = false) →
  (∀ t c, s = t ++ [c] → Py.is_space c = false) →
  Py.strip s = s.
Proof.
  intros Hhead Hlast. unfold Py.strip. rewrite (lstrip_fixed s) by done.
  unfold Py.rstrip. rewrite lstrip_fixed; [apply reverse_involutive|].
  intros c t Hrev. apply (Hlast (reverse t)).
  apply (f_equal reverse) in Hrev.
  by rewrite reverse_involutive, reverse_cons in Hrev.
Qed.

Lemma join_truthy (w : str) ws sep : w ≠ [] → Py.join sep (w :: ws) ≠ [].
Proof. intros Hw. destruct w; [done|]. by destruct ws. Qed.

Lemma join_words_last (ws : list str) :
  Forall is_a_word ws →
  ∀ t c, Py.join " " ws = t ++ [c] → Py.is_space c = false.
Proof.
  induction 1 as [|w ws [Hw1 Hw2] Hws IH]; intros t c Heq.
  - by destruct t.
  - destruct ws as [|w' ws].
    + cbn in Heq. subst w. unfold no_space in Hw2.
      rewrite Forall_app, Forall_singleton in Hw2. by destruct Hw2.
    + change (Py.join " " (w :: w' :: ws))
        with (w ++ " "%char :: Py.join " " (w' :: ws)) in Heq.
      apply Forall_cons in Hws as Hws'. destruct Hws' as [[Hw' _] _].
      destruct (exists_last (join_truthy w' ws " " Hw')) as (t' & c' & Hj).
      rewrite Hj in Heq.
      change (w ++ " "%char :: t' ++ [c'])
        with (w ++ (" "%char :: t') ++ [c']) in Heq.
      rewrite app_assoc in Heq. apply app_inj_tail in Heq as [_ <-].
      by apply (IH t').
Qed.

Lemma word_no_lf (w : str) : no_space w → LF ∉ w.
Proof.
  intros Hw Hin. unfold no_space in Hw. rewrite Forall_forall in Hw.
  by apply Hw in Hin.
Qed.

Lemma normalize_display_name_clean name :
  clean name → clean (normalize_display_name name).
Proof.
  intros Hname. unfold normalize_display_name.
  destruct (negb (Py.truthy name)); [done|].
  destruct (length (Py.split name) <=? 1)%nat eqn:Hlen; [done|].
  apply Nat.leb_gt in Hlen.
  assert (Forall is_a_word (drop_repeats None (Py.split name))) as Hwords.
  { eapply Forall_sublist; [apply drop_repeats_sublist|apply split_words]. }
  destruct (Py.split name) as [|w ws]; [cbn in Hlen; lia|].
  rewrite drop_repeats_first in *.
  split.
  - apply join_chars; [not_in_closed_list|].
    eapply Forall_impl; [exact Hwords|]. intros v [_ Hv].
    by apply word_no_lf.
  - apply strip_ends.
    + intros c t Heq. apply Forall_cons in Hwords as [[Hw1 Hw2] _].
      destruct w as [|c' w']; [done|].
      apply Forall_cons in Hw2 as [Hc' _].
      destruct (drop_repeats (Some (c' :: w')) ws); cbn in Heq;
        by injection Heq as <- _.
    + by apply join_words_last.
Qed.

Lemma first_truthy_clean vs : Forall clean vs → clean (first_truthy vs).
Proof.
  induction 1 as [|v vs Hv Hvs IH].
  - split; [apply not_elem_of_nil|done].
  - cbn. by destruct (Py.truthy v).
Qed.

Lemma merge_contacts_fn c0 cs :
  ∃ m w, merge_contacts (c0 :: cs) = Ret (Some m)
    ∧ (w = "" ∨ w ∈ map fn (c0 :: cs))
    ∧ fn m = if Py.truthy w then normalize_display_name w else w.
Proof.
  unfold merge_contacts.
  pose proof (best_name_loop (c0 :: cs) "" []) as Hbest.
  rewrite app_nil_l in Hbest.
  set (best := fold_left best_name_step (c0 :: cs) "") in *.
  destruct Hbest as [Hmem _].
  { split; [by left|]. intros c Hc. by apply elem_of_nil in Hc. }
  match goal with
  | |- context [fold_left merge_step ?l (?m, ?s)] =>
      pose proof (merge_loop_fn l m s) as Hfn;
      destruct (fold_left merge_step l (m, s)) as [merged sources]
  end.
  cbn [fst fn] in Hfn.
  eexists _, (or_else best (fn c0)). split; [reflexivity|].
  cbn [fn]. rewrite Hfn. split; [|done].
  unfold or_else. destruct (Py.truthy best); [done|]. right. left.
Qed.

Lemma keyed_Forall (P : str → Prop) key ok xs :
  Forall P xs → Forall P (fold_left (add_keyed key ok) xs []).
Proof.
  intros Hxs. eapply Forall_sublist; [|exact Hxs].
  apply (keyed_sublist key ok xs []).
Qed.

Lemma Forall_flat_map {A B} (P : B → Prop) (f : A → list B) (l : list A) :
  Forall (λ x, Forall P (f x)) l → Forall P (flat_map f l).
Proof.
  induction 1 as [|x l Hx Hl IH]; [constructor|].
  cbn. by apply Forall_app_2.
Qed.

Lemma merge_exportable c0 cs :
  Forall exportable (c0 :: cs) →
  ∃ m, merge_contacts (c0 :: cs) = Ret (Some m) ∧ exportable m.
Proof.
  intros Hcs.
  destruct (merge_contacts_fields c0 cs)
    as (m & Hm & He & Hp & Ha & Hn & H1 & H2 & H3 & H4 & H5 & _).
  destruct (merge_contacts_fn c0 cs) as (m' & w & Hm' & Hw & Hfn).
  rewrite Hm in Hm'. injection Hm' as <-.
  exists m. split; [done|].
  assert (∀ (P : VCardContact → Prop),
            (∀ c, exportable c → P c) → Forall P (c0 :: cs)) as Hall.
  { intros P HP. eapply Forall_impl; [exact Hcs|]. done. }
  unfold exportable. rewrite Hfn, He, Hp, Ha, Hn, H1, H2, H3, H4, H5.
  split_and!.
  - assert (clean w) as Hclean.
    { destruct Hw as [->|Hw]; [split; [apply not_elem_of_nil|done]|].
      apply list_elem_of_fmap in Hw as (c & -> & Hc).
      rewrite Forall_forall in Hcs. by destruct (Hcs c Hc). }
    destruct (Py.truthy w); [|done].
    by apply normalize_display_name_clean.
  - apply first_truthy_clean, Forall_fmap, Hall. by intros c (?&?&?).
  - apply first_truthy_clean, Forall_fmap, Hall. by intros c (?&?&?&?).
  - apply first_truthy_clean, Forall_fmap, Hall. by intros c (?&?&?&?&?).
  - apply first_truthy_clean, Forall_fmap, Hall.
    by intros c (?&?&?&?&?&?).
  - apply Forall_cons in Hcs as [Hc0 _]. apply Hc0.
  - apply keyed_Forall, Forall_flat_map, Hall.
    by intros c (?&?&?&?&?&?&?&?).
  - apply keyed_NoDup. constructor.
  - apply keyed_Forall, Forall_flat_map, Hall.
    by intros c (?&?&?&?&?&?&?&?&?&?).
  - eapply NoDup_fmap_1, keyed_NoDup. constructor.
  - apply keyed_Forall, Forall_flat_map, Hall.
    by intros c (?&?&?&?&?&?&?&?&?&?&?&?).
  - rewrite <- (map_id (fold_left _ _ _)). apply keyed_NoDup. constructor.
  - apply keyed_Forall, Forall_flat_map, Hall.
    by intros c (?&?&?&?&?&?&?&?&?&?&?&?&?&?).
  - rewrite <- (map_id (fold_left _ _ _)). apply keyed_NoDup. constructor.
Qed.

End MergedExport.

(** ** Display names *)

(** X11. The words of a cleaned display name are the words of the name
    without the words that repeat, up to case, the word kept before them;
    so no word of the cleaned name equals the word before it up to case,
    and cleaning a cleaned name changes nothing. *)
Theorem display_name_cleanup (name : str) :
  Py.split (normalize_display_name name) = drop_repeats None (Py.split name)
  ∧ no_repeats None (Py.split (normalize_display_name name))
  ∧ normalize_display_name (normalize_display_name name)
    = normalize_display_name name.
Proof.
  split; [apply normalize_display_name_words|]. split.
  - rewrite normalize_display_name_words. apply drop_repeats_no_repeats.
  - apply normalize_display_name_idemp.
Qed.

(** X12. The display name of a contact is never empty, and it is a cleaned
    name: the cleanup leaves it unchanged. *)
Theorem display_name_not_empty (c : VCardContact) :
  get_display_name c ≠ ""
  ∧ normalize_display_name (get_display_name c) = get_display_name c.
Proof.
  unfold get_display_name. destruct (Py.truthy (fn c)) eqn:Hfn.
  - split; [|apply normalize_display_name_idemp].
    apply truthy_true. by apply normalize_display_name_truthy.
  - split; [done|by vm_compute].
Qed.

(** X13. Merging exportable contacts gives an exportable contact: the
    merged contact survives an export like the contacts it was made of. *)
Theorem merged_exportable (c0 : VCardContact) (cs : list VCardContact) :
  Forall exportable (c0 :: cs) →
  ∃ m, merge_contacts (c0 :: cs) = Ret (Some m)
    ∧ exportable m
    ∧ parse_vcard empty_contact (to_vcard m)
      = set_source_file "" (set_raw_vcard (to_vcard m) m).
Proof.
  intros Hcs. destruct (merge_exportable c0 cs Hcs) as (m & Hm & Hexp).
  exists m. split; [done|]. split; [done|]. by apply parsed_exported.
Qed.

Lemma merged_exportable_witness :
  ∃ m, merge_contacts
         [contact_of "Bob Smith" ["bob@x.com"] ["555 1234"] "";
          contact_of "Robert Robert Smith" ["BOB@x.com"] [] "Acme"]
       = Ret (Some m)
    ∧ exportable m
    ∧ parse_vcard empty_contact (to_vcard m)
      = set_source_file "" (set_raw_vcard (to_vcard m) m).
Proof.
  apply merged_exportable.
  repeat (apply Forall_cons_2; [unfold contact_of; closed_exportable|]).
  apply Forall_nil_2.
Defined.

(** ** More about the groups *)

Section Groups.

Lemma insert_group_descending g gs :
  descending gs → descending (insert_group g gs).
Proof.
  induction gs as [|h gs IH]; intros Hgs; [by split|].
  destruct Hgs as [Hh Hgs]. cbn [insert_group].
  destruct (confidence h <=? confidence g)%Z eqn:Hle.
  - apply Z.leb_le in Hle. split; [|by split].
    apply Forall_cons. split; [done|].
    eapply Forall_impl; [exact Hh|]. intros k Hk. cbn in Hk. lia.
  - apply Z.leb_gt in Hle. split; [|by apply IH].
    rewrite insert_group_perm. apply Forall_cons. split; [lia|done].
Qed.

Lemma sort_groups_descending gs : descending (sort_groups gs).
Proof.
  induction gs as [|g gs IH]; [done|]. by apply insert_group_descending.
Qed.

Lemma descending_lookup (gs : list group) :
  descending gs →
  ∀ a b ga gb, (a < b)%nat → gs !! a = Some ga → gs !! b = Some gb →
    (confidence gb <= confidence ga)%Z.
Proof.
  induction gs as [|g gs IH]; intros Hdesc a b ga gb Hab Ha Hb; [done|].
  destruct Hdesc as [Hg Hgs].
  destruct b as [|b]; [lia|]. cbn in Hb.
  destruct a as [|a].
  - cbn in Ha. injection Ha as <-. rewrite Forall_forall in Hg.
    apply Hg. by eapply list_elem_of_lookup_2.
  - cbn in Ha. apply (IH Hgs a b); [lia|done|done].
Qed.

Variable n : nat.
Variable G : Dict.dict nat (list (nat * Z)).
Hypothesis G_ok : graph_ok n G.

(** In a component of two or more indices every index has a neighbour
    other than itself in the component. *)
Lemma component_partner (l : list nat) u :
  component G l → NoDup l → (2 <= length l)%nat → u ∈ l →
  ∃ v, v ∈ l ∧ u ≠ v ∧ edge G u v.
Proof using G_ok.
  intros [s Hs] Hnd Hlen Hu.
  assert (∃ w, w ∈ l ∧ u ≠ w) as (w & Hw & Hne).
  { destruct l as [|x [|y l]]; [cbn in Hlen; lia..|].
    apply NoDup_cons in Hnd as [Hx _].
    destruct (decide (u = x)) as [->|Hux].
    - exists y. split; [right; left|]. intros ->. apply Hx. left.
    - exists x. split; [left|done]. }
  assert (rtc (edge G) u w) as Huw.
  { etrans; [|by apply Hs]. by apply (reach_sym n G G_ok), Hs. }
  destruct (first_step_out G u w Huw Hne) as (y & Hy & Hne').
  exists y. split; [|by split]. apply Hs.
  apply (rtc_r s u y); [by apply Hs|done].
Qed.

Lemma component_in_range (l : list nat) u :
  component G l → (2 <= length l)%nat → NoDup l → u ∈ l → (u < n)%nat.
Proof using G_ok.
  intros Hc Hlen Hnd Hu.
  destruct (component_partner l u Hc Hnd Hlen Hu) as (v & _ & _ & c & Hc').
  by apply (proj1 G_ok) in Hc' as (? & _).
Qed.

End Groups.

Section GroupMembers.

Variable ratio : str → str → Q.
Variable set_order : list (nat * nat) → list (nat * nat).
Hypothesis set_order_enum : enumeration set_order.

Lemma find_similar_groups_members cs :
  ∃ groups, find_similar_groups ratio set_order cs = Ret groups
    ∧ ∀ g, g ∈ groups →
        NoDup (indices g)
        ∧ ∀ u, u ∈ indices g →
            (u < length cs)%nat
            ∧ ∃ v cu cv,
                v ∈ indices g ∧ u ≠ v
                ∧ cs !! (u `min` v)%nat = Some cu
                ∧ cs !! (u `max` v)%nat = Some cv
                ∧ (50 <= calculate_match_confidence ratio cu cv)%Z.
Proof using set_order_enum.
  destruct (find_similar_groups_run ratio set_order set_order_enum cs)
    as (G & gs & processed & HG & Hadj & Hinv & _ & Hrun).
  exists (sort_groups gs). split; [done|].
  intros g Hg. rewrite sort_groups_perm in Hg.
  destruct Hinv as (_ & Hgroups & _).
  destruct (Hgroups g Hg) as (_ & Hlen & Hnd & _ & Hcomp).
  split; [done|]. intros u Hu.
  split; [by eapply component_in_range|].
  destruct (component_partner (length cs) G HG (indices g) u Hcomp Hnd Hlen Hu)
    as (v & Hv & Hne & c & Hc).
  apply Hadj in Hc as (i & j & ci & cj & Hin & Hi & Hj & -> & H50 & Huv).
  apply candidate_pairs_range in Hin as (_ & _ & Hle).
  exists v, ci, cj. split; [done|]. split; [done|].
  destruct Huv as [[-> ->]|[-> ->]].
  - rewrite Nat.min_l, Nat.max_r by done. done.
  - rewrite Nat.min_r, Nat.max_l by done. done.
Qed.

Lemma find_similar_groups_sorted cs :
  ∃ groups, find_similar_groups ratio set_order cs = Ret groups
    ∧ ∀ a b ga gb, (a < b)%nat →
        groups !! a = Some ga → groups !! b = Some gb →
        (confidence gb <= confidence ga)%Z.
Proof using set_order_enum.
  destruct (find_similar_groups_run ratio set_order set_order_enum cs)
    as (G & gs & processed & _ & _ & _ & _ & Hrun).
  exists (sort_groups gs). split; [done|].
  apply descending_lookup, sort_groups_descending.
Qed.

End GroupMembers.

(** ** Contacts that share an e-mail address *)

Section SharedEmail.

Variable ratio : str → str → Q.
Variable set_order : list (nat * nat) → list (nat * nat).
Hypothesis set_order_enum : enumeration set_order.

Lemma count_member (k : str) (l : list str) :
  k ∈ l → (1 <= length (filter (λ x, x = k) l))%nat.
Proof.
  induction 1 as [k l|k y l Hk IH].
  - rewrite filter_cons_True by done. cbn [length]. lia.
  - destruct (decide (y = k)).
    + rewrite filter_cons_True by done. cbn [length]. lia.
    + by rewrite filter_cons_False.
Qed.

Lemma key_count_one (keys : VCardContact → list str) k
    (l : list VCardContact) c :
  c ∈ l → k ∈ keys c →
  (1 <= length (filter (λ x, x = k) (flat_map keys l)))%nat.
Proof.
  intros Hc Hk. apply count_member, elem_of_flat_map. by exists c.
Qed.

Lemma key_total_two (keys : VCardContact → list str) k cs i j ci cj :
  (i < j)%nat → cs !! i = Some ci → cs !! j = Some cj →
  k ∈ keys ci → k ∈ keys cj →
  (1 < key_total keys k cs)%nat.
Proof.
  intros Hij Hi Hj Hki Hkj. unfold key_total.
  rewrite <- (take_drop_middle cs i ci Hi).
  rewrite flat_map_app, filter_app, length_app. cbn [flat_map].
  rewrite filter_app, length_app.
  assert (cj ∈ drop (S i) cs) as Hin.
  { apply list_elem_of_lookup. exists (j - S i)%nat.
    rewrite lookup_drop. by replace (S i + (j - S i))%nat with j by lia. }
  pose proof (key_count_one keys k _ cj Hin Hkj).
  pose proof (key_count_one keys k [ci] ci ltac:(left) Hki) as H1.
  cbn [flat_map] in H1. rewrite app_nil_r in H1. lia.
Qed.

Lemma email_keys c e :
  e ≠ "" → e ∈ get_normalized_emails c → e ∈ bucket_keys EmailBucket c.
Proof.
  intros He Hin. unfold bucket_keys.
  destruct (get_parsed_name c) as [[first last] canonical].
  apply list_elem_of_filter. split; [|done]. by destruct e.
Qed.

Lemma shared_email_linked cs i j ci cj e :
  i ≠ j → cs !! i = Some ci → cs !! j = Some cj → e ≠ "" →
  e ∈ get_normalized_emails ci → e ∈ get_normalized_emails cj →
  linked cs ci cj.
Proof.
  intros Hij Hi Hj He Hei Hej. exists EmailBucket, e.
  split; [by apply email_keys|]. split; [by apply email_keys|].
  split; [|done].
  destruct (decide (i < j)%nat).
  - eapply (key_total_two _ e cs i j ci cj); try done; by apply email_keys.
  - eapply (key_total_two _ e cs j i cj ci); try done;
      [lia|by apply email_keys..].
Qed.

Lemma shared_email_score ci cj e :
  e ∈ get_normalized_emails ci → e ∈ get_normalized_emails cj →
  (50 <= calculate_match_confidence ratio ci cj)%Z.
Proof.
  intros Hei Hej. unfold calculate_match_confidence.
  assert (email_points ci cj = 50%Z) as ->.
  { unfold email_points.
    assert (existsb (λ e, bool_decide (e ∈ get_normalized_emails cj))
              (get_normalized_emails ci) = true) as ->; [|done].
    apply existsb_exists. exists e.
    split; [by apply list_elem_of_In|by apply bool_decide_eq_true_2]. }
  pose proof (phone_points_range ci cj).
  pose proof (name_points_nonneg ratio ci cj).
  pose proof (org_points_range ratio ci cj). lia.
Qed.

Lemma shared_email_same_group cs i j ci cj e :
  i ≠ j → cs !! i = Some ci → cs !! j = Some cj → e ≠ "" →
  e ∈ get_normalized_emails ci → e ∈ get_normalized_emails cj →
  ∃ groups g, find_similar_groups ratio set_order cs = Ret groups
    ∧ g ∈ groups ∧ i ∈ indices g ∧ j ∈ indices g.
Proof using set_order_enum.
  intros Hij Hi Hj He Hei Hej.
  destruct (find_similar_groups_run ratio set_order set_order_enum cs)
    as (G & gs & processed & HG & Hadj & Hinv & Hcover & Hrun).
  assert (edge G i j) as Hedge.
  { assert ((i `min` j, i `max` j)%nat
              ∈ candidate_pairs_of (build_buckets cs)) as Hin.
    { apply candidate_pairs_linked; [done|]. exists ci, cj.
      split; [done|]. split; [done|]. by eapply shared_email_linked. }
    destruct (decide (i < j)%nat) as [Hlt|Hge].
    - rewrite Nat.min_l, Nat.max_r in Hin by lia.
      exists (calculate_match_confidence ratio ci cj). apply Hadj.
      exists i, j, ci, cj. split_and!; try done;
        [by eapply shared_email_score|by left].
    - rewrite Nat.min_r, Nat.max_l in Hin by lia.
      exists (calculate_match_confidence ratio cj ci). apply Hadj.
      exists j, i, cj, ci. split_and!; try done;
        [by eapply shared_email_score|by right]. }
  destruct (Hcover i j Hedge Hij) as (g & Hg & Hig).
  exists (sort_groups gs), g. split; [done|].
  split; [by rewrite sort_groups_perm|]. split; [done|].
  destruct Hinv as (_ & Hgroups & _).
  destruct (Hgroups g Hg) as (_ & _ & _ & _ & s & Hs).
  apply Hs. eapply rtc_r; [by apply Hs|done].
Qed.

End SharedEmail.

(** ** The review batches *)

Section Batches.

Lemma file_group_ranges i conf bs : ranges (file_group i conf bs) = ranges bs.
Proof.
  induction bs as [|b bs IH]; [done|]. cbn [file_group].
  destruct (_ && _); [done|]. unfold ranges in *. cbn [map]. by rewrite IH.
Qed.

Lemma exists_holds conf bs :
  Exists (holds conf) bs
  ↔ Exists (λ r, (r.1 <= conf <= r.2)%Z) (ranges bs).
Proof. unfold ranges. by rewrite Exists_fmap. Qed.

Lemma file_group_members i conf bs :
  Exists (holds conf) bs →
  flat_map batch_groups (file_group i conf bs)
  ≡ₚ i :: flat_map batch_groups bs.
Proof.
  induction bs as [|b bs IH]; intros Hex; [by apply Exists_nil in Hex|].
  cbn [file_group].
  destruct ((batch_min b <=? conf)%Z && (conf <=? batch_max b)%Z) eqn:Hb.
  - cbn [flat_map batch_groups].
    by rewrite (Permutation_app_comm (batch_groups b) [i]).
  - apply Exists_cons in Hex as [Hex|Hex].
    + unfold holds in Hex.
      apply andb_false_iff in Hb as [Hb%Z.leb_gt|Hb%Z.leb_gt]; lia.
    + cbn [flat_map]. rewrite IH by done. by rewrite <- Permutation_middle.
Qed.

Lemma file_group_holds (Q : nat → Z → Z → Prop) i conf bs :
  (∀ lo hi, (lo <= conf <= hi)%Z → Q i lo hi) →
  Forall (λ b, Forall (λ j, Q j (batch_min b) (batch_max b))
                 (batch_groups b)) bs →
  Forall (λ b, Forall (λ j, Q j (batch_min b) (batch_max b))
                 (batch_groups b)) (file_group i conf bs).
Proof.
  intros Hi. induction 1 as [|b bs Hb Hbs IH]; [done|].
  cbn [file_group].
  destruct ((batch_min b <=? conf)%Z && (conf <=? batch_max b)%Z) eqn:Hin.
  - apply Forall_cons. split; [|done]. cbn.
    apply Forall_app_2; [done|]. apply Forall_singleton.
    apply andb_prop in Hin as [?%Z.leb_le ?%Z.leb_le]. by apply Hi.
  - by apply Forall_cons.
Qed.

Lemma covered conf :
  (50 <= conf <= 100)%Z →
  Exists (λ r, (r.1 <= conf <= r.2)%Z) (ranges confidence_batches).
Proof.
  intros Hconf. cbn.
  assert ((95 <= conf <= 100) ∨ (90 <= conf <= 94) ∨ (85 <= conf <= 89)
          ∨ (80 <= conf <= 84) ∨ (75 <= conf <= 79) ∨ (70 <= conf <= 74)
          ∨ (50 <= conf <= 69))%Z
    as [?|[?|[?|[?|[?|[?|?]]]]]] by lia;
    repeat first [by apply Exists_cons_hd | apply Exists_cons_tl].
Qed.

Lemma enumerate_fst {A} (l : list A) : (enumerate l).*1 = seq 0 (length l).
Proof.
  unfold enumerate. apply list_eq. intros i.
  rewrite list_lookup_fmap, list_lookup_imap.
  destruct (l !! i) as [x|] eqn:Hx; cbn.
  - apply lookup_lt_Some in Hx. by rewrite lookup_seq_lt.
  - apply lookup_ge_None in Hx. by rewrite lookup_seq_ge.
Qed.

Lemma file_groups (groups : list group) (ics : list (nat * group)) : ∀ bs,
  ranges bs = ranges confidence_batches →
  Forall (λ ig, (50 <= confidence ig.2 <= 100)%Z
                ∧ groups !! ig.1 = Some ig.2) ics →
  Forall (λ b, Forall (λ j, ∃ g, groups !! j = Some g ∧ holds (confidence g) b)
                 (batch_groups b)) bs →
  let bs' := fold_left (λ batches ig, file_group ig.1 (confidence ig.2) batches)
               ics bs in
  flat_map batch_groups bs' ≡ₚ flat_map batch_groups bs ++ ics.*1
  ∧ Forall (λ b, Forall (λ j, ∃ g, groups !! j = Some g
                                   ∧ holds (confidence g) b)
                   (batch_groups b)) bs'.
Proof.
  induction ics as [|[i g] ics IH]; intros bs Hr Hics Hinv.
  - cbn. by rewrite app_nil_r.
  - apply Forall_cons in Hics as [[Hconf Hg] Hics]. cbn [fst snd] in *.
    cbn [fold_left fmap list_fmap]. cbv zeta.
    destruct (IH (file_group i (confidence g) bs)) as [H1 H2].
    + by rewrite file_group_ranges.
    + done.
    + apply (file_group_holds
               (λ j lo hi, ∃ g', groups !! j = Some g'
                                 ∧ (lo <= confidence g' <= hi)%Z));
        [|done].
      intros lo hi Hin. by exists g.
    + split; [|done]. cbn [fst snd]. rewrite H1, file_group_members.
      * by rewrite <- Permutation_middle.
      * apply exists_holds. rewrite Hr. by apply covered.
Qed.

Lemma handle_groups_found_spec groups :
  Forall (λ g, (50 <= confidence g <= 100)%Z) groups →
  flat_map batch_groups (_handle_groups_found groups)
  ≡ₚ seq 0 (length groups)
  ∧ ∀ b i, b ∈ _handle_groups_found groups → i ∈ batch_groups b →
      ∃ g, groups !! i = Some g ∧ holds (confidence g) b.
Proof.
  intros Hgroups. unfold _handle_groups_found.
  destruct (file_groups groups (enumerate groups) confidence_batches)
    as [H1 H2]; [done| |by repeat constructor|].
  - apply Forall_forall. intros [i g] Hin%enumerate_lookup. cbn.
    split; [|done]. rewrite Forall_forall in Hgroups.
    by eapply Hgroups, list_elem_of_lookup_2.
  - split.
    + rewrite H1. cbn [flat_map confidence_batches batch_groups app].
      by rewrite enumerate_fst.
    + intros b i Hb Hi. rewrite Forall_forall in H2.
      specialize (H2 b Hb). rewrite Forall_forall in H2. by apply H2.
Qed.

End Batches.

(** ** The contacts of an export *)

Section ExportSelection.

Variable contacts : list VCardContact.
Variable groups : list group.
Variable merged : list nat.

Hypothesis in_range :
  ∀ g i, g ∈ groups → i ∈ indices g → (i < length contacts)%nat.
Hypothesis members_once : ∀ g, g ∈ groups → NoDup (indices g).
Hypothesis disjoint :
  ∀ a b ga gb i, groups !! a = Some ga → groups !! b = Some gb → a ≠ b →
    i ∈ indices ga → i ∉ indices gb.

Lemma contacts_at_spec idxs :
  Forall (λ i, (i < length contacts)%nat) idxs →
  ∃ cs, contacts_at contacts idxs = Ret cs
        ∧ Forall2 (λ i c, contacts !! i = Some c) idxs cs.
Proof.
  induction 1 as [|i idxs Hi Hidxs (cs & IH1 & IH2)].
  - exists []. by split.
  - destruct (lookup_lt_is_Some_2 contacts i Hi) as [c Hc].
    exists (c :: cs). cbn [contacts_at]. unfold index. rewrite Hc.
    cbn [mbind res_bind bind]. rewrite IH1. split; [done|].
    by constructor.
Qed.

Lemma skipped_contacts_spec ks :
  Forall (λ k, (k < length groups)%nat) ks →
  ∃ cs, skipped_contacts contacts groups merged ks = Ret cs
        ∧ Forall2 (λ i c, contacts !! i = Some c) (skipped_positions groups merged ks) cs.
Proof using in_range.
  induction 1 as [|k ks Hk Hks (cs & IH1 & IH2)].
  - exists []. by split.
  - destruct (lookup_lt_is_Some_2 groups k Hk) as [g Hg].
    cbn [skipped_contacts skipped_positions flat_map].
    fold (skipped_positions groups merged ks). rewrite Hg.
    destruct (bool_decide (k ∉ merged)).
    + unfold index. rewrite Hg. cbn [mbind res_bind bind].
      destruct (contacts_at_spec (indices g)) as (cg & Hcg1 & Hcg2).
      { apply Forall_forall. intros i Hi. eapply in_range; [|done].
        by eapply list_elem_of_lookup_2. }
      rewrite Hcg1. cbn [mbind res_bind bind]. rewrite IH1.
      exists (cg ++ cs). split; [done|]. by apply Forall2_app.
    + exists cs. by split.
Qed.

Lemma unique_contacts_spec :
  Forall2 (λ i c, contacts !! i = Some c)
    (filter (λ i, i ∉ flat_map indices groups) (seq 0 (length contacts)))
    (filter (λ ic, ic.1 ∉ flat_map indices groups) (enumerate contacts)).*2.
Proof.
  rewrite <- enumerate_fst.
  assert (Forall (λ ic, contacts !! ic.1 = Some ic.2) (enumerate contacts))
    as Hall.
  { apply Forall_forall. intros [i c]. apply enumerate_lookup. }
  induction Hall as [|[i c] ics Hic Hics IH]; [constructor|].
  cbn [fmap list_fmap]. rewrite !filter_cons. cbn [fst].
  destruct (decide (i ∉ flat_map indices groups)); [|done].
  cbn [fmap list_fmap]. by constructor.
Qed.

Lemma elem_of_grouped i :
  i ∈ flat_map indices groups ↔ ∃ k g, groups !! k = Some g ∧ i ∈ indices g.
Proof.
  rewrite elem_of_flat_map. split.
  - intros (g & [k Hk]%list_elem_of_lookup & Hi). by exists k, g.
  - intros (k & g & Hk & Hi). exists g. split; [|done].
    by eapply list_elem_of_lookup_2.
Qed.

Lemma elem_of_merged_members i :
  i ∈ merged_members groups merged
  ↔ ∃ k g, groups !! k = Some g ∧ k ∈ merged ∧ i ∈ indices g.
Proof.
  unfold merged_members. rewrite elem_of_flat_map. split.
  - intros ([k g] & Hk%enumerate_lookup & Hi). cbn [fst snd] in Hi.
    case_bool_decide; [|by apply elem_of_nil in Hi]. by exists k, g.
  - intros (k & g & Hk & Hm & Hi). exists (k, g).
    split; [by apply enumerate_lookup|]. cbn [fst snd].
    by rewrite bool_decide_eq_true_2.
Qed.

Lemma elem_of_skipped i :
  i ∈ skipped_positions groups merged (seq 0 (length groups))
  ↔ ∃ k g, groups !! k = Some g ∧ (k ∉ merged) ∧ i ∈ indices g.
Proof.
  unfold skipped_positions. rewrite elem_of_flat_map. split.
  - intros (k & _ & Hi). destruct (groups !! k) as [g|] eqn:Hg;
      [|by apply elem_of_nil in Hi].
    case_bool_decide; [|by apply elem_of_nil in Hi]. by exists k, g.
  - intros (k & g & Hk & Hm & Hi). exists k. split.
    + apply elem_of_seq. apply lookup_lt_Some in Hk. lia.
    + rewrite Hk. by rewrite bool_decide_eq_true_2.
Qed.

Lemma NoDup_flat_map {A B} (f : A → list B) (l : list A) :
  NoDup l → (∀ x, NoDup (f x)) →
  (∀ x y z, x ≠ y → z ∈ f x → z ∉ f y) →
  NoDup (flat_map f l).
Proof.
  intros Hl Hf Hdis. induction Hl as [|x l Hx Hl IH]; [constructor|].
  cbn [flat_map]. apply NoDup_app. split; [done|]. split; [|done].
  intros z Hz (y & Hy & Hzy)%elem_of_flat_map.
  apply (Hdis x y z); [|done|done]. by intros ->.
Qed.

Lemma NoDup_skipped : NoDup (skipped_positions groups merged (seq 0 (length groups))).
Proof using members_once disjoint.
  apply NoDup_flat_map; [apply NoDup_seq| |].
  - intros k. destruct (groups !! k) as [g|] eqn:Hg; [|constructor].
    destruct (bool_decide _); [|constructor].
    by eapply members_once, list_elem_of_lookup_2.
  - intros k k' i Hne Hi Hi'.
    destruct (groups !! k) as [g|] eqn:Hg; [|by apply elem_of_nil in Hi].
    destruct (groups !! k') as [g'|] eqn:Hg'; [|by apply elem_of_nil in Hi'].
    destruct (bool_decide (k ∉ merged)); [|by apply elem_of_nil in Hi].
    destruct (bool_decide (k' ∉ merged)); [|by apply elem_of_nil in Hi'].
    by apply (disjoint k k' g g' i).
Qed.

Lemma exported_positions :
  filter (λ i, i ∉ flat_map indices groups) (seq 0 (length contacts))
  ++ skipped_positions groups merged (seq 0 (length groups))
  ≡ₚ unmerged_positions (length contacts) groups merged.
Proof using in_range members_once disjoint.
  apply NoDup_Permutation.
  - apply NoDup_app. split; [apply NoDup_filter, NoDup_seq|].
    split; [|apply NoDup_skipped].
    intros i [Hi _]%list_elem_of_filter (k & g & Hk & _ & Hg)%elem_of_skipped.
    apply Hi, elem_of_grouped. by exists k, g.
  - apply NoDup_filter, NoDup_seq.
  - intros i. unfold unmerged_positions.
    rewrite elem_of_app, !list_elem_of_filter, elem_of_skipped,
      elem_of_merged_members, elem_of_grouped, !elem_of_seq.
    split.
    + intros [[Hi Hn]|(k & g & Hk & Hm & Hg)].
      * split; [|done]. intros (k & g & Hk & _ & Hg). apply Hi.
        by exists k, g.
      * split.
        -- intros (k' & g' & Hk' & Hm' & Hg').
           destruct (decide (k = k')) as [->|Hne]; [done|].
           by apply (disjoint k k' g g' i).
        -- split; [lia|]. cbn. eapply in_range; [|done].
           by eapply list_elem_of_lookup_2.
    + intros [Hi Hn].
      destruct (decide (i ∈ flat_map indices groups)) as [Hin|Hout].
      * right. apply elem_of_grouped in Hin as (k & g & Hk & Hg).
        exists k, g. split; [done|]. split; [|done].
        intros Hm. apply Hi. by exists k, g.
      * left. split; [|done]. intros Hin. by apply Hout, elem_of_grouped.
Qed.

Lemma export_contacts_spec merged_contacts :
  ∃ rest idxs,
    export_contacts contacts groups merged merged_contacts
    = Ret (merged_contacts ++ rest)
    ∧ Forall2 (λ i c, contacts !! i = Some c) idxs rest
    ∧ idxs ≡ₚ unmerged_positions (length contacts) groups merged.
Proof using in_range members_once disjoint.
  destruct (skipped_contacts_spec (seq 0 (length groups)))
    as (skipped & Hrun & Hskipped).
  { apply Forall_forall. intros k Hk%elem_of_seq. lia. }
  unfold export_contacts. rewrite Hrun. cbn [mbind res_bind bind].
  eexists _, _. split; [reflexivity|]. split.
  - apply Forall2_app; [apply unique_contacts_spec|exact Hskipped].
  - apply exported_positions.
Qed.

End ExportSelection.

(** ** What the application relies on *)

Section GroupFacts.

Variable ratio : str → str → Q.
Variable set_order : list (nat * nat) → list (nat * nat).
Hypothesis set_order_enum : enumeration set_order.

Lemma find_similar_groups_facts cs :
  ∃ groups, find_similar_groups ratio set_order cs = Ret groups
    ∧ Forall (λ g, (50 <= confidence g <= 100)%Z) groups
    ∧ (∀ g i, g ∈ groups → i ∈ indices g → (i < length cs)%nat)
    ∧ (∀ g, g ∈ groups → NoDup (indices g))
    ∧ (∀ a b ga gb i,
         groups !! a = Some ga → groups !! b = Some gb → a ≠ b →
         i ∈ indices ga → i ∉ indices gb).
Proof using set_order_enum.
  destruct (find_similar_groups_run ratio set_order set_order_enum cs)
    as (G & gs & processed & HG & _ & Hinv & _ & Hrun).
  destruct Hinv as (_ & Hgroups & Hnodup & Hdisj & _).
  exists (sort_groups gs). split; [done|]. split_and!.
  - apply Forall_forall. intros g Hg. rewrite sort_groups_perm in Hg.
    by destruct (Hgroups g Hg) as (_ & _ & _ & ? & _).
  - intros g i Hg Hi. rewrite sort_groups_perm in Hg.
    destruct (Hgroups g Hg) as (_ & Hlen & Hnd & _ & Hcomp).
    by eapply component_in_range.
  - intros g Hg. rewrite sort_groups_perm in Hg.
    by destruct (Hgroups g Hg) as (_ & _ & ? & _).
  - intros a b ga gb i Ha Hb Hab Hia Hib. apply Hab.
    assert (NoDup (sort_groups gs)) as Hnd by by rewrite sort_groups_perm.
    assert (ga = gb) as ->.
    { apply (Hdisj ga gb i); try done.
      - rewrite <- sort_groups_perm. by eapply list_elem_of_lookup_2.
      - rewrite <- sort_groups_perm. by eapply list_elem_of_lookup_2. }
    by eapply NoDup_lookup.
Qed.

End GroupFacts.

(** ** Groups, review batches and the export *)

(** X14. The groups are returned in the order of their confidence: no
    group has a higher confidence than a group before it. *)
Theorem groups_in_descending_order (ratio : str → str → Q)
    (set_order : list (nat * nat) → list (nat * nat))
    (contacts : list VCardContact) :
  enumeration set_order →
  ∃ groups, find_similar_groups ratio set_order contacts = Ret groups
    ∧ ∀ a b ga gb, (a < b)%nat →
        groups !! a = Some ga → groups !! b = Some gb →
        (confidence gb <= confidence ga)%Z.
Proof. intros Henum. by apply find_similar_groups_sorted. Qed.

Lemma groups_in_descending_order_witness :
  ∃ groups,
    find_similar_groups Difflib.ratio id
      [contact_of "John Smith" ["john@x.com"] [] "";
       contact_of "Bob Jones" [] ["650-555-1234"] "Acme";
       contact_of "Smith, John" ["John@x.com"] [] "";
       contact_of "Robert Jones" [] [] "Acme"] = Ret groups
    ∧ ∀ a b ga gb, (a < b)%nat →
        groups !! a = Some ga → groups !! b = Some gb →
        (confidence gb <= confidence ga)%Z.
Proof. apply groups_in_descending_order. by intros l. Defined.

(** X15. The members of a group are positions of the list of contacts, no
    position occurs twice in a group, and every member scores 50 or more
    with another member of its group (the score being taken with the
    contact at the smaller position first). *)
Theorem group_members_matched (ratio : str → str → Q)
    (set_order : list (nat * nat) → list (nat * nat))
    (contacts : list VCardContact) :
  enumeration set_order →
  ∃ groups, find_similar_groups ratio set_order contacts = Ret groups
    ∧ ∀ g, g ∈ groups →
        NoDup (indices g)
        ∧ ∀ u, u ∈ indices g →
            (u < length contacts)%nat
            ∧ ∃ v cu cv,
                v ∈ indices g ∧ u ≠ v
                ∧ contacts !! (u `min` v)%nat = Some cu
                ∧ contacts !! (u `max` v)%nat = Some cv
                ∧ (50 <= calculate_match_confidence ratio cu cv)%Z.
Proof. intros Henum. by apply find_similar_groups_members. Qed.

Lemma group_members_matched_witness :
  ∃ groups,
    find_similar_groups Difflib.ratio id
      [contact_of "John Smith" ["john@x.com"] [] "";
       contact_of "Bob Jones" [] ["650-555-1234"] "Acme";
       contact_of "Smith, John" ["John@x.com"] [] "";
       contact_of "Robert Jones" [] [] "Acme"] = Ret groups
    ∧ ∀ g, g ∈ groups →
        NoDup (indices g)
        ∧ ∀ u, u ∈ indices g →
            (u < 4)%nat
            ∧ ∃ v cu cv,
                v ∈ indices g ∧ u ≠ v
                ∧ [contact_of "John Smith" ["john@x.com"] [] "";
                   contact_of "Bob Jones" [] ["650-555-1234"] "Acme";
                   contact_of "Smith, John" ["John@x.com"] [] "";
                   contact_of "Robert Jones" [] [] "Acme"]
                  !! (u `min` v)%nat = Some cu
                ∧ [contact_of "John Smith" ["john@x.com"] [] "";
                   contact_of "Bob Jones" [] ["650-555-1234"] "Acme";
                   contact_of "Smith, John" ["John@x.com"] [] "";
                   contact_of "Robert Jones" [] [] "Acme"]
                  !! (u `max` v)%nat = Some cv
                ∧ (50 <= calculate_match_confidence Difflib.ratio cu cv)%Z.
Proof.
  apply (group_members_matched Difflib.ratio id
           [contact_of "John Smith" ["john@x.com"] [] "";
            contact_of "Bob Jones" [] ["650-555-1234"] "Acme";
            contact_of "Smith, John" ["John@x.com"] [] "";
            contact_of "Robert Jones" [] [] "Acme"]).
  by intros l.
Defined.

(** X16. Two contacts at different positions that share a normalised
    e-mail address other than the empty string are members of one group,
    whatever else the list holds. *)
Theorem shared_email_grouped (ratio : str → str → Q)
    (set_order : list (nat * nat) → list (nat * nat))
    (contacts : list VCardContact) (i j : nat) (ci cj : VCardContact)
    (e : str) :
  enumeration set_order →
  i ≠ j → contacts !! i = Some ci → contacts !! j = Some cj →
  e ≠ "" → e ∈ get_normalized_emails ci → e ∈ get_normalized_emails cj →
  ∃ groups g, find_similar_groups ratio set_order contacts = Ret groups
    ∧ g ∈ groups ∧ i ∈ indices g ∧ j ∈ indices g.
Proof. intros Henum. by apply shared_email_same_group. Qed.

Lemma shared_email_grouped_witness :
  ∃ groups g,
    find_similar_groups Difflib.ratio id
      [contact_of "Ann Lee" ["A.Lee+news@googlemail.com"] [] "";
       contact_of "Zed Q" [] [] "";
       contact_of "Mrs. A. Miller" ["alee@gmail.com"] [] ""] = Ret groups
    ∧ g ∈ groups ∧ 0%nat ∈ indices g ∧ 2%nat ∈ indices g.
Proof.
  apply (shared_email_grouped Difflib.ratio id _ 0 2
           (contact_of "Ann Lee" ["A.Lee+news@googlemail.com"] [] "")
           (contact_of "Mrs. A. Miller" ["alee@gmail.com"] [] "")
           "alee@gmail.com").
  - by intros l.
  - lia.
  - reflexivity.
  - reflexivity.
  - discriminate.
  - vm_compute. left.
  - vm_compute. left.
Defined.

(** X17. Every group that [find_similar_groups] returns is filed in
    exactly one review batch: the positions filed in the seven batches are
    the positions of the groups, each once, and a group is filed in a batch
    whose range holds its confidence. *)
Theorem groups_filed_in_batches (ratio : str → str → Q)
    (set_order : list (nat * nat) → list (nat * nat))
    (contacts : list VCardContact) :
  enumeration set_order →
  ∃ groups, find_similar_groups ratio set_order contacts = Ret groups
    ∧ flat_map batch_groups (_handle_groups_found groups)
      ≡ₚ seq 0 (length groups)
    ∧ ∀ b i, b ∈ _handle_groups_found groups → i ∈ batch_groups b →
        ∃ g, groups !! i = Some g
             ∧ (batch_min b <= confidence g <= batch_max b)%Z.
Proof.
  intros Henum.
  destruct (find_similar_groups_facts ratio set_order Henum contacts)
    as (groups & Hrun & Hconf & _).
  exists groups. split; [done|]. by apply handle_groups_found_spec.
Qed.

Lemma groups_filed_in_batches_witness :
  ∃ groups,
    find_similar_groups Difflib.ratio id
      [contact_of "John Smith" ["john@x.com"] [] "";
       contact_of "Bob Jones" [] ["650-555-1234"] "Acme";
       contact_of "Smith, John" ["John@x.com"] [] "";
       contact_of "Robert Jones" [] [] "Acme"] = Ret groups
    ∧ flat_map batch_groups (_handle_groups_found groups)
      ≡ₚ seq 0 (length groups)
    ∧ ∀ b i, b ∈ _handle_groups_found groups → i ∈ batch_groups b →
        ∃ g, groups !! i = Some g
             ∧ (batch_min b <= confidence g <= batch_max b)%Z.
Proof. apply groups_filed_in_batches. by intros l. Defined.

(** X18. An export loses no contact and repeats none: with the groups that
    [find_similar_groups] returned for the contacts, and whichever groups
    were merged, the export holds the merged contacts followed by the
    contacts at the positions that are in no merged group, every such
    position once. *)
Theorem export_keeps_unmerged (ratio : str → str → Q)
    (set_order : list (nat * nat) → list (nat * nat))
    (contacts : list VCardContact) (merged_group_indices : list nat)
    (merged_contacts : list VCardContact) :
  enumeration set_order →
  ∃ groups rest idxs,
    find_similar_groups ratio set_order contacts = Ret groups
    ∧ export_contacts contacts groups merged_group_indices merged_contacts
      = Ret (merged_contacts ++ rest)
    ∧ Forall2 (λ i c, contacts !! i = Some c) idxs rest
    ∧ idxs ≡ₚ unmerged_positions (length contacts) groups
                merged_group_indices.
Proof.
  intros Henum.
  destruct (find_similar_groups_facts ratio set_order Henum contacts)
    as (groups & Hrun & _ & Hrange & Hnd & Hdisj).
  destruct (export_contacts_spec contacts groups merged_group_indices
              Hrange Hnd Hdisj merged_contacts)
    as (rest & idxs & Hexp & Hrest & Hperm).
  by exists groups, rest, idxs.
Qed.

Lemma export_keeps_unmerged_witness :
  ∃ groups rest idxs,
    find_similar_groups Difflib.ratio id
      [contact_of "John Smith" ["john@x.com"] [] "";
       contact_of "Bob Jones" [] ["650-555-1234"] "Acme";
       contact_of "Smith, John" ["John@x.com"] [] "";
       contact_of "Zed Q" [] [] "";
       contact_of "Robert Jones" [] [] "Acme"] = Ret groups
    ∧ export_contacts
        [contact_of "John Smith" ["john@x.com"] [] "";
         contact_of "Bob Jones" [] ["650-555-1234"] "Acme";
         contact_of "Smith, John" ["John@x.com"] [] "";
         contact_of "Zed Q" [] [] "";
         contact_of "Robert Jones" [] [] "Acme"]
        groups [0%nat] [contact_of "John Smith" ["john@x.com"] [] ""]
      = Ret ([contact_of "John Smith" ["john@x.com"] [] ""] ++ rest)
    ∧ Forall2
        (λ i c,
           [contact_of "John Smith" ["john@x.com"] [] "";
            contact_of "Bob Jones" [] ["650-555-1234"] "Acme";
            contact_of "Smith, John" ["John@x.com"] [] "";
            contact_of "Zed Q" [] [] "";
            contact_of "Robert Jones" [] [] "Acme"] !! i = Some c)
        idxs rest
    ∧ idxs ≡ₚ unmerged_positions 5 groups [0%nat].
Proof.
  apply (export_keeps_unmerged Difflib.ratio id
           [contact_of "John Smith" ["john@x.com"] [] "";
            contact_of "Bob Jones" [] ["650-555-1234"] "Acme";
            contact_of "Smith, John" ["John@x.com"] [] "";
            contact_of "Zed Q" [] [] "";
            contact_of "Robert Jones" [] [] "Acme"]).
  by intros l.
Defined.
